(** * fastBayesReg: a shallow embedding of [src/fastBayesReg.cpp]

    Gibbs samplers for Bayesian linear and logistic regression with normal
    and horseshoe priors.

    - Numbers.  A [double] is a rational number ([Q]), without overflow
      or NaN.  Arithmetic is exact, except on the values the truncated
      normal generators return (the proposals of the tilted branch with
      their [alpha_star], the standardised bound and the rescaled
      values): there each operation is followed by the rounding [fl] of
      the class [Rounding], since whether a value can reach its bound
      depends on it.  An [int] loop bound is a [Z], a dimension a [nat].
    - Vectors and matrices.  An Armadillo vector is a list, a matrix the
      list of its rows, a matrix of retained draws the list of its columns.
      The element-wise operations are total: on operands of different
      lengths they stop at the shorter one.  What Armadillo does then, and
      where the code meets it, is the subject of the module [Conformance];
      the theorems on what a fitting run does take a response with as many
      entries as the design matrix has rows.
    - Services.  The functions of the C math library, the random number
      generators, the decompositions and solvers of Armadillo and the gamma
      functions of R are interfaces (type classes) whose members the code
      calls; every definition evaluates once they are instantiated
      ([Examples]).
    - Effects.  Drawing a variate advances the generator: the update
      functions are computations in a state monad over the [world], which
      also records the parameters of every gamma variate asked for and the
      update functions entered.
    - Exceptions.  A statement that throws yields [None].  A loop that may
      not end ([rand_left_trucnorm0]) runs with a bound on its rounds. *)

From Stdlib Require Import List Arith ZArith QArith Qround Bool Lia Lqa.
From Stdlib Require Reals Qreals Lra.
Import ListNotations.

Set Implicit Arguments.

Open Scope Q_scope.

(** ** Armadillo vectors and matrices *)

Module Arma.

Definition vec := list Q.
(** A matrix is the list of its rows. *)
Definition mat := list (list Q).
Definition uvec := list nat.

Definition n_elem (x : vec) : nat := length x.
Definition n_rows (X : mat) : nat := length X.
Definition n_cols (X : mat) : nat :=
  match X with
  | [] => 0%nat
  | r :: _ => length r
  end.

Definition zeros (k : nat) : vec := repeat 0 k.
Definition ones (k : nat) : vec := repeat 1 k.

(** Conversion of an [int] or [uword] dimension to [double]. *)
Definition Qn (k : nat) : Q := inject_Z (Z.of_nat k).

(** [arma::find(cond)]: a relational expression such as [x <= c]
    evaluates to a vector of flags, and [find] returns the indices of the
    flags that are set, in increasing order. *)
Fixpoint find_from (mask : list bool) (i : nat) : uvec :=
  match mask with
  | [] => []
  | b :: r => if b then i :: find_from r (S i) else find_from r (S i)
  end.

Definition find (mask : list bool) : uvec := find_from mask 0.

(** Flags of a comparison between two vectors, entry by entry. *)
Fixpoint cmp2 (c : Q -> Q -> bool) (a b : vec) : list bool :=
  match a, b with
  | x :: a', y :: b' => c x y :: cmp2 c a' b'
  | _, _ => []
  end.

(** [x.elem(idx)] read as a value. *)
Definition elem (x : vec) (idx : uvec) : vec := map (fun i => nth i x 0) idx.

Fixpoint set_nth {A : Type} (i : nat) (a : A) (y : list A) : list A :=
  match y, i with
  | [], _ => []
  | _ :: r, O => a :: r
  | b :: r, S j => b :: set_nth j a r
  end.

(** [y.elem(idx) = v]: element-wise assignment through an index vector. *)
Fixpoint set_elem (y : vec) (idx : uvec) (v : vec) : vec :=
  match idx, v with
  | i :: idx', a :: v' => set_elem (set_nth i a y) idx' v'
  | _, _ => y
  end.

(** [y.elem(idx).ones()] on a vector of unsigned integers. *)
Fixpoint set_elem_ones (y : uvec) (idx : uvec) : uvec :=
  match idx with
  | i :: idx' => set_elem_ones (set_nth i 1%nat y) idx'
  | [] => y
  end.

(** [y.subvec(a, a + v.n_elem - 1) = v]. *)
Definition set_subvec (a : nat) (v y : vec) : vec :=
  firstn a y ++ v ++ skipn (a + length v) y.

(** [idx.subvec(0, k - 1)]. *)
Definition head_subvec (k : nat) (idx : uvec) : uvec := firstn k idx.

(** Element-wise binary operations ([+], [-], [%], [/] on vectors). *)
Fixpoint zip_with (f : Q -> Q -> Q) (a b : vec) : vec :=
  match a, b with
  | x :: a', y :: b' => f x y :: zip_with f a' b'
  | _, _ => []
  end.

Definition vadd := zip_with Qplus.
Definition vsub := zip_with Qminus.
Definition vmul := zip_with Qmult.
Definition vdiv := zip_with Qdiv.
Definition vscale (c : Q) (a : vec) : vec := map (Qmult c) a.

(** [arma::accu]. *)
Definition accu (a : vec) : Q := fold_right Qplus 0 a.

Definition dot (a b : vec) : Q := accu (vmul a b).

(** [X * v] for a matrix and a column vector. *)
Definition mv (X : mat) (v : vec) : vec := map (fun r => dot r v) X.

(** Column [j] of a matrix. *)
Definition col (X : mat) (j : nat) : vec := map (fun r => nth j r 0) X.

(** [X.t()]. *)
Definition trans (X : mat) : mat := map (col X) (seq 0 (n_cols X)).

(** [A * B] for two matrices. *)
Definition mm (A B : mat) : mat := map (fun r => mv (trans B) r) A.

(** [M.diag() += v]. *)
Definition add_diag (M : mat) (v : vec) : mat :=
  map (fun k => set_nth k (nth k (nth k M []) 0 + nth k v 0) (nth k M []))
      (seq 0 (n_rows M)).

(** [M.diag() += c]. *)
Definition add_diag_c (M : mat) (c : Q) : mat :=
  map (fun k => set_nth k (nth k (nth k M []) 0 + c) (nth k M []))
      (seq 0 (n_rows M)).

(** [c * M]. *)
Definition mscale (c : Q) (M : mat) : mat := map (vscale c) M.

(** [1.0 / v]. *)
Definition vinv (v : vec) : vec := map (fun a => 1 / a) v.

(** [M.col(j) %= w] for every column [j]: row [i] is scaled by [w_i]. *)
Definition scale_rows (M : mat) (w : vec) : mat :=
  map (fun k => vscale (nth k w 0) (nth k M [])) (seq 0 (n_rows M)).

(** [M.each_col() /= w]: row [i] is divided by [w_i]. *)
Definition div_rows (M : mat) (w : vec) : mat :=
  map (fun k => map (fun a => a / nth k w 0) (nth k M [])) (seq 0 (n_rows M)).

(** [M.row(i) %= w.t()] for every row [i]: column [j] is scaled by [w_j]. *)
Definition scale_cols (M : mat) (w : vec) : mat := map (fun r => vmul r w) M.

(** A matrix of draws is kept as the list of its columns, one per draw. *)
Definition draws := list vec.

Definition zeros_cols (p k : nat) : draws := repeat (zeros p) k.

(** [L.col(i) = v]. *)
Definition set_col (i : nat) (v : vec) (L : draws) : draws := set_nth i v L.

(** A statement that may throw: [None] is the exception. *)
Definition and_then {A B : Type} (c : option A) (k : A -> option B)
  : option B :=
  match c with
  | Some a => k a
  | None => None
  end.

(** [arma::mean(L, 1)] for a matrix of [p] rows kept by columns.  The
    fitting functions follow it with the mean of a vector of as many
    entries as [L] has columns, which throws when there is none: the value
    given here for a matrix without columns is never used. *)
Definition mean_cols (p : nat) (L : draws) : vec :=
  map (fun j => accu (map (fun c => nth j c 0) L) / Qn (length L)) (seq 0 p).

(** [arma::mean(v)] of a vector: Armadillo throws [std::logic_error]
    ("mean(): object has no elements") on a vector without elements. *)
Definition mean (v : vec) : option Q :=
  match v with
  | [] => None
  | _ => Some (accu v / Qn (length v))
  end.

(** [arma::mean(M, 1)]: the mean of every row. *)
Definition mean_rows (M : mat) : vec :=
  map (fun r => accu r / Qn (length r)) M.

Definition half : Q := 1 # 2.

Definition Qleb (a b : Q) : bool := Qle_bool a b.
Definition Qltb (a b : Q) : bool := negb (Qle_bool b a).

End Arma.

Import Arma.

(** ** The C math library *)

(** The functions of [<cmath>] the code calls.  They are an interface: the
    theorems hold for every implementation, and say which properties of an
    implementation they rely on. *)
Class Libm := {
  exp : Q -> Q;
  log : Q -> Q;
  expm1 : Q -> Q;
  log1p : Q -> Q;
  sqrt : Q -> Q
}.

(** ** Rounding *)

(** The result of a [double] operation is the representable number
    nearest to the exact result.  [fl] is that rounding; it is written
    out where a property of the code depends on it.  The theorems say
    which properties of the rounding they rely on. *)
Class Rounding := {
  fl : Q -> Q
}.

(** ** Numerically stable log transforms *)

Module LogTransforms.
Section WithLibm.
Context {libm : Libm}.

(** [#define LOG2 0.693147180559945] *)
Definition LOG2 : Q := 693147180559945 # 1000000000000000.

Definition log1mexpm (x : vec) : vec :=
  let idx1 := find (map (fun a => Qleb a LOG2) x) in
  let idx0 := find (map (fun a => Qltb LOG2 a) x) in
  let y := zeros (n_elem x) in
  let y := set_elem y idx1 (map (fun a => log (0 - expm1 (0 - a))) (elem x idx1)) in
  let y := set_elem y idx0 (map (fun a => log1p (0 - exp (0 - a))) (elem x idx0)) in
  y.

Definition log1pexp (x : vec) : vec :=
  let idx0 := find (map (fun a => Qleb a (-37)) x) in
  let idx1 := find (map (fun a => Qltb (-37) a && Qleb a 18) x) in
  let idx2 := find (map (fun a => Qltb 18 a && Qleb a (333 # 10)) x) in
  let idx3 := find (map (fun a => Qltb (333 # 10) a) x) in
  let y := zeros (n_elem x) in
  let y := set_elem y idx0 (map exp (elem x idx0)) in
  let y := set_elem y idx1 (map (fun a => log1p (exp a)) (elem x idx1)) in
  let y := set_elem y idx2 (vadd (elem x idx2) (map (fun a => exp (0 - a)) (elem x idx2))) in
  let y := set_elem y idx3 (elem x idx3) in
  y.

End WithLibm.
End LogTransforms.

(** ** The constant [LOG2] and ln 2 *)

(** ln 2 is a real number.  A rational [q] is shown to be below it by a
    lower bound of [exp (- q)] above one half: [exp x >= 1 + x] at the
    [2^60]-th part of [- q], squared 60 times, each square rounded down
    to a multiple of [2^-160]. *)
Module Ln2.
Import Reals Qreals.

Definition below_ln_2 (q : Q) : Prop := (Q2R q < ln 2)%R.

Definition down (a : Q) : Q :=
  inject_Z (Qfloor (a * inject_Z (2 ^ 160))) / inject_Z (2 ^ 160).

Fixpoint squarings (k : nat) (a : Q) : Q :=
  match k with
  | O => a
  | S k' => squarings k' (down (a * a))
  end.

Fixpoint rsq (k : nat) (r : R) : R :=
  match k with
  | O => r
  | S k' => rsq k' (r * r)%R
  end.

Definition part (q : Q) : Q := 1 - q / inject_Z (2 ^ 60).

End Ln2.


(** ** Random number generators and linear algebra services *)

(** The generators behind [arma::randn], [arma::randu], [arma::randg] and
    R's [pgdraw]: the [k]-th variate each of them delivers.  A gamma
    variate depends on the shape and scale it is asked for, a Polya-Gamma
    variate on its shape and tilt. *)
Class RandomSource := {
  randn_src : nat -> Q;
  randu_src : nat -> Q;
  randg_src : nat -> Q -> Q -> Q;
  pgdraw_src : nat -> Q -> Q -> Q
}.

(** Decompositions and solvers of Armadillo ([LinAlg]), and the gamma
    distribution function and quantile function of R's [stats]
    ([RStats]), each called with its arguments in the order of the code. *)
Class LinAlg := {
  svd_econ : mat -> mat * vec * mat;
  chol : mat -> mat;
  solve : mat -> vec -> vec;
  quantile : mat -> vec -> mat;
  median : mat -> vec;
  stddev : mat -> vec
}.

Class RStats := {
  pgamma : Q -> Q -> Q -> Q;
  qgamma : Q -> Q -> Q -> Q
}.

(** The one-step update functions of the file. *)
Inductive kernel :=
| one_step_update_big_p_id
| one_step_update_big_n_id
| one_step_logit_normal_big_n_id
| one_step_logit_normal_big_p_id
| one_step_logit_horseshoe_big_n_id
| one_step_logit_horseshoe_big_p_id
| hs_one_step_update_big_p_id
| hs_one_step_update_big_n_id
| hs_one_step_update_id
| hs_one_step_update_slice_sampler_id.

(** What a run has consumed and done so far: how many variates of each
    generator were drawn, the (shape, scale) of every gamma variate asked
    for, and the update functions that were entered, both most recent
    first. *)
Record world := mkWorld {
  n_pos : nat;
  u_pos : nat;
  g_pos : nat;
  pg_pos : nat;
  g_log : list (Q * Q);
  trace : list kernel
}.

Definition world0 : world := mkWorld 0 0 0 0 [] [].

Module Sampler.

Definition M (A : Type) : Type := world -> A * world.

Definition ret {A} (a : A) : M A := fun w => (a, w).

Definition bind {A B} (c : M A) (k : A -> M B) : M B :=
  fun w => let (a, w') := c w in k a w'.

Declare Scope sampler_scope.
Delimit Scope sampler_scope with sampler.

Notation "x <- c ;; k" := (bind c (fun x => k))
  (at level 61, c at next level, right associativity) : sampler_scope.

Section WithSource.
Context {rs : RandomSource}.

(** [arma::randn<arma::vec>(k)] *)
Definition randn (k : nat) : M vec := fun w =>
  (map randn_src (seq (n_pos w) k),
   mkWorld (n_pos w + k) (u_pos w) (g_pos w) (pg_pos w) (g_log w) (trace w)).

(** [arma::randu<arma::vec>(k)] *)
Definition randu (k : nat) : M vec := fun w =>
  (map randu_src (seq (u_pos w) k),
   mkWorld (n_pos w) (u_pos w + k) (g_pos w) (pg_pos w) (g_log w) (trace w)).

(** [arma::randu()] *)
Definition randu1 : M Q := fun w =>
  (randu_src (u_pos w),
   mkWorld (n_pos w) (S (u_pos w)) (g_pos w) (pg_pos w) (g_log w) (trace w)).

(** [randg<double>(distr_param(shape, scale))] *)
Definition randg (shape scale : Q) : M Q := fun w =>
  (randg_src (g_pos w) shape scale,
   mkWorld (n_pos w) (u_pos w) (S (g_pos w)) (pg_pos w)
           ((shape, scale) :: g_log w) (trace w)).

(** [randg<arma::vec>(k, distr_param(shape, scale))] *)
Fixpoint randg_vec (k : nat) (shape scale : Q) : M vec :=
  match k with
  | O => ret []
  | S k' => bind (randg shape scale) (fun g =>
            bind (randg_vec k' shape scale) (fun r => ret (g :: r)))
  end.

(** [pgdraw(b, c)]: one Polya-Gamma variate per entry of [c]. *)
Definition pgdraw (b : Q) (c : vec) : M vec := fun w =>
  (map (fun k => pgdraw_src (pg_pos w + k) b (nth k c 0)) (seq 0 (length c)),
   mkWorld (n_pos w) (u_pos w) (g_pos w) (pg_pos w + length c)
           (g_log w) (trace w)).

(** Entering an update function. *)
Definition enter (k : kernel) : M unit := fun w =>
  (tt, mkWorld (n_pos w) (u_pos w) (g_pos w) (pg_pos w) (g_log w)
               (k :: trace w)).

End WithSource.

(** [for (int i = i0; i < i0 + k; i++) body], counted by the iterations
    that are left. *)
Fixpoint loop_from {S : Type} (k i : nat) (body : nat -> S -> M S) (s : S)
  : M S :=
  match k with
  | O => ret s
  | Datatypes.S k' => bind (body i s) (loop_from k' (Datatypes.S i) body)
  end.

(** [for (int i = 0; i < bound; i++) body]: no iteration when the bound is
    not positive. *)
Definition for_loop {S : Type} (bound : Z) (body : nat -> S -> M S) (s : S)
  : M S :=
  loop_from (Z.to_nat bound) 0 body s.

(** [k] successive updates by [step]. *)
Definition iterate {S : Type} (step : S -> M S) (k : nat) (s : S) : M S :=
  loop_from k 0 (fun _ => step) s.

(** The body of a sampling loop: [thinning] updates, then the draw is
    stored at [iter]. *)
Definition sample_body {S B : Type} (step : S -> M S)
    (store : nat -> S -> B -> B) (thinning : Z) (iter : nat) (sb : S * B)
  : M (S * B) :=
  bind (for_loop thinning (fun _ => step) (fst sb))
       (fun st => ret (st, store iter st (snd sb))).

(** The burn-in loop followed by the sampling loop. *)
Definition chain {S B : Type} (step : S -> M S)
    (store : nat -> S -> B -> B) (mcmc_sample burnin thinning : Z)
    (st : S) (b : B) : M (S * B) :=
  bind (for_loop burnin (fun _ => step) st)
       (fun st => for_loop mcmc_sample (sample_body step store thinning)
                           (st, b)).

(** A computation that leaves the record of entered update functions as it
    found it, and an update function that adds exactly its own name. *)
Definition keeps_trace {A : Type} (c : M A) : Prop :=
  forall w, trace (snd (c w)) = trace w.

Definition enters_once {S : Type} (K : kernel) (step : S -> M S) : Prop :=
  forall s w, trace (snd (step s w)) = K :: trace w.

(** The (shape, scale) of the gamma variate asked for last. *)
Definition last_gamma_request (w : world) : Q * Q := hd (0, 0) (g_log w).

(** [always c P]: whatever was drawn before, the value [c] computes
    satisfies [P]. *)
Definition always {A : Type} (c : M A) (P : A -> Prop) : Prop :=
  forall w, P (fst (c w)).

End Sampler.

Import Sampler.
Local Open Scope sampler_scope.

(** ** Normal prior, Gaussian likelihood *)

Module NormalLm.

(** The variables the update functions take by reference. *)
Record state := mkState {
  betacoef : vec;
  sigma2_eps : Q;
  tau2 : Q;
  b_tau : Q;
  mu : vec
}.

(** The buffers of retained draws: one column or entry per retained
    iteration. *)
Record buffers := mkBuffers {
  betacoef_list : draws;
  sigma2_eps_list : vec;
  tau2_list : vec
}.

Record post_mean_t := mkPostMean {
  pm_mu : vec;
  pm_betacoef : vec;
  pm_sigma2_eps : Q;
  pm_tau2 : Q
}.

(** The list the function returns, without the elapsed time. *)
Record fit := mkFit {
  post_mean : post_mean_t;
  mcmc : buffers
}.

Section WithServices.
Context {libm : Libm} {rs : RandomSource} {la : LinAlg}.

Definition one_step_update_big_p
    (ys : vec) (V : mat) (d d2 y : vec) (X : mat)
    (A2 a_sigma b_sigma : Q) (p n : nat) (st : state) : M state :=
  _ <- enter one_step_update_big_p_id ;;
  z1 <- randn p ;;
  let alpha_1 := vscale (sqrt (sigma2_eps st * tau2 st)) z1 in
  z2 <- randn n ;;
  let alpha_2 := vscale (sqrt (sigma2_eps st)) z2 in
  let beta_s :=
    vdiv (vmul (vsub (vsub ys (vmul d (mv (trans V) alpha_1))) alpha_2) d)
         (map (fun x => 1 + tau2 st * x) d2) in
  let betacoef := vadd alpha_1 (mv (mscale (tau2 st) V) beta_s) in
  let mu := mv X betacoef in
  let eps := vsub y mu in
  let sum_eps2 := accu (vmul eps eps) in
  let sum_beta2 := accu (vmul betacoef betacoef) in
  inv_tau2 <- randg ((1 + Qn p) / 2)
                    (1 / (b_tau st + half * sum_beta2 / sigma2_eps st)) ;;
  b_tau <- randg 1 (1 / (1 / A2 + inv_tau2)) ;;
  let tau2 := 1 / inv_tau2 in
  inv_sigma2_eps <-
    randg (a_sigma + Qn (n + p) / 2)
          (1 / (b_sigma + half * sum_beta2 * inv_tau2 + half * sum_eps2)) ;;
  let sigma2_eps := 1 / inv_sigma2_eps in
  ret (mkState betacoef sigma2_eps tau2 b_tau mu).

Definition one_step_update_big_n
    (ys : vec) (V : mat) (d d2 y : vec) (X : mat)
    (A2 a_sigma b_sigma : Q) (p n : nat) (st : state) : M state :=
  _ <- enter one_step_update_big_n_id ;;
  let inv_tau2 := 1 / tau2 st in
  z1 <- randn p ;;
  let alpha_1 :=
    vmul z1 (map (fun x => sqrt (sigma2_eps st / (x + inv_tau2))) d2) in
  let beta_s :=
    vadd (vdiv (vmul d ys) (map (fun x => x + inv_tau2) d2)) alpha_1 in
  let betacoef := mv V beta_s in
  let mu := vmul d beta_s in
  let eps := vsub ys mu in
  let sum_eps2 := accu (vmul eps eps) in
  let sum_beta2 := accu (vmul beta_s beta_s) in
  inv_tau2 <- randg ((1 + Qn p) / 2)
                    (1 / (b_tau st + half * sum_beta2 / sigma2_eps st)) ;;
  b_tau <- randg 1 (1 / (1 / A2 + inv_tau2)) ;;
  let tau2 := 1 / inv_tau2 in
  inv_sigma2_eps <-
    randg (a_sigma + Qn p)
          (1 / (b_sigma + half * sum_beta2 * inv_tau2 + half * sum_eps2)) ;;
  let sigma2_eps := 1 / inv_sigma2_eps in
  ret (mkState betacoef sigma2_eps tau2 b_tau mu).

(** What [fast_normal_lm] sets up before its loops. *)
Definition init_state (a_sigma b_sigma A_tau : Q) : state :=
  let sigma2_eps := b_sigma / a_sigma in
  let A2 := A_tau * A_tau in
  let b_tau := A2 in
  let tau2 := b_tau in
  mkState [] sigma2_eps tau2 b_tau [].

Definition init_buffers (p : nat) (mcmc_sample : Z) : buffers :=
  mkBuffers (zeros_cols p (Z.to_nat mcmc_sample))
            (zeros (Z.to_nat mcmc_sample))
            (zeros (Z.to_nat mcmc_sample)).

(** The three assignments that end an iteration of the sampling loop. *)
Definition store (iter : nat) (st : state) (b : buffers) : buffers :=
  mkBuffers (set_col iter (betacoef st) (betacoef_list b))
            (set_nth iter (sigma2_eps st) (sigma2_eps_list b))
            (set_nth iter (tau2 st) (tau2_list b)).

(** The means and the list [fast_normal_lm] ends with. *)
Definition finish (X : mat) (p : nat) (b : buffers) : option fit :=
  let betacoef := mean_cols p (betacoef_list b) in
  and_then (mean (sigma2_eps_list b)) (fun sigma2_eps =>
  and_then (mean (tau2_list b)) (fun tau2 =>
  Some (mkFit (mkPostMean (mv X betacoef) betacoef sigma2_eps tau2) b))).

(** The update function a run of [fast_normal_lm] calls, with the
    arguments the function passes to it. *)
Definition run_step (y : vec) (X : mat) (a_sigma b_sigma A_tau : Q)
  : state -> M state :=
  let '(U, d, V) := svd_econ X in
  let p := n_cols X in
  let n := n_rows X in
  let A2 := A_tau * A_tau in
  let d2 := vmul d d in
  let ys := mv (trans U) y in
  if (p <? n)%nat
  then one_step_update_big_n ys V d d2 y X A2 a_sigma b_sigma p n
  else one_step_update_big_p ys V d d2 y X A2 a_sigma b_sigma p n.

Definition fast_normal_lm (y : vec) (X : mat)
    (mcmc_sample burnin thinning : Z) (a_sigma b_sigma A_tau : Q)
  : M (option fit) :=
  let '(U, d, V) := svd_econ X in
  let p := n_cols X in
  let n := n_rows X in
  let A2 := A_tau * A_tau in
  let d2 := vmul d d in
  let ys := mv (trans U) y in
  let st := init_state a_sigma b_sigma A_tau in
  let b := init_buffers p mcmc_sample in
  sb <- (if (p <? n)%nat then
           st <- for_loop burnin (fun iter st =>
                   one_step_update_big_n ys V d d2 y X A2 a_sigma b_sigma
                                         p n st) st ;;
           for_loop mcmc_sample (fun iter sb =>
               st <- for_loop thinning (fun j st =>
                       one_step_update_big_n ys V d d2 y X A2 a_sigma b_sigma
                                             p n st) (fst sb) ;;
               ret (st, store iter st (snd sb))) (st, b)
         else
           st <- for_loop burnin (fun iter st =>
                   one_step_update_big_p ys V d d2 y X A2 a_sigma b_sigma
                                         p n st) st ;;
           for_loop mcmc_sample (fun iter sb =>
               st <- for_loop thinning (fun j st =>
                       one_step_update_big_p ys V d d2 y X A2 a_sigma b_sigma
                                             p n st) (fst sb) ;;
               ret (st, store iter st (snd sb))) (st, b)) ;;
  ret (finish X p (snd sb)).

End WithServices.
End NormalLm.

(** ** Normal prior, logistic likelihood *)

Module NormalLogit.

Record state := mkState {
  betacoef : vec;
  tau2 : Q;
  b_tau : Q;
  omega : vec;
  mu : vec
}.

(** [mu_list] is allocated by the function but never written nor
    returned; it is left out. *)
Record buffers := mkBuffers {
  betacoef_list : draws;
  tau2_list : vec
}.

Record post_mean_t := mkPostMean {
  pm_betacoef : vec;
  pm_tau2 : Q;
  pm_mu : vec;
  pm_prob : vec
}.

Record fit := mkFit {
  post_mean : post_mean_t;
  mcmc : buffers
}.

Section WithServices.
Context {libm : Libm} {rs : RandomSource} {la : LinAlg}.

Definition one_step_logit_normal_big_n
    (y_s Xty_s : vec) (X : mat) (A2_tau : Q) (p n : nat) (st : state)
  : M state :=
  _ <- enter one_step_logit_normal_big_n_id ;;
  (* update beta *)
  let inv_tau2 := 1 / tau2 st in
  let OmegaX := scale_rows X (omega st) in
  let XtX := mm (trans X) OmegaX in
  let XtX := add_diag_c XtX inv_tau2 in
  let R := chol XtX in
  let b := solve (trans R) Xty_s in
  alpha <- randn p ;;
  let betacoef := solve R (vadd alpha b) in
  (* update omega *)
  let mu := mv X betacoef in
  omega <- pgdraw 1 mu ;;
  (* update tau2 *)
  let sum_beta2 := accu (vmul betacoef betacoef) in
  inv_tau2 <- randg ((1 + Qn p) / 2) (1 / (b_tau st + half * sum_beta2)) ;;
  b_tau <- randg 1 (1 / (1 / A2_tau + inv_tau2)) ;;
  let tau2 := 1 / inv_tau2 in
  ret (mkState betacoef tau2 b_tau omega mu).

Definition one_step_logit_normal_big_p
    (y_s : vec) (XXt X : mat) (A2_tau : Q) (p n : nat) (st : state)
  : M state :=
  _ <- enter one_step_logit_normal_big_p_id ;;
  (* update beta *)
  let inv_omega := vinv (omega st) in
  z1 <- randn p ;;
  let alpha1 := vscale (sqrt (tau2 st)) z1 in
  z2 <- randn n ;;
  let alpha2 := vmul z2 (map sqrt inv_omega) in
  let Omega0 := mscale (tau2 st) XXt in
  let Omega0 := add_diag Omega0 inv_omega in
  let beta_s :=
    solve Omega0 (vsub (vsub (vmul y_s inv_omega) (mv X alpha1)) alpha2) in
  let betacoef := vadd alpha1 (mv (mscale (tau2 st) (trans X)) beta_s) in
  (* update omega *)
  let mu := mv X betacoef in
  omega <- pgdraw 1 mu ;;
  (* update tau2 *)
  let sum_beta2 := accu (vmul betacoef betacoef) in
  inv_tau2 <- randg ((1 + Qn p) / 2) (1 / (b_tau st + half * sum_beta2)) ;;
  b_tau <- randg 1 (1 / (1 / A2_tau + inv_tau2)) ;;
  let tau2 := 1 / inv_tau2 in
  ret (mkState betacoef tau2 b_tau omega mu).

Definition store (iter : nat) (st : state) (b : buffers) : buffers :=
  mkBuffers (set_col iter (betacoef st) (betacoef_list b))
            (set_nth iter (tau2 st) (tau2_list b)).

Definition init_buffers (p : nat) (mcmc_sample : Z) : buffers :=
  mkBuffers (zeros_cols p (Z.to_nat mcmc_sample))
            (zeros (Z.to_nat mcmc_sample)).

(** The means and the list [fast_normal_logit] ends with. *)
Definition finish (X : mat) (p : nat) (b : buffers) : option fit :=
  let betacoef := mean_cols p (betacoef_list b) in
  and_then (mean (tau2_list b)) (fun tau2 =>
  let mu := mv X betacoef in
  Some (mkFit (mkPostMean betacoef tau2 mu
                          (map (fun m => 1 / (1 + exp (- m))) mu)) b)).

Definition fast_normal_logit (y : vec) (X : mat)
    (mcmc_sample burnin thinning : Z) (A_tau : Q) : M (option fit) :=
  let p := n_cols X in
  let n := n_rows X in
  let A2_tau := A_tau * A_tau in
  let b_tau := A2_tau in
  let tau2 := b_tau in
  let y_s := vsub y (vscale half (ones n)) in
  omega <- pgdraw 1 (zeros n) ;;
  let st := mkState (zeros p) tau2 b_tau omega (zeros n) in
  let b := init_buffers p mcmc_sample in
  sb <- (if (p <? n)%nat then
           let Xty_s := mv (trans X) y_s in
           st <- for_loop burnin (fun iter st =>
                   one_step_logit_normal_big_n y_s Xty_s X A2_tau p n st) st ;;
           for_loop mcmc_sample (fun iter sb =>
               st <- for_loop thinning (fun j st =>
                       one_step_logit_normal_big_n y_s Xty_s X A2_tau p n st)
                     (fst sb) ;;
               ret (st, store iter st (snd sb))) (st, b)
         else
           let XXt := mm X (trans X) in
           st <- for_loop burnin (fun iter st =>
                   one_step_logit_normal_big_p y_s XXt X A2_tau p n st) st ;;
           for_loop mcmc_sample (fun iter sb =>
               st <- for_loop thinning (fun j st =>
                       one_step_logit_normal_big_p y_s XXt X A2_tau p n st)
                     (fst sb) ;;
               ret (st, store iter st (snd sb))) (st, b)) ;;
  ret (finish X p (snd sb)).

End WithServices.
End NormalLogit.

(** ** Horseshoe prior, logistic likelihood *)

Module HorseshoeLogit.

Record state := mkState {
  betacoef : vec;
  tau2 : Q;
  b_tau : Q;
  omega : vec;
  lambda : vec;
  b_lambda : vec;
  mu : vec
}.

Record buffers := mkBuffers {
  betacoef_list : draws;
  lambda_list : draws;
  tau2_list : vec
}.

Record post_mean_t := mkPostMean {
  pm_betacoef : vec;
  pm_tau2 : Q;
  pm_lambda : vec;
  pm_mu : vec;
  pm_prob : vec
}.

Record fit := mkFit {
  post_mean : post_mean_t;
  mcmc : buffers
}.

Section WithServices.
Context {libm : Libm} {rs : RandomSource} {la : LinAlg}.

Definition one_step_logit_horseshoe_big_n
    (y_s Xty_s : vec) (X : mat) (A2_tau A2_lambda : Q) (p n : nat)
    (st : state) : M state :=
  _ <- enter one_step_logit_horseshoe_big_n_id ;;
  (* update beta *)
  let inv_tau2 := 1 / tau2 st in
  let inv_lambda2 := vinv (vmul (lambda st) (lambda st)) in
  let OmegaX := scale_rows X (omega st) in
  let XtX := mm (trans X) OmegaX in
  let XtX := add_diag XtX (vscale inv_tau2 inv_lambda2) in
  let R := chol XtX in
  let b := solve (trans R) Xty_s in
  alpha <- randn p ;;
  let betacoef := solve R (vadd alpha b) in
  (* update omega *)
  let mu := mv X betacoef in
  omega <- pgdraw 1 mu ;;
  (* update tau2 *)
  let betacoef2 := vmul betacoef betacoef in
  let sum_beta2_inv_lambda2 := accu (vmul betacoef2 inv_lambda2) in
  inv_tau2 <- randg ((1 + Qn p) / 2)
                    (1 / (b_tau st + half * sum_beta2_inv_lambda2)) ;;
  b_tau <- randg 1 (1 / (1 / A2_tau + inv_tau2)) ;;
  let tau2 := 1 / inv_tau2 in
  (* update lambda *)
  g1 <- randg_vec p 1 1 ;;
  let inv_lambda2 :=
    vdiv g1 (vadd (b_lambda st) (map (fun b2 => half * b2 / tau2) betacoef2)) in
  g2 <- randg_vec p 1 1 ;;
  let b_lambda := vdiv g2 (map (fun il => 1 / A2_lambda + il) inv_lambda2) in
  let lambda := map sqrt (vinv inv_lambda2) in
  ret (mkState betacoef tau2 b_tau omega lambda b_lambda mu).

Definition one_step_logit_horseshoe_big_p
    (y_s : vec) (X : mat) (A2_tau A2_lambda : Q) (p n : nat)
    (st : state) : M state :=
  _ <- enter one_step_logit_horseshoe_big_p_id ;;
  (* update beta *)
  let inv_omega := vinv (omega st) in
  z1 <- randn p ;;
  let alpha1 := vmul (vscale (sqrt (tau2 st)) z1) (lambda st) in
  z2 <- randn n ;;
  let alpha2 := vmul z2 (map sqrt inv_omega) in
  let XLambda := scale_cols X (lambda st) in
  let Omega0 := mm XLambda (trans XLambda) in
  let Omega0 := add_diag Omega0 (map (fun a => a / tau2 st) inv_omega) in
  let beta_s :=
    solve Omega0 (vsub (vsub (vmul y_s inv_omega) (mv X alpha1)) alpha2) in
  let betacoef :=
    vadd alpha1 (vmul (lambda st) (mv (trans XLambda) beta_s)) in
  (* update omega *)
  let mu := mv X betacoef in
  omega <- pgdraw 1 mu ;;
  let inv_lambda2 := vinv (vmul (lambda st) (lambda st)) in
  (* update tau2 *)
  let betacoef2 := vmul betacoef betacoef in
  let sum_beta2_inv_lambda2 := accu (vmul betacoef2 inv_lambda2) in
  inv_tau2 <- randg ((1 + Qn p) / 2)
                    (1 / (b_tau st + half * sum_beta2_inv_lambda2)) ;;
  b_tau <- randg 1 (1 / (1 / A2_tau + inv_tau2)) ;;
  let tau2 := 1 / inv_tau2 in
  (* update lambda *)
  g1 <- randg_vec p 1 1 ;;
  let inv_lambda2 :=
    vdiv g1 (vadd (b_lambda st) (map (fun b2 => half * b2 / tau2) betacoef2)) in
  g2 <- randg_vec p 1 1 ;;
  let b_lambda := vdiv g2 (map (fun il => 1 / A2_lambda + il) inv_lambda2) in
  let lambda := map sqrt (vinv inv_lambda2) in
  ret (mkState betacoef tau2 b_tau omega lambda b_lambda mu).

Definition store (iter : nat) (st : state) (b : buffers) : buffers :=
  mkBuffers (set_col iter (betacoef st) (betacoef_list b))
            (set_col iter (lambda st) (lambda_list b))
            (set_nth iter (tau2 st) (tau2_list b)).

Definition init_buffers (p : nat) (mcmc_sample : Z) : buffers :=
  mkBuffers (zeros_cols p (Z.to_nat mcmc_sample))
            (zeros_cols p (Z.to_nat mcmc_sample))
            (zeros (Z.to_nat mcmc_sample)).

(** The means and the list [fast_horseshoe_logit] ends with; [lambda] is
    the last state's, not a mean. *)
Definition finish (X : mat) (p : nat) (st : state) (b : buffers)
  : option fit :=
  let betacoef := mean_cols p (betacoef_list b) in
  and_then (mean (tau2_list b)) (fun tau2 =>
  let mu := mv X betacoef in
  Some (mkFit (mkPostMean betacoef tau2 (lambda st) mu
                          (map (fun m => 1 / (1 + exp (- m))) mu)) b)).

Definition fast_horseshoe_logit (y : vec) (X : mat)
    (mcmc_sample burnin thinning : Z) (A_tau A_lambda : Q)
  : M (option fit) :=
  let p := n_cols X in
  let n := n_rows X in
  let A2_tau := A_tau * A_tau in
  let b_tau := A2_tau in
  let tau2 := b_tau in
  let A2_lambda := A_lambda * A_lambda in
  let y_s := vsub y (vscale half (ones n)) in
  omega <- pgdraw 1 (zeros n) ;;
  let st := mkState (zeros p) tau2 b_tau omega (ones p) (ones p) (zeros n) in
  let b := init_buffers p mcmc_sample in
  sb <- (if (p <? n)%nat then
           let Xty_s := mv (trans X) y_s in
           st <- for_loop burnin (fun iter st =>
                   one_step_logit_horseshoe_big_n y_s Xty_s X A2_tau A2_lambda
                                                  p n st) st ;;
           for_loop mcmc_sample (fun iter sb =>
               st <- for_loop thinning (fun j st =>
                       one_step_logit_horseshoe_big_n y_s Xty_s X A2_tau
                                                      A2_lambda p n st)
                     (fst sb) ;;
               ret (st, store iter st (snd sb))) (st, b)
         else
           let st := mkState (betacoef st) (1 / Qn p) (b_tau) (omega)
                             (lambda st) (b_lambda st) (mu st) in
           st <- for_loop burnin (fun iter st =>
                   one_step_logit_horseshoe_big_p y_s X A2_tau A2_lambda
                                                  p n st) st ;;
           for_loop mcmc_sample (fun iter sb =>
               st <- for_loop thinning (fun j st =>
                       one_step_logit_horseshoe_big_p y_s X A2_tau A2_lambda
                                                      p n st)
                     (fst sb) ;;
               ret (st, store iter st (snd sb))) (st, b)) ;;
  ret (finish X p (fst sb) (snd sb)).

End WithServices.
End HorseshoeLogit.

(** ** Horseshoe prior, Gaussian likelihood *)

Module HorseshoeLm.

(** In [hs_one_step_update_slice_sampler] the callers pass [b_tau] and
    [b_lambda] for the parameters [u_tau] and [u_lambda]. *)
Record state := mkState {
  betacoef : vec;
  lambda : vec;
  sigma2_eps : Q;
  tau2 : Q;
  b_tau : Q;
  b_lambda : vec;
  mu : vec
}.

Record buffers := mkBuffers {
  betacoef_list : draws;
  lambda_list : draws;
  sigma2_eps_list : vec;
  tau2_list : vec
}.

Record post_mean_t := mkPostMean {
  pm_mu : vec;
  pm_betacoef : vec;
  pm_lambda : vec;
  pm_sigma2_eps : Q;
  pm_tau2 : Q
}.

Record fit := mkFit {
  post_mean : post_mean_t;
  mcmc : buffers
}.

Section WithServices.
Context {libm : Libm} {rs : RandomSource} {la : LinAlg} {rstats : RStats}.

Definition hs_one_step_update_big_p
    (ys : vec) (V : mat) (d d2 y : vec) (X VD : mat)
    (A2_tau A2_lambda a_sigma b_sigma : Q) (p n : nat) (st : state)
  : M state :=
  _ <- enter hs_one_step_update_big_p_id ;;
  let lambda2 := vmul (lambda st) (lambda st) in
  let sigma_eps := sqrt (sigma2_eps st) in
  let tau := sqrt (tau2 st) in
  let inv_tau2 := 1 / tau2 st in
  z1 <- randn p ;;
  let alpha_1 := vscale tau (vscale sigma_eps (vmul z1 (lambda st))) in
  z2 <- randn n ;;
  let alpha_2 := vscale sigma_eps z2 in
  let LambdaVD := scale_rows VD (lambda st) in
  let Z := mm (trans LambdaVD) LambdaVD in
  let Z := add_diag_c Z inv_tau2 in
  let beta_s :=
    solve Z (vsub (vsub ys (mv (trans VD) alpha_1)) alpha_2) in
  let betacoef := vadd alpha_1 (vmul lambda2 (mv VD beta_s)) in
  (* update lambda *)
  let betacoef2 := vmul betacoef betacoef in
  g1 <- randg_vec p 1 1 ;;
  let inv_lambda2 :=
    vdiv g1 (vadd (b_lambda st)
                  (map (fun b2 => half * b2 / tau2 st / sigma2_eps st)
                       betacoef2)) in
  g2 <- randg_vec p 1 1 ;;
  let b_lambda := vdiv g2 (map (fun il => 1 / A2_lambda + il) inv_lambda2) in
  let lambda := map sqrt (vinv inv_lambda2) in
  (* update tau2, sigma2_eps, b_tau and b_lambda *)
  let sum_beta2_inv_lambda2 := accu (vmul betacoef2 inv_lambda2) in
  inv_tau2 <- randg ((1 + Qn p) / 2)
                (1 / (b_tau st
                      + half * sum_beta2_inv_lambda2 / sigma2_eps st)) ;;
  b_tau <- randg 1 (1 / (1 / A2_tau + inv_tau2)) ;;
  let tau2 := 1 / inv_tau2 in
  let mu := mv X betacoef in
  let eps := vsub y mu in
  let sum_eps2 := accu (vmul eps eps) in
  inv_sigma2_eps <-
    randg (a_sigma + Qn ((p + n) / 2))
          (1 / (b_sigma + half * sum_beta2_inv_lambda2 * inv_tau2
                + half * sum_eps2)) ;;
  let sigma2_eps := 1 / inv_sigma2_eps in
  ret (mkState betacoef lambda sigma2_eps tau2 b_tau b_lambda mu).

Definition hs_one_step_update_big_n
    (dys : vec) (V : mat) (d2 y : vec) (X : mat)
    (A2 A2_lambda a_sigma b_sigma : Q) (p n : nat) (st : state)
  : M state :=
  _ <- enter hs_one_step_update_big_n_id ;;
  let inv_tau2 := 1 / tau2 st in
  let sigma_eps := sqrt (sigma2_eps st) in
  let lambda_tau := vscale (sqrt (tau2 st)) (lambda st) in
  let V_d_lambda := div_rows V lambda_tau in
  let VtV := mm (trans V_d_lambda) V_d_lambda in
  let VtV := add_diag VtV d2 in
  let R := chol VtV in
  let b := solve (trans R) (map (fun a => a / sigma_eps) dys) in
  alpha <- randn p ;;
  let betacoef := mv (mscale sigma_eps V) (solve R (vadd alpha b)) in
  let betacoef2 := vmul betacoef betacoef in
  g1 <- randg_vec p 1 1 ;;
  let inv_lambda2 :=
    vdiv g1 (vadd (b_lambda st)
                  (map (fun b2 => half * b2 / tau2 st / sigma2_eps st)
                       betacoef2)) in
  let lambda := map sqrt (vinv inv_lambda2) in
  g2 <- randg_vec p 1 1 ;;
  let b_lambda := vdiv g2 (map (fun il => 1 / A2_lambda + il) inv_lambda2) in
  let mu := mv X betacoef in
  let eps := vsub y mu in
  let sum_eps2 := accu (vmul eps eps) in
  let sum_beta2_inv_lambda2 :=
    accu (vmul (vmul betacoef betacoef) inv_lambda2) in
  inv_tau2 <- randg ((1 + Qn p) / 2)
                (1 / (b_tau st
                      + half * sum_beta2_inv_lambda2 / sigma2_eps st)) ;;
  b_tau <- randg 1 (1 / (1 / A2 + inv_tau2)) ;;
  let tau2 := 1 / inv_tau2 in
  inv_sigma2_eps <-
    randg (a_sigma + Qn ((p + n) / 2))
          (1 / (b_sigma + half * sum_beta2_inv_lambda2 * inv_tau2
                + half * sum_eps2)) ;;
  let sigma2_eps := 1 / inv_sigma2_eps in
  ret (mkState betacoef lambda sigma2_eps tau2 b_tau b_lambda mu).

Definition hs_one_step_update
    (y : vec) (X : mat) (A2 A2_lambda a_sigma b_sigma : Q) (p n : nat)
    (st : state) : M state :=
  _ <- enter hs_one_step_update_id ;;
  let sigma_eps := sqrt (sigma2_eps st) in
  let tau := sqrt (tau2 st) in
  let inv_tau2 := 1 / tau2 st in
  z1 <- randn p ;;
  let alpha_1 := vscale tau (vscale sigma_eps (vmul z1 (lambda st))) in
  z2 <- randn n ;;
  let alpha_2 := vscale sigma_eps z2 in
  let XLambda := scale_cols X (lambda st) in
  let Z := mm XLambda (trans XLambda) in
  let Z := add_diag_c Z inv_tau2 in
  let beta_s := solve Z (vsub (vsub y (mv X alpha_1)) alpha_2) in
  let betacoef :=
    vadd alpha_1 (vmul (lambda st) (mv (trans XLambda) beta_s)) in
  (* update lambda *)
  let betacoef2 := vmul betacoef betacoef in
  g1 <- randg_vec p 1 1 ;;
  let inv_lambda2 :=
    vdiv g1 (vadd (b_lambda st)
                  (map (fun b2 => half * b2 / tau2 st / sigma2_eps st)
                       betacoef2)) in
  g2 <- randg_vec p 1 1 ;;
  let b_lambda := vdiv g2 (map (fun il => 1 / A2_lambda + il) inv_lambda2) in
  let lambda := map sqrt (vinv inv_lambda2) in
  (* update tau2, sigma2_eps, b_tau and b_lambda *)
  let mu := mv X betacoef in
  let eps := vsub y mu in
  let sum_eps2 := accu (vmul eps eps) in
  let sum_beta2_inv_lambda2 := accu (vmul betacoef2 inv_lambda2) in
  inv_sigma2_eps <-
    randg (a_sigma + Qn ((p + n) / 2))
          (1 / (b_sigma + half * sum_beta2_inv_lambda2 * inv_tau2
                + half * sum_eps2)) ;;
  let sigma2_eps := 1 / inv_sigma2_eps in
  inv_tau2 <- randg ((1 + Qn p) / 2)
                (1 / (b_tau st
                      + half * sum_beta2_inv_lambda2 * inv_sigma2_eps)) ;;
  b_tau <- randg 1 (1 / (1 / A2 + inv_tau2)) ;;
  let tau2 := 1 / inv_tau2 in
  ret (mkState betacoef lambda sigma2_eps tau2 b_tau b_lambda mu).

Definition hs_one_step_update_slice_sampler
    (y : vec) (X : mat) (A2_tau A2_lambda a_sigma b_sigma : Q) (p n : nat)
    (st : state) : M state :=
  _ <- enter hs_one_step_update_slice_sampler_id ;;
  let sigma_eps := sqrt (sigma2_eps st) in
  let tau := sqrt (tau2 st) in
  let inv_tau2 := 1 / tau2 st in
  z1 <- randn p ;;
  let alpha_1 := vscale tau (vscale sigma_eps (vmul z1 (lambda st))) in
  z2 <- randn n ;;
  let alpha_2 := vscale sigma_eps z2 in
  let XLambda := scale_cols X (lambda st) in
  let Z := mm XLambda (trans XLambda) in
  let Z := add_diag_c Z inv_tau2 in
  let beta_s := solve Z (vsub (vsub y (mv X alpha_1)) alpha_2) in
  let betacoef :=
    vadd alpha_1 (vmul (lambda st) (mv (trans XLambda) beta_s)) in
  (* update lambda *)
  let betacoef2 := vmul betacoef betacoef in
  let B := map (fun b2 => half * b2 / tau2 st / sigma2_eps st) betacoef2 in
  let inv_lambda2 := vinv (vmul (lambda st) (lambda st)) in
  r1 <- randu p ;;
  let u_lambda :=
    vmul r1 (map (fun il => A2_lambda / (1 + A2_lambda * il)) inv_lambda2) in
  upsilon <- randu p ;;
  let C := map (fun u => 1 / u - 1 / A2_lambda) u_lambda in
  let inv_lambda2 :=
    vdiv (map (fun a => - log1p a)
              (vmul (map Qopp upsilon)
                    (map (fun bc => 1 - exp bc) (vmul (map Qopp B) C))))
         B in
  let lambda := map sqrt (vinv inv_lambda2) in
  (* update tau2, b_tau *)
  let sum_beta2_inv_lambda2 := accu (vmul betacoef2 inv_lambda2) in
  let B_tau := half * sum_beta2_inv_lambda2 / sigma2_eps st in
  r2 <- randu1 ;;
  let u_tau := r2 * (A2_tau / (1 + A2_tau * inv_tau2)) in
  let C_tau := 1 / u_tau - 1 / A2_tau in
  let F_C_tau := pgamma C_tau ((Qn p + 1) / 2) B_tau in
  r3 <- randu1 ;;
  let inv_F_tau := qgamma (r3 * F_C_tau) ((Qn p + 1) / 2) B_tau in
  let inv_tau2 := inv_F_tau in
  let tau2 := 1 / inv_tau2 in
  (* update sigma2_eps *)
  let mu := mv X betacoef in
  let eps := vsub y mu in
  let sum_eps2 := accu (vmul eps eps) in
  inv_sigma2_eps <-
    randg (a_sigma + Qn ((p + n) / 2))
          (1 / (b_sigma + half * sum_beta2_inv_lambda2 * inv_tau2
                + half * sum_eps2)) ;;
  let sigma2_eps := 1 / inv_sigma2_eps in
  ret (mkState betacoef lambda sigma2_eps tau2 u_tau u_lambda mu).

Definition store (iter : nat) (st : state) (b : buffers) : buffers :=
  mkBuffers (set_col iter (betacoef st) (betacoef_list b))
            (set_col iter (lambda st) (lambda_list b))
            (set_nth iter (sigma2_eps st) (sigma2_eps_list b))
            (set_nth iter (tau2 st) (tau2_list b)).

Definition init_buffers (p : nat) (mcmc_sample : Z) : buffers :=
  mkBuffers (zeros_cols p (Z.to_nat mcmc_sample))
            (zeros_cols p (Z.to_nat mcmc_sample))
            (zeros (Z.to_nat mcmc_sample))
            (zeros (Z.to_nat mcmc_sample)).

(** The means and the list the three functions end with. *)
Definition finish (X : mat) (p : nat) (b : buffers) : option fit :=
  let betacoef := mean_cols p (betacoef_list b) in
  let lambda := mean_cols p (lambda_list b) in
  and_then (mean (sigma2_eps_list b)) (fun sigma2_eps =>
  and_then (mean (tau2_list b)) (fun tau2 =>
  Some (mkFit (mkPostMean (mv X betacoef) betacoef lambda sigma2_eps tau2)
              b))).

(** The state [fast_horseshoe_lm] starts from. *)
Definition fast_horseshoe_lm_init (a_sigma b_sigma : Q) (p : nat) : state :=
  let sigma2_eps := 1 in
  let sigma2_eps :=
    if negb (Qeq_bool a_sigma 0) then b_sigma / a_sigma else sigma2_eps in
  let b_tau := 1 in
  let tau2 := 1 / Qn p in
  mkState [] (ones p) sigma2_eps tau2 b_tau (ones p) [].

(** The update function a run of [fast_horseshoe_lm] calls, with the
    arguments the function passes to it. *)
Definition fast_horseshoe_lm_step (y : vec) (X : mat)
    (a_sigma b_sigma A_tau A_lambda : Q) : state -> M state :=
  let '(U, d, V) := svd_econ X in
  let p := n_cols X in
  let n := n_rows X in
  let A2 := A_tau * A_tau in
  let A2_lambda := A_lambda * A_lambda in
  let d2 := vmul d d in
  let ys := mv (trans U) y in
  let dys := vmul d ys in
  if (p <? n)%nat
  then hs_one_step_update_big_n dys V d2 y X A2 A2_lambda a_sigma b_sigma p n
  else hs_one_step_update_big_p ys V d d2 y X (scale_cols V d) A2 A2_lambda
                                a_sigma b_sigma p n.

Definition fast_horseshoe_lm (y : vec) (X : mat)
    (mcmc_sample burnin thinning : Z) (a_sigma b_sigma A_tau A_lambda : Q)
  : M (option fit) :=
  let '(U, d, V) := svd_econ X in
  let p := n_cols X in
  let n := n_rows X in
  let st := fast_horseshoe_lm_init a_sigma b_sigma p in
  let A2 := A_tau * A_tau in
  let A2_lambda := A_lambda * A_lambda in
  let d2 := vmul d d in
  let ys := mv (trans U) y in
  let dys := vmul d ys in
  let b := init_buffers p mcmc_sample in
  sb <- (if (p <? n)%nat then
           st <- for_loop burnin (fun iter st =>
                   hs_one_step_update_big_n dys V d2 y X A2 A2_lambda
                                            a_sigma b_sigma p n st) st ;;
           for_loop mcmc_sample (fun iter sb =>
               st <- for_loop thinning (fun j st =>
                       hs_one_step_update_big_n dys V d2 y X A2 A2_lambda
                                                a_sigma b_sigma p n st)
                     (fst sb) ;;
               ret (st, store iter st (snd sb))) (st, b)
         else
           let VD := scale_cols V d in
           st <- for_loop burnin (fun iter st =>
                   hs_one_step_update_big_p ys V d d2 y X VD A2 A2_lambda
                                            a_sigma b_sigma p n st) st ;;
           for_loop mcmc_sample (fun iter sb =>
               st <- for_loop thinning (fun j st =>
                       hs_one_step_update_big_p ys V d d2 y X VD A2 A2_lambda
                                                a_sigma b_sigma p n st)
                     (fst sb) ;;
               ret (st, store iter st (snd sb))) (st, b)) ;;
  ret (finish X p (snd sb)).

(** The state [fast_horseshoe_ss_lm] starts from. *)
Definition fast_horseshoe_ss_lm_init (a_sigma b_sigma : Q) (p : nat)
  : state :=
  let sigma2_eps := 1 in
  let sigma2_eps :=
    if negb (Qeq_bool a_sigma 0) then b_sigma / a_sigma else sigma2_eps in
  let b_tau := 1 in
  let tau2 := 1 / Qn p in
  mkState [] (ones p) sigma2_eps tau2 b_tau (ones p) [].

Definition fast_horseshoe_ss_lm (y : vec) (X : mat)
    (mcmc_sample burnin thinning : Z) (a_sigma b_sigma A_tau A_lambda : Q)
  : M (option fit) :=
  let p := n_cols X in
  let n := n_rows X in
  let st := fast_horseshoe_ss_lm_init a_sigma b_sigma p in
  let A2 := A_tau * A_tau in
  let A2_lambda := A_lambda * A_lambda in
  let b := init_buffers p mcmc_sample in
  sb <- (if (p <? n)%nat then
           let '(U, d, V) := svd_econ X in
           let d2 := vmul d d in
           let dys := vmul d (mv (trans U) y) in
           st <- for_loop burnin (fun iter st =>
                   hs_one_step_update_big_n dys V d2 y X A2 A2_lambda
                                            a_sigma b_sigma p n st) st ;;
           for_loop mcmc_sample (fun iter sb =>
               st <- for_loop thinning (fun j st =>
                       hs_one_step_update_big_n dys V d2 y X A2 A2_lambda
                                                a_sigma b_sigma p n st)
                     (fst sb) ;;
               ret (st, store iter st (snd sb))) (st, b)
         else
           st <- for_loop burnin (fun iter st =>
                   hs_one_step_update_slice_sampler y X A2 A2_lambda
                                                    a_sigma b_sigma p n st)
                 st ;;
           for_loop mcmc_sample (fun iter sb =>
               st <- for_loop thinning (fun j st =>
                       hs_one_step_update_slice_sampler y X A2 A2_lambda
                                                        a_sigma b_sigma p n st)
                     (fst sb) ;;
               ret (st, store iter st (snd sb))) (st, b)) ;;
  ret (finish X p (snd sb)).

(** The state [fast_horseshoe_hd_lm] starts from. *)
Definition fast_horseshoe_hd_lm_init (a_sigma b_sigma : Q) (p : nat)
  : state :=
  let sigma2_eps := 1 in
  let sigma2_eps :=
    if negb (Qeq_bool a_sigma 0) then b_sigma / a_sigma else sigma2_eps in
  let b_tau := 1 in
  let tau2 := 1 / Qn p in
  mkState [] (ones p) sigma2_eps tau2 b_tau (ones p) [].

Definition fast_horseshoe_hd_lm (y : vec) (X : mat)
    (mcmc_sample burnin thinning : Z) (a_sigma b_sigma A_tau A_lambda : Q)
  : M (option fit) :=
  let p := n_cols X in
  let n := n_rows X in
  let st := fast_horseshoe_hd_lm_init a_sigma b_sigma p in
  let A2 := A_tau * A_tau in
  let A2_lambda := A_lambda * A_lambda in
  let b := init_buffers p mcmc_sample in
  sb <- (if (p <? n)%nat then
           let '(U, d, V) := svd_econ X in
           let d2 := vmul d d in
           let dys := vmul d (mv (trans U) y) in
           st <- for_loop burnin (fun iter st =>
                   hs_one_step_update_big_n dys V d2 y X A2 A2_lambda
                                            a_sigma b_sigma p n st) st ;;
           for_loop mcmc_sample (fun iter sb =>
               st <- for_loop thinning (fun j st =>
                       hs_one_step_update_big_n dys V d2 y X A2 A2_lambda
                                                a_sigma b_sigma p n st)
                     (fst sb) ;;
               ret (st, store iter st (snd sb))) (st, b)
         else
           st <- for_loop burnin (fun iter st =>
                   hs_one_step_update y X A2 A2_lambda a_sigma b_sigma p n st)
                 st ;;
           for_loop mcmc_sample (fun iter sb =>
               st <- for_loop thinning (fun j st =>
                       hs_one_step_update y X A2 A2_lambda a_sigma b_sigma
                                          p n st)
                     (fst sb) ;;
               ret (st, store iter st (snd sb))) (st, b)) ;;
  ret (finish X p (snd sb)).

End WithServices.
End HorseshoeLm.

(** ** Truncated normal generator *)

Module TruncNorm.
Section WithServices.
Context {libm : Libm} {rs : RandomSource} {rnd : Rounding}.

(** The batch size [ceil(ratio * k)]. *)
Definition batch (ratio : Q) (k : nat) : nat :=
  Z.to_nat (Qceiling (ratio * Qn k)).

(** The [while (m < n)] loop of the [lower <= 0] branch.  The loop ends
    only when enough draws were accepted, so it is run with a bound on
    the number of rounds: [None] when the bound is reached first. *)
Fixpoint refill_plain (fuel n : nat) (lower ratio : Q) (m : nat) (y : vec)
  : M (option vec) :=
  if (m <? n)%nat then
    match fuel with
    | O => ret None
    | S fuel' =>
        z <- randn (batch ratio (n - m)) ;;
        let idx := find (map (fun a => Qltb lower a) z) in
        if (0 <? length idx)%nat then
          let y := if (m + length idx <=? n)%nat
                   then set_subvec m (elem z idx) y
                   else set_subvec m (elem z (head_subvec (n - m) idx)) y in
          refill_plain fuel' n lower ratio (m + length idx) y
        else refill_plain fuel' n lower ratio m y
    end
  else ret (Some y).

(** [0.5*(lower+sqrt(lower*lower+4.0))], each operation rounded. *)
Definition tilt (lower : Q) : Q :=
  fl (half * fl (lower + sqrt (fl (fl (lower * lower) + 4)))).

(** The proposal [lower - log(u)/alpha_star] made from the uniform variate
    [u], and [log_rho_z] of a proposal [z]: [z - alpha_star] multiplied by
    [-0.5] times itself.  Each operation is rounded. *)
Definition proposal (lower alpha_star u : Q) : Q :=
  fl (lower - fl (log u / alpha_star)).

Definition log_rho (alpha_star z : Q) : Q :=
  let d := fl (z - alpha_star) in
  fl (d * fl (- half * d)).

(** One batch of proposals of the [lower > 0] branch: the proposals [z]
    and the indices of those that are accepted. *)
Definition tilted_batch (lower alpha_star : Q) (k : nat) : M (vec * uvec) :=
  r <- randu k ;;
  let z := map (proposal lower alpha_star) r in
  let log_rho_z := map (log_rho alpha_star) z in
  u <- randu k ;;
  let idx := find (cmp2 Qltb (map log u) log_rho_z) in
  ret (z, idx).

Fixpoint refill_tilted (fuel n : nat) (lower ratio alpha_star : Q) (m : nat)
    (y : vec) : M (option vec) :=
  if (m <? n)%nat then
    match fuel with
    | O => ret None
    | S fuel' =>
        zi <- tilted_batch lower alpha_star (batch ratio (n - m)) ;;
        let z := fst zi in
        let idx := snd zi in
        if (0 <? length idx)%nat then
          let y := if (m + length idx <=? n)%nat
                   then set_subvec m (elem z idx) y
                   else set_subvec m (elem z (head_subvec (n - m) idx)) y in
          refill_tilted fuel' n lower ratio alpha_star (m + length idx) y
        else refill_tilted fuel' n lower ratio alpha_star m y
    end
  else ret (Some y).

Definition rand_left_trucnorm0 (fuel : nat) (n : nat) (lower ratio : Q)
  : M (option vec) :=
  let y := zeros n in
  let m := 0%nat in
  if Qleb lower 0 then
    z <- randn (batch ratio (n - m)) ;;
    let idx := find (map (fun a => Qltb lower a) z) in
    let m := (m + length idx)%nat in
    let y := if (0 <? length idx)%nat then
               if (m <=? n)%nat then set_subvec 0 (elem z idx) y
               else elem z (head_subvec n idx)
             else y in
    refill_plain fuel n lower ratio m y
  else
    let alpha_star := tilt lower in
    zi <- tilted_batch lower alpha_star (batch ratio n) ;;
    let z := fst zi in
    let idx := snd zi in
    let m := (m + length idx)%nat in
    let y := if (0 <? length idx)%nat then
               if (m <=? n)%nat then set_subvec 0 (elem z idx) y
               else elem z (head_subvec n idx)
             else y in
    refill_tilted fuel n lower ratio alpha_star m y.

(** [(lower - mu)/sigma], and [y *= sigma; y += mu] on one entry, each
    operation rounded. *)
Definition standardise (mu sigma lower : Q) : Q :=
  fl (fl (lower - mu) / sigma).

Definition rescale (mu sigma a : Q) : Q := fl (fl (a * sigma) + mu).

Definition rand_left_trucnorm (fuel n : nat) (mu sigma lower ratio : Q)
  : M (option vec) :=
  let lower0 := standardise mu sigma lower in
  y <- rand_left_trucnorm0 fuel n lower0 ratio ;;
  ret (option_map (fun y => map (rescale mu sigma) y) y).

Definition rand_right_trucnorm (fuel n : nat) (mu sigma upper ratio : Q)
  : M (option vec) :=
  y <- rand_left_trucnorm fuel n (- mu) sigma (- upper) ratio ;;
  ret (option_map (map Qopp) y).

End WithServices.

(** The slots filled so far: [y] has [n] slots and the first [m] of them
    (all of them once [m] exceeds [n]) hold values that satisfy [P]. *)
Definition filled (P : Q -> Prop) (n m : nat) (y : vec) : Prop :=
  length y = n /\ Forall P (firstn m y).

Definition above (lower v : Q) : Prop := lower < v.

Definition at_least (lower v : Q) : Prop := lower <= v.

(** [v] is an accepted proposal of the [lower > 0] branch: it was made
    from one uniform variate and passed the test [log(u) < log_rho_z]
    against another, both drawn at positions from [u0] up to, and not
    including, [u1]. *)
Definition accepted_proposal {libm : Libm} {rs : RandomSource}
    {rnd : Rounding} (lower : Q) (u0 u1 : nat) (v : Q) : Prop :=
  exists i j : nat,
    (u0 <= i < u1)%nat /\ (u0 <= j < u1)%nat /\
    v = proposal lower (tilt lower) (randu_src i) /\
    Qltb (log (randu_src j)) (log_rho (tilt lower) v) = true.

Definition tilted_ok {libm : Libm} {rs : RandomSource} {rnd : Rounding}
    (lower : Q) (u0 u1 : nat) (v : Q) : Prop :=
  at_least lower v /\ accepted_proposal lower u0 u1 v.

End TruncNorm.

(** ** Prediction from a logistic fit *)

Module Predict.

(** The list the function returns: [class], [mean], [ucl], [lcl],
    [median] and [sd]. *)
Record prediction := mkPrediction {
  r_class : uvec;
  r_mean : vec;
  r_ucl : vec;
  r_lcl : vec;
  r_median : vec;
  r_sd : vec
}.

Section WithServices.
Context {libm : Libm} {la : LinAlg}.

(** [X_test * betacoef] for draws kept by columns: row [i] holds the linear
    predictor of test row [i] under every draw. *)
Definition pred_mu (X_test : mat) (betacoef : draws) : mat :=
  map (fun r => map (fun c => dot r c) betacoef) X_test.

Definition predict_fast_logit (betacoef : draws) (X_test : mat)
    (alpha cutoff : Q) : prediction :=
  let pred_mu := pred_mu X_test betacoef in
  let pred_prob := map (map (fun m => 1 / (1 + exp (- m)))) pred_mu in
  let alpha_1 := (1 - alpha) * half in
  let pvec := [1 - alpha_1; alpha_1] in
  let pred_mean := mean_rows pred_prob in
  let pred_cls := quantile pred_prob pvec in
  let pred_median := median pred_prob in
  let pred_sd := stddev pred_prob in
  let pred_class := repeat 0%nat (n_elem pred_mean) in
  let pred_class :=
    set_elem_ones pred_class (find (map (fun a => Qltb cutoff a) pred_mean)) in
  mkPrediction pred_class pred_mean (col pred_cls 0) (col pred_cls 1)
               pred_median pred_sd.

End WithServices.
End Predict.

(** ** Vocabulary of the specification *)

(** The conditional law of [1 / sigma2_eps] as the specification words
    it: shape [a_sigma + (n + p) / 2], and rate
    [b_sigma + 0.5 * sum(beta^2) / tau2 + 0.5 * RSS], where RSS is the
    residual sum of squares of [y - X * beta] over the [n] observations. *)
Definition residual_sum_of_squares (y : vec) (X : mat) (beta : vec) : Q :=
  let eps := vsub y (mv X beta) in accu (vmul eps eps).

Definition noise_shape_spec (a_sigma : Q) (n p : nat) : Q :=
  a_sigma + Qn (n + p) / 2.

Definition noise_rate_spec (b_sigma : Q) (y : vec) (X : mat) (beta : vec)
    (tau2 : Q) : Q :=
  b_sigma + half * accu (vmul beta beta) / tau2
  + half * residual_sum_of_squares y X beta.

Definition pos (a : Q) : Prop := 0 < a.

(** Positivity of the scale parameters of a state, per family of models.
    The rate auxiliaries [b_lambda] of the local scales are part of it
    where the update of [lambda] divides by them. *)
Definition positive_normal_lm (st : NormalLm.state) : Prop :=
  pos (NormalLm.sigma2_eps st) /\ pos (NormalLm.tau2 st).

Definition positive_normal_logit (st : NormalLogit.state) : Prop :=
  pos (NormalLogit.tau2 st) /\ Forall pos (NormalLogit.omega st).

Definition positive_horseshoe_logit (st : HorseshoeLogit.state) : Prop :=
  pos (HorseshoeLogit.tau2 st) /\
  Forall pos (HorseshoeLogit.lambda st) /\
  Forall pos (HorseshoeLogit.omega st) /\
  Forall pos (HorseshoeLogit.b_lambda st).

Definition positive_horseshoe_lm (st : HorseshoeLm.state) : Prop :=
  pos (HorseshoeLm.sigma2_eps st) /\
  pos (HorseshoeLm.tau2 st) /\
  Forall pos (HorseshoeLm.lambda st) /\
  Forall pos (HorseshoeLm.b_lambda st).

Definition unit_closed (a : Q) : Prop := 0 <= a /\ a <= 1.

Definition nonzero (a : Q) : Prop := ~ a == 0.

(** The assumption on the generators: every gamma variate and every
    Polya-Gamma variate is strictly positive. *)
Definition positive_variates (rs : RandomSource) : Prop :=
  (forall k a b, 0 < randg_src k a b) /\
  (forall k a b, 0 < pgdraw_src k a b).

Inductive entry_point :=
| fast_normal_lm_ep
| fast_normal_logit_ep
| fast_horseshoe_logit_ep
| fast_horseshoe_lm_ep
| fast_horseshoe_ss_lm_ep
| fast_horseshoe_hd_lm_ep.

Inductive regime := ObservationMajor | PredictorMajor.

(** The comparison of [p] and [n] that opens the [if] of every fitting
    function. *)
Definition select_regime (p n : nat) : regime :=
  if (p <? n)%nat then ObservationMajor else PredictorMajor.

(** The update function called in each branch of that [if]. *)
Definition regime_kernel (f : entry_point) (r : regime) : kernel :=
  match f, r with
  | fast_normal_lm_ep, ObservationMajor => one_step_update_big_n_id
  | fast_normal_lm_ep, PredictorMajor => one_step_update_big_p_id
  | fast_normal_logit_ep, ObservationMajor => one_step_logit_normal_big_n_id
  | fast_normal_logit_ep, PredictorMajor => one_step_logit_normal_big_p_id
  | fast_horseshoe_logit_ep, ObservationMajor =>
      one_step_logit_horseshoe_big_n_id
  | fast_horseshoe_logit_ep, PredictorMajor =>
      one_step_logit_horseshoe_big_p_id
  | fast_horseshoe_lm_ep, ObservationMajor => hs_one_step_update_big_n_id
  | fast_horseshoe_lm_ep, PredictorMajor => hs_one_step_update_big_p_id
  | fast_horseshoe_ss_lm_ep, ObservationMajor => hs_one_step_update_big_n_id
  | fast_horseshoe_ss_lm_ep, PredictorMajor =>
      hs_one_step_update_slice_sampler_id
  | fast_horseshoe_hd_lm_ep, ObservationMajor => hs_one_step_update_big_n_id
  | fast_horseshoe_hd_lm_ep, PredictorMajor => hs_one_step_update_id
  end.

(** The number of updates a run with these loop bounds makes. *)
Definition updates (mcmc_sample burnin thinning : Z) : nat :=
  (Z.to_nat burnin + Z.to_nat mcmc_sample * Z.to_nat thinning)%nat.

(** ** Sizes of the expressions that involve [y] *)

(** None of the fitting functions compares the length of [y] with the
    number of rows of [X]: [n] is read from [X] alone.  What stops a run on
    a response of the wrong length is Armadillo itself, which checks the
    sizes of the operands of every product, sum, difference and
    element-wise operation and throws [std::logic_error] when they do not
    conform.  This module follows the sizes through the expressions of the
    file in which [y] takes part, in program order: before the loops, and
    inside an update. *)
Module Conformance.

(** Rows and columns. *)
Definition size := (nat * nat)%type.

Definition size_eqb (a b : size) : bool :=
  (fst a =? fst b)%nat && (snd a =? snd b)%nat.

(** [A * B] *)
Definition times (a b : size) : option size :=
  if (snd a =? fst b)%nat then Some (fst a, snd b) else None.

(** [A + B], [A - B], [A % B], [A / B] *)
Definition ewise (a b : size) : option size :=
  if size_eqb a b then Some a else None.

(** [A.t()] *)
Definition tr (a : size) : size := (snd a, fst a).

(** [svd_econ(U, d, V, X)]: [U] is [n] by [min(n, p)], [d] has [min(n, p)]
    entries. *)
Definition size_U (n p : nat) : size := (n, Nat.min n p).
Definition size_d (n p : nat) : size := (Nat.min n p, 1%nat).

(** The expressions with [y] that precede the loops of each function; the
    result is the size of the last of them. *)
Definition before_loops (f : entry_point) (ylen n p : nat) : option size :=
  let y := (ylen, 1%nat) in
  match f with
  | fast_normal_lm_ep =>
      (* ys = U.t()*y *)
      times (tr (size_U n p)) y
  | fast_normal_logit_ep | fast_horseshoe_logit_ep =>
      (* y_s = y - ones(n)*0.5; then X.t()*y_s when p < n *)
      and_then (ewise y (n, 1%nat)) (fun y_s =>
        if (p <? n)%nat then times (tr (n, p)) y_s else Some y_s)
  | fast_horseshoe_lm_ep =>
      (* ys = U.t()*y; dys = d%ys *)
      and_then (times (tr (size_U n p)) y) (fun ys => ewise (size_d n p) ys)
  | fast_horseshoe_ss_lm_ep | fast_horseshoe_hd_lm_ep =>
      (* dys = d%(U.t()*y), inside the branch p < n only *)
      if (p <? n)%nat then
        and_then (times (tr (size_U n p)) y) (fun ys =>
          ewise (size_d n p) ys)
      else Some y
  end.

(** The expressions with [y] inside each update function. *)
Definition in_update (k : kernel) (ylen n p : nat) : option size :=
  let y := (ylen, 1%nat) in
  let X := (n, p) in
  match k with
  | one_step_update_big_n_id =>
      (* works on ys; y is not used *)
      Some y
  | one_step_update_big_p_id
  | hs_one_step_update_big_p_id
  | hs_one_step_update_big_n_id =>
      (* mu = X*betacoef; eps = y - mu *)
      and_then (times X (p, 1%nat)) (fun mu => ewise y mu)
  | one_step_logit_normal_big_n_id
  | one_step_logit_normal_big_p_id
  | one_step_logit_horseshoe_big_n_id
  | one_step_logit_horseshoe_big_p_id =>
      (* work on y_s and Xty_s; y is not used *)
      Some y
  | hs_one_step_update_id
  | hs_one_step_update_slice_sampler_id =>
      (* y - X*alpha_1 - alpha_2 *)
      and_then (times X (p, 1%nat)) (fun Xa =>
      and_then (ewise y Xa) (fun e => ewise e (n, 1%nat)))
  end.

(** How far a run gets: stopped by a size check before the loops, stopped
    by one inside the [k]-th update, or through its loops after [k]
    updates. *)
Inductive outcome :=
| RaisedBeforeLoops
| RaisedInUpdate (k : nat)
| LoopsDone (k : nat).

Definition run (f : entry_point) (ylen n p : nat)
    (mcmc_sample burnin thinning : Z) : outcome :=
  match before_loops f ylen n p with
  | None => RaisedBeforeLoops
  | Some _ =>
      match updates mcmc_sample burnin thinning with
      | O => LoopsDone 0
      | S k =>
          match in_update (regime_kernel f (select_regime p n)) ylen n p with
          | None => RaisedInUpdate 1
          | Some _ => LoopsDone (S k)
          end
      end
  end.

(** The claim that a response of the wrong length stops every function
    before its loops. *)
Definition fails_fast (f : entry_point) : Prop :=
  forall ylen n p mcmc_sample burnin thinning,
    ylen <> n ->
    run f ylen n p mcmc_sample burnin thinning = RaisedBeforeLoops.

(** The functions whose predictor-major branch has no expression with [y]
    before the loops. *)
Definition late_on_big_p (f : entry_point) : bool :=
  match f with
  | fast_horseshoe_ss_lm_ep | fast_horseshoe_hd_lm_ep => true
  | _ => false
  end.

End Conformance.

(** ** Instances for evaluation *)

(** Rational stand-ins for the services, with which the definitions above
    evaluate on concrete inputs. *)
Module Examples.

(** Rational bounds of the functions of [<cmath>]: [exp x] from below by
    [1 + x] (and [1 / (1 - x)] for negative [x]), [log u] from above by
    [u - 1], [sqrt x] from above by [(1 + x) / 2]. *)
Definition rational_libm : Libm := {|
  exp := fun x => if Qltb x 0 then 1 / (1 - x) else 1 + x;
  log := fun u => u - 1;
  expm1 := fun x => if Qltb x 0 then 1 / (1 - x) - 1 else x;
  log1p := fun x => x;
  sqrt := fun x => if Qltb 0 x then (1 + x) / 2 else 0
|}.

(** A source that cycles through a few values: normal variates -1, 0, 1,
    uniform variates 1/4, 1/2, 3/4, and gamma and Polya-Gamma variates 1/2,
    1, 2 whatever the parameters. *)
Definition cycle3 (a b c : Q) (k : nat) : Q :=
  match (k mod 3)%nat with
  | O => a
  | S O => b
  | _ => c
  end.

Definition cycling_source : RandomSource := {|
  randn_src := cycle3 (-1) 0 1;
  randu_src := cycle3 (1 # 4) (1 # 2) (3 # 4);
  randg_src := fun k _ _ => cycle3 (1 # 2) 1 2 k;
  pgdraw_src := fun k _ _ => cycle3 (1 # 2) 1 2 k
|}.

(** Linear algebra for the one-column design matrix [(1, 0, 0)]: its
    economy decomposition is [U = (1, 0, 0)], [d = (1)], [V = (1)]; a
    1 x 1 system is solved by a division and factored as itself. *)
Definition column_linalg : LinAlg := {|
  svd_econ := fun X => (X, [1], [[1]]);
  chol := fun M => M;
  solve := fun M b => vdiv b (map (fun r => nth 0 r 0) M);
  quantile := fun M pvec => map (fun r => map (fun _ => nth 0 r 0) pvec) M;
  median := fun M => map (fun r => nth 0 r 0) M;
  stddev := fun M => map (fun _ => 0) M
|}.

(** A distribution function and a quantile function that are positive on
    positive arguments. *)
Definition rational_rstats : RStats := {|
  pgamma := fun x _ _ => x / (1 + x);
  qgamma := fun q _ _ => q
|}.

(** A positive state of the horseshoe linear model with one coefficient. *)
Definition hs_state1 : HorseshoeLm.state :=
  HorseshoeLm.mkState [1] [1] 1 1 1 [1] [1].

(** The double [0x1.62e42fefa39eep-1], which is [0.69314718055994517...]:
    it lies above the constant [LOG2] of the code and below ln 2, which is
    [0.69314718055994530...]. *)
Definition below_ln2 : Q := 6243314768165358 # 9007199254740992.

(** A math library by polynomials, with [expm1] cut one term later than
    [exp]: with it the two forms of [log (1 - exp (- x))] between which
    [log1mexpm] chooses differ in value, as they do in the last digits
    with a C library. *)
Definition polynomial_libm : Libm := {|
  exp := fun x => 1 + x + x * x / 2;
  log := fun u => u - 1;
  expm1 := fun x => x + x * x / 2 + x * x * x / 6;
  log1p := fun x => x;
  sqrt := fun x => if Qltb 0 x then (1 + x) / 2 else 0
|}.

(** Arithmetic without rounding error. *)
Definition exact_rounding : Rounding := {| fl := fun x => x |}.

(** Rounding to binary64, to nearest with ties to even, for magnitudes in
    the normal range: [binade x] is the exponent [e] with
    [2^52 <= |x| / 2^e < 2^53], and the quotient is rounded to an
    integer. *)
Definition round_half_even (x : Q) : Z :=
  let f := Qfloor x in
  match Qcompare (x - inject_Z f) half with
  | Lt => f
  | Gt => (f + 1)%Z
  | Eq => if Z.even f then f else (f + 1)%Z
  end.

Definition binade (x : Q) : Z :=
  let a := if Qltb x 0 then - x else x in
  let e := (Z.log2 (Qnum a) - Z.log2 (Zpos (Qden a)) - 52)%Z in
  if Qltb (a / 2 ^ e) (2 ^ 52) then (e - 1)%Z else e.

Definition round_binary64 (x : Q) : Q :=
  if Qeq_bool x 0 then 0
  else let e := binade x in
       Qred (inject_Z (round_half_even (x / 2 ^ e)) * 2 ^ e).

Definition binary64_rounding : Rounding := {| fl := round_binary64 |}.

(** The logarithm by the series [2 * atanh ((u - 1) / (u + 1))] cut after
    [k] terms, and the square root from the integer square root of
    [x * 2^120]. *)
Fixpoint atanh_series (k : nat) (t : Q) : Q :=
  match k with
  | O => 0
  | S k' =>
      atanh_series k' t
      + t ^ Z.of_nat (2 * k' + 1) / inject_Z (Z.of_nat (2 * k' + 1))
  end.

Definition log_series (u : Q) : Q :=
  2 * atanh_series 40 (Qred ((u - 1) / (u + 1))).

Definition sqrt_series (x : Q) : Q :=
  inject_Z (Z.sqrt (Qfloor (x * 2 ^ 120))) / 2 ^ 60.

(** A math library in binary64: [log] and [sqrt] are the series above
    rounded, which on the arguments used below are the values of the C
    library ([log(0.5) = -0x1.62e42fefa39efp-1],
    [sqrt(1e16 + 4) = 1e8 + 2^-26]); the other functions are the bounds
    of [rational_libm] rounded. *)
Definition binary64_libm : Libm := {|
  exp := fun x => round_binary64 (@exp rational_libm x);
  log := fun u => round_binary64 (log_series u);
  expm1 := fun x => round_binary64 (@expm1 rational_libm x);
  log1p := fun x => round_binary64 (@log1p rational_libm x);
  sqrt := fun x => round_binary64 (sqrt_series x)
|}.

End Examples.

(** ** Normal variates consumed by a call *)

Module TruncNormDraws.
Section WithSource.
Context {rs : RandomSource}.

(** The normal variates drawn from position [n0] up to the cursor of [w],
    and those of them that exceed [lower], in the order drawn. *)
Definition drawn (n0 : nat) (w : world) : vec :=
  map randn_src (seq n0 (n_pos w - n0)).

Definition accepted (lower : Q) (n0 : nat) (w : world) : vec :=
  filter (fun a => Qltb lower a) (drawn n0 w).

End WithSource.
End TruncNormDraws.

(** ** Prediction from a linear fit *)

Module PredictLm.

(** The list the function returns: [mean], [ucl], [lcl], [median] and
    [sd]. *)
Record prediction := mkPrediction {
  p_mean : vec;
  p_ucl : vec;
  p_lcl : vec;
  p_median : vec;
  p_sd : vec
}.

Section WithServices.
Context {la : LinAlg}.

Definition predict_fast_lm (betacoef : draws) (X_test : mat) (alpha : Q)
  : prediction :=
  let pred_mu := Predict.pred_mu X_test betacoef in
  let alpha_1 := (1 - alpha) * half in
  let pvec := [1 - alpha_1; alpha_1] in
  let pred_mean := mean_rows pred_mu in
  let pred_cls := quantile pred_mu pvec in
  let pred_median := median pred_mu in
  let pred_sd := stddev pred_mu in
  mkPrediction pred_mean (col pred_cls 0) (col pred_cls 1)
               pred_median pred_sd.

End WithServices.
End PredictLm.

(** ** Simulated data *)

(** [arma::var] of a vector, an interface like the other statistics of
    Armadillo. *)
Class Stats := {
  var : vec -> Q
}.

Module Simulate.

(** The list [sim_linear_reg] returns. *)
Record linear_data := mkLinear {
  ld_y : vec;
  ld_X : mat;
  ld_betacoef : vec;
  ld_R2 : Q;
  ld_sigma2 : Q;
  ld_X_cor : Q
}.

(** The list [sim_logit_reg] returns. *)
Record logit_data := mkLogit {
  gd_y : uvec;
  gd_X : mat;
  gd_betacoef : vec;
  gd_R2 : Q;
  gd_prob : vec;
  gd_X_cor : Q;
  gd_X_var : Q
}.

(** [arma::repmat(v, k, 1)]: [k] copies of a column vector, one below the
    other. *)
Definition repmat (v : vec) (k : nat) : vec := concat (repeat v k).

(** [for (i = 0; i < x.n_cols; i++) x.col(i) += z]: entry [k] of [z] is
    added to every entry of row [k]. *)
Definition add_to_cols (x : mat) (z : vec) : mat :=
  map (fun k => map (fun a => a + nth k z 0) (nth k x [])) (seq 0 (n_rows x)).

(** [x.cols(a, b)] for a matrix of [p] columns, with the bounds converted
    to unsigned integers as the call does: Armadillo throws
    [std::logic_error] unless [a <= b < p], which a negative bound, read as
    a huge unsigned one, never meets. *)
Definition cols (p : nat) (x : mat) (a b : Z) : option mat :=
  if ((0 <=? a) && (a <=? b) && (b <? Z.of_nat p))%Z
  then Some (map (fun r => firstn (Z.to_nat (b - a + 1))
                                  (skipn (Z.to_nat a) r)) x)
  else None.

Section WithServices.
Context {libm : Libm} {rs : RandomSource} {stats : Stats}.

(** [arma::randn<arma::mat>(n, p)]: the variates fill the matrix in the
    order of its storage, column after column. *)
Definition randn_mat (n p : nat) : M mat := fun w =>
  (map (fun i => map (fun j => randn_src (n_pos w + j * n + i)) (seq 0 p))
       (seq 0 n),
   mkWorld (n_pos w + n * p) (u_pos w) (g_pos w) (pg_pos w) (g_log w)
           (trace w)).

(** [q / 2] on [int] truncates towards zero.  A negative [qh] makes
    [repmat] fail; such a [q] does not pass [x.cols(0, q - 1)] either. *)
Definition sim_linear_reg (n p : nat) (q : Z) (R2 X_cor beta_size : Q)
  : M (option linear_data) :=
  x0 <- randn_mat n p ;;
  let x := mscale (sqrt (1 - X_cor)) x0 in
  z0 <- randn n ;;
  let z := vscale (sqrt X_cor) z0 in
  let qh := (Z.quot q 2) in
  let beta_nonzero := repmat [beta_size; - beta_size] (Z.to_nat qh) in
  let beta_nonzero :=
    if (2 * qh <? q)%Z then beta_nonzero ++ [beta_size] else beta_nonzero in
  let x := add_to_cols x z in
  match cols p x 0 (q - 1) with
  | None => ret None
  | Some xq =>
      let y := mv xq beta_nonzero in
      let var_y := var y in
      let sigma2 := var_y * (1 - R2) / R2 in
      e <- randn n ;;
      let y := vadd y (map (fun a => a * sqrt sigma2) e) in
      ret (Some (mkLinear y x
                          (beta_nonzero ++ zeros (p - Z.to_nat q))
                          R2 sigma2 X_cor))
  end.

Definition sim_logit_reg (n p : nat) (q : Z) (X_cor X_var beta_size : Q)
  : M (option logit_data) :=
  x0 <- randn_mat n p ;;
  let x := mscale (sqrt (1 - X_cor)) x0 in
  z0 <- randn n ;;
  let z := vscale (sqrt X_cor) z0 in
  let qh := (Z.quot q 2) in
  let beta_nonzero := repmat [beta_size; - beta_size] (Z.to_nat qh) in
  let beta_nonzero :=
    if (2 * qh <? q)%Z then beta_nonzero ++ [beta_size] else beta_nonzero in
  let x := add_to_cols x z in
  let x := map (map (fun a => a * sqrt X_var)) x in
  match cols p x 0 (q - 1) with
  | None => ret None
  | Some xq =>
      let mu := mv xq beta_nonzero in
      let prob := map (fun m => 1 / (1 + exp (- m))) mu in
      let y := repeat 0%nat n in
      u <- randu n ;;
      let idx1 := find (cmp2 Qltb u prob) in
      let y := set_elem_ones y idx1 in
      let var_y := var (map Qn y) in
      let R2 := 0 in
      let R2 := if Qltb 0 var_y then var prob / var_y else R2 in
      ret (Some (mkLogit y x
                         (beta_nonzero ++ zeros (p - Z.to_nat q))
                         R2 prob X_cor X_var))
  end.

End WithServices.
End Simulate.

(** ** More instances for evaluation *)

Module MoreExamples.

(** The sample variance, with the divisor [N - 1] that is the default of
    [arma::var]. *)
Definition sample_var (v : vec) : Q :=
  match v with
  | [] | [_] => 0
  | _ =>
      let m := accu v / Qn (length v) in
      accu (map (fun a => (a - m) * (a - m)) v) / Qn (length v - 1)
  end.

Definition exact_stats : Stats := {| var := sample_var |}.

End MoreExamples.

(** ** The request for the noise precision *)

(** Where the request for the gamma variate of [1 / sigma2_eps] stands in
    the record of an update, most recent first: it is the last request of
    every update function but [hs_one_step_update], which asks for
    [inv_tau2] and [b_tau] after it. *)
Definition noise_request (k : kernel) (w : world) : Q * Q :=
  match k with
  | hs_one_step_update_id => nth 2 (g_log w) (0, 0)
  | _ => nth 0 (g_log w) (0, 0)
  end.

(** ** The update a run repeats *)

(** For each fitting function: the update function its loops call, with
    the arguments the function passes to it, and the state it has set up
    when the loops begin. *)
Module Runs.
Section WithServices.
Context {libm : Libm} {rs : RandomSource} {la : LinAlg} {rstats : RStats}.

Definition fast_normal_logit_step (y : vec) (X : mat) (A_tau : Q)
  : NormalLogit.state -> M NormalLogit.state :=
  let p := n_cols X in
  let n := n_rows X in
  let A2_tau := A_tau * A_tau in
  let y_s := vsub y (vscale half (ones n)) in
  if (p <? n)%nat
  then NormalLogit.one_step_logit_normal_big_n
         y_s (mv (trans X) y_s) X A2_tau p n
  else NormalLogit.one_step_logit_normal_big_p
         y_s (mm X (trans X)) X A2_tau p n.

(** [omega] is the Polya-Gamma vector drawn before the loops. *)
Definition fast_normal_logit_init (X : mat) (A_tau : Q) (omega : vec)
  : NormalLogit.state :=
  let p := n_cols X in
  let n := n_rows X in
  let A2_tau := A_tau * A_tau in
  let b_tau := A2_tau in
  let tau2 := b_tau in
  NormalLogit.mkState (zeros p) tau2 b_tau omega (zeros n).

Definition fast_horseshoe_logit_step (y : vec) (X : mat) (A_tau A_lambda : Q)
  : HorseshoeLogit.state -> M HorseshoeLogit.state :=
  let p := n_cols X in
  let n := n_rows X in
  let A2_tau := A_tau * A_tau in
  let A2_lambda := A_lambda * A_lambda in
  let y_s := vsub y (vscale half (ones n)) in
  if (p <? n)%nat
  then HorseshoeLogit.one_step_logit_horseshoe_big_n
         y_s (mv (trans X) y_s) X A2_tau A2_lambda p n
  else HorseshoeLogit.one_step_logit_horseshoe_big_p
         y_s X A2_tau A2_lambda p n.

(** In the branch [p >= n] the function sets [tau2 = 1 / p] before its
    loops. *)
Definition fast_horseshoe_logit_init (X : mat) (A_tau : Q) (omega : vec)
  : HorseshoeLogit.state :=
  let p := n_cols X in
  let n := n_rows X in
  let A2_tau := A_tau * A_tau in
  let b_tau := A2_tau in
  let tau2 := b_tau in
  let tau2 := if (p <? n)%nat then tau2 else 1 / Qn p in
  HorseshoeLogit.mkState (zeros p) tau2 b_tau omega (ones p) (ones p)
                         (zeros n).

Definition fast_horseshoe_ss_lm_step (y : vec) (X : mat)
    (a_sigma b_sigma A_tau A_lambda : Q)
  : HorseshoeLm.state -> M HorseshoeLm.state :=
  let p := n_cols X in
  let n := n_rows X in
  let A2 := A_tau * A_tau in
  let A2_lambda := A_lambda * A_lambda in
  if (p <? n)%nat then
    let '(U, d, V) := svd_econ X in
    let d2 := vmul d d in
    let dys := vmul d (mv (trans U) y) in
    HorseshoeLm.hs_one_step_update_big_n dys V d2 y X A2 A2_lambda
                                         a_sigma b_sigma p n
  else
    HorseshoeLm.hs_one_step_update_slice_sampler y X A2 A2_lambda
                                                 a_sigma b_sigma p n.

Definition fast_horseshoe_hd_lm_step (y : vec) (X : mat)
    (a_sigma b_sigma A_tau A_lambda : Q)
  : HorseshoeLm.state -> M HorseshoeLm.state :=
  let p := n_cols X in
  let n := n_rows X in
  let A2 := A_tau * A_tau in
  let A2_lambda := A_lambda * A_lambda in
  if (p <? n)%nat then
    let '(U, d, V) := svd_econ X in
    let d2 := vmul d d in
    let dys := vmul d (mv (trans U) y) in
    HorseshoeLm.hs_one_step_update_big_n dys V d2 y X A2 A2_lambda
                                         a_sigma b_sigma p n
  else
    HorseshoeLm.hs_one_step_update y X A2 A2_lambda a_sigma b_sigma p n.

End WithServices.
End Runs.

(** ** Scalar-on-image regression: the update function *)

Module ScalarImg.

(** The variables the update function takes by reference. *)
Record state := mkState {
  theta : vec;
  delta : uvec;
  lambda : vec;
  sigma2_eps : Q;
  tau2 : Q;
  b_tau : Q;
  b_lambda : vec;
  betacoef : vec;
  Z : mat;
  eps : vec
}.

Section WithServices.
Context {libm : Libm} {rs : RandomSource} {la : LinAlg}.

(** The probability with which predictor [j] is switched on, from the two
    log-probabilities: the branch taken keeps the argument of [exp]
    negative or zero. *)
Definition inclusion_prob (log_prob_1 log_prob_0 : Q) : Q :=
  let prob := 0 in
  if Qltb log_prob_0 log_prob_1 then
    1 / (1 + exp (log_prob_0 - log_prob_1))
  else
    let prob := exp (log_prob_1 - log_prob_0) in
    prob / (1 + prob).

(** The body of the loop over the predictors. *)
Definition update_delta (X : mat) (betacoef : vec) (sigma2_eps : Q)
    (j : nat) (de : uvec * vec) : M (uvec * vec) :=
  let delta := fst de in
  let eps := snd de in
  let xphi_j := map (fun a => a * nth j betacoef 0) (col X j) in
  let eps_j := eps in
  let eps_j := if (nth j delta 0 =? 1)%nat then vsub eps_j xphi_j
               else eps_j in
  let eps_j_1 := vsub eps_j xphi_j in
  let log_prob_1 := - half * accu (vmul eps_j_1 eps_j_1) / sigma2_eps in
  let log_prob_0 := - half * accu (vmul eps_j eps_j) / sigma2_eps in
  let prob := inclusion_prob log_prob_1 log_prob_0 in
  u <- randu1 ;;
  if Qltb u prob
  then ret (set_nth j 1%nat delta, vsub eps_j xphi_j)
  else ret (set_nth j 0%nat delta, eps_j).

(** [X.cols(idx) * Phi.rows(idx)] for [Phi] of [L] columns: entry
    [(i, l)] sums [X(i, j) * Phi(j, l)] over the [j] of [idx]. *)
Definition cols_times_rows (X Phi : mat) (idx : uvec) (L : nat) : mat :=
  map (fun r =>
         map (fun l =>
                accu (map (fun j => nth j r 0 * nth l (nth j Phi []) 0) idx))
             (seq 0 L))
      X.

(** [Z.t()] for [Z] of [L] columns. *)
Definition trans_cols (Z : mat) (L : nat) : mat :=
  map (fun l => map (fun r => nth l r 0) Z) (seq 0 L).

(** [eye(n, n) + tau2 * A.t() * A] for [A] of [L] rows and [n] columns. *)
Definition eye_plus_gram (tau2 : Q) (A : mat) (L n : nat) : mat :=
  map (fun i =>
         map (fun k =>
                (if (i =? k)%nat then 1 else 0)
                + accu (map (fun l => tau2 * nth i (nth l A []) 0
                                      * nth k (nth l A []) 0)
                            (seq 0 L)))
             (seq 0 n))
      (seq 0 n).

Definition scalar_img_one_step_update
    (y : vec) (X Phi : mat) (A2 A2_lambda a_sigma b_sigma : Q)
    (p n L : nat) (st : state) : M state :=
  (* update delta *)
  de <- loop_from p 0 (update_delta X (betacoef st) (sigma2_eps st))
                  (delta st, eps st) ;;
  let delta := fst de in
  (* update Z *)
  let active_idx := find (map (fun a => (a =? 1)%nat) delta) in
  let Z := cols_times_rows X Phi active_idx L in
  (* update theta *)
  let lambda2 := vmul (lambda st) (lambda st) in
  let sigma_eps := sqrt (sigma2_eps st) in
  let tau := sqrt (tau2 st) in
  z1 <- randn p ;;
  let alpha_1 := vmul z1 (lambda st) in
  let alpha_1 := map (fun a => a * (sigma_eps * tau)) alpha_1 in
  z2 <- randn n ;;
  let alpha_2 := map (fun a => a * sigma_eps) z2 in
  let LambdaZt := trans_cols Z L in
  let LambdaZt := scale_rows LambdaZt (lambda st) in
  let ZZt := eye_plus_gram (tau2 st) LambdaZt L n in
  let theta_s := solve ZZt (vsub (vsub y (mv Z alpha_1)) alpha_2) in
  let theta :=
    vadd alpha_1 (vmul (vscale (tau2 st) lambda2)
                       (mv (trans_cols Z L) theta_s)) in
  (* update betacoef *)
  let betacoef := mv Phi theta in
  (* update eps *)
  let eps := vsub y (mv Z theta) in
  (* update lambda *)
  let theta2 := vmul theta theta in
  g1 <- randg_vec p 1 1 ;;
  let inv_lambda2 :=
    vdiv g1 (vadd (b_lambda st)
                  (map (fun t2 => half * t2 / tau2 st / sigma2_eps st)
                       theta2)) in
  g2 <- randg_vec p 1 1 ;;
  let b_lambda := vdiv g2 (map (fun il => 1 / A2_lambda + il) inv_lambda2) in
  let lambda := map sqrt (vinv inv_lambda2) in
  (* update tau2, sigma2_eps, b_tau and b_lambda *)
  let sum_eps2 := accu (vmul eps eps) in
  let sum_theta2_inv_lambda2 := accu (vmul theta2 inv_lambda2) in
  inv_tau2 <- randg ((1 + Qn L) / 2)
                (1 / (b_tau st
                      + half * sum_theta2_inv_lambda2 / sigma2_eps st)) ;;
  b_tau <- randg 1 (1 / (1 / A2 + inv_tau2)) ;;
  let tau2 := 1 / inv_tau2 in
  inv_sigma2_eps <-
    randg (a_sigma + Qn ((L + n) / 2))
          (1 / (b_sigma + half * sum_theta2_inv_lambda2 * inv_tau2
                + half * sum_eps2)) ;;
  let sigma2_eps := 1 / inv_sigma2_eps in
  ret (mkState theta delta lambda sigma2_eps tau2 b_tau b_lambda betacoef
               Z eps).

End WithServices.

(** Positivity of the scale parameters of a state. *)
Definition positive (st : state) : Prop :=
  pos (sigma2_eps st) /\ pos (tau2 st) /\
  Forall pos (lambda st) /\ Forall pos (b_lambda st).

Definition binary (a : nat) : Prop := a = 0%nat \/ a = 1%nat.

End ScalarImg.
(** * Theorems *)

(** ** Facts about the Armadillo operations *)

(** Comparisons between rational constants, by evaluation. *)
Ltac qcmp :=
  vm_compute; first [reflexivity | discriminate | intro; discriminate].

Module ArmaFacts.

Lemma set_nth_length {A : Type} (i : nat) (a : A) (y : list A) :
  length (set_nth i a y) = length y.
Proof.
  revert i; induction y as [|b r IH]; intros [|j]; simpl; auto.
Qed.

Lemma nth_set_nth_same {A : Type} (i : nat) (a : A) (y : list A) (d : A) :
  (i < length y)%nat -> nth i (set_nth i a y) d = a.
Proof.
  revert i; induction y as [|b r IH]; intros [|j] H; simpl in *; try lia; auto.
  apply IH; lia.
Qed.

Lemma nth_set_nth_other {A : Type} (i j : nat) (a : A) (y : list A) (d : A) :
  i <> j -> nth i (set_nth j a y) d = nth i y d.
Proof.
  revert i j; induction y as [|b r IH]; intros [|i] [|j] H; simpl; auto; try lia.
Qed.

Lemma set_elem_length (idx : uvec) (v y : vec) :
  length (set_elem y idx v) = length y.
Proof.
  revert v y; induction idx as [|i idx IH]; intros [|a v] y; simpl; auto.
  rewrite IH; apply set_nth_length.
Qed.

(** Assigning [g i] at every index [i] of [idx]: the entries named by [idx]
    hold [g], the others are untouched. *)
Lemma nth_set_elem_map (g : nat -> Q) (idx : uvec) (y : vec) (i : nat) :
  (forall j, In j idx -> (j < length y)%nat) ->
  nth i (set_elem y idx (map g idx)) 0 =
  if in_dec Nat.eq_dec i idx then g i else nth i y 0.
Proof.
  revert y; induction idx as [|k idx IH]; intros y Hb; simpl.
  - reflexivity.
  - rewrite IH.
    + destruct (in_dec Nat.eq_dec i idx) as [Hin|Hnin].
      * destruct (Nat.eq_dec k i); reflexivity.
      * destruct (Nat.eq_dec k i) as [->|Hne].
        -- apply nth_set_nth_same; apply Hb; now left.
        -- apply nth_set_nth_other; congruence.
    + intros j Hj; rewrite set_nth_length; apply Hb; now right.
Qed.

Lemma find_from_spec (mask : list bool) (k i : nat) :
  In i (find_from mask k) <->
  (k <= i)%nat /\ (i < k + length mask)%nat /\ nth (i - k) mask false = true.
Proof.
  revert k; induction mask as [|a r IH]; intros k; simpl.
  - split; [tauto | lia].
  - destruct a; simpl; rewrite ?IH.
    + split.
      * intros [<-|(H1 & H2 & H3)].
        -- rewrite Nat.sub_diag; repeat split; auto; lia.
        -- replace (i - k)%nat with (S (i - S k)) by lia; repeat split; auto; lia.
      * intros (H1 & H2 & H3).
        destruct (Nat.eq_dec k i) as [->|Hne]; [now left | right].
        replace (i - k)%nat with (S (i - S k)) in H3 by lia.
        repeat split; auto; lia.
    + split.
      * intros (H1 & H2 & H3).
        replace (i - k)%nat with (S (i - S k)) by lia; repeat split; auto; lia.
      * intros (H1 & H2 & H3).
        destruct (Nat.eq_dec k i) as [->|Hne].
        -- rewrite Nat.sub_diag in H3; congruence.
        -- replace (i - k)%nat with (S (i - S k)) in H3 by lia.
           repeat split; auto; lia.
Qed.

Lemma find_spec (mask : list bool) (i : nat) :
  In i (find mask) <-> (i < length mask)%nat /\ nth i mask false = true.
Proof.
  unfold find; rewrite find_from_spec, Nat.sub_0_r; simpl; intuition lia.
Qed.

Lemma find_map_spec (c : Q -> bool) (x : vec) (i : nat) :
  In i (find (map c x)) <-> (i < length x)%nat /\ c (nth i x 0) = true.
Proof.
  rewrite find_spec, length_map; split; intros [H1 H2]; split; auto.
  - rewrite (nth_indep _ false (c 0)) in H2 by now rewrite length_map.
    now rewrite map_nth in H2.
  - rewrite (nth_indep _ false (c 0)) by now rewrite length_map.
    now rewrite map_nth.
Qed.

Lemma elem_map (f : Q -> Q) (x : vec) (idx : uvec) :
  map f (elem x idx) = map (fun i => f (nth i x 0)) idx.
Proof. unfold elem; now rewrite map_map. Qed.

Lemma vadd_elem_map (f : Q -> Q) (x : vec) (idx : uvec) :
  vadd (elem x idx) (map f (elem x idx)) =
  map (fun i => nth i x 0 + f (nth i x 0)) idx.
Proof.
  unfold elem, vadd; induction idx as [|i idx IH]; simpl; [reflexivity|].
  now rewrite IH.
Qed.

(** The masked assignment [y.elem(find(c)) = f(x.elem(find(c)))]. *)
Lemma nth_masked_assign (c : Q -> bool) (g : nat -> Q) (x y : vec) (i : nat) :
  length y = length x ->
  (i < length x)%nat ->
  nth i (set_elem y (find (map c x)) (map g (find (map c x)))) 0 =
  if c (nth i x 0) then g i else nth i y 0.
Proof.
  intros Hlen Hi; rewrite nth_set_elem_map.
  - destruct (in_dec Nat.eq_dec i (find (map c x))) as [Hin|Hnin].
    + apply find_map_spec in Hin; destruct Hin as [_ ->]; reflexivity.
    + destruct (c (nth i x 0)) eqn:Hc; [|reflexivity].
      exfalso; apply Hnin, find_map_spec; auto.
  - intros j Hj; apply find_map_spec in Hj; lia.
Qed.

Lemma set_elem_ones_length (idx y : uvec) :
  length (set_elem_ones y idx) = length y.
Proof.
  revert y; induction idx as [|i idx IH]; intros y; simpl; auto.
  rewrite IH; apply set_nth_length.
Qed.

Lemma nth_set_elem_ones (idx y : uvec) (i : nat) :
  (forall j, In j idx -> (j < length y)%nat) ->
  nth i (set_elem_ones y idx) 0%nat =
  if in_dec Nat.eq_dec i idx then 1%nat else nth i y 0%nat.
Proof.
  revert y; induction idx as [|k idx IH]; intros y Hb; simpl.
  - reflexivity.
  - rewrite IH.
    + destruct (in_dec Nat.eq_dec i idx) as [Hin|Hnin].
      * destruct (Nat.eq_dec k i); reflexivity.
      * destruct (Nat.eq_dec k i) as [->|Hne].
        -- apply nth_set_nth_same; apply Hb; now left.
        -- apply nth_set_nth_other; congruence.
    + intros j Hj; rewrite set_nth_length; apply Hb; now right.
Qed.

Lemma nth_repeat_0 (k i : nat) : nth i (repeat 0%nat k) 0%nat = 0%nat.
Proof.
  revert i; induction k as [|k IH]; intros [|i]; simpl; auto.
Qed.

Lemma Qleb_true (a b : Q) : Qleb a b = true <-> a <= b.
Proof. apply Qle_bool_iff. Qed.

Lemma Qltb_true (a b : Q) : Qltb a b = true <-> a < b.
Proof.
  unfold Qltb; rewrite negb_true_iff; split; intros H.
  - apply Qnot_le_lt; intros Hle; apply Qle_bool_iff in Hle; congruence.
  - destruct (Qle_bool b a) eqn:E; [|reflexivity].
    apply Qle_bool_iff in E; exfalso; revert E; apply Qlt_not_le; exact H.
Qed.

Lemma Qleb_false (a b : Q) : Qleb a b = false <-> b < a.
Proof.
  rewrite <- Qltb_true; unfold Qltb, Qleb.
  destruct (Qle_bool a b); simpl; intuition congruence.
Qed.

Lemma Qltb_false (a b : Q) : Qltb a b = false <-> b <= a.
Proof.
  rewrite <- Qleb_true; unfold Qltb, Qleb.
  destruct (Qle_bool b a); simpl; intuition congruence.
Qed.

End ArmaFacts.

Import ArmaFacts.

(** ** Facts about the instances for evaluation *)

Module ExamplesFacts.
Import Examples.

Lemma cycle3_cases (P : Q -> Prop) (a b c : Q) (k : nat) :
  P a -> P b -> P c -> P (cycle3 a b c k).
Proof.
  intros Ha Hb Hc; unfold cycle3.
  destruct (k mod 3)%nat as [|[|j]]; assumption.
Qed.

Lemma cycling_unif_open (k : nat) :
  0 < @randu_src cycling_source k /\ @randu_src cycling_source k < 1.
Proof. simpl; apply cycle3_cases; split; reflexivity. Qed.

Lemma cycling_gamma_pos (k : nat) (a b : Q) :
  0 < @randg_src cycling_source k a b.
Proof. simpl; apply cycle3_cases; reflexivity. Qed.

Lemma cycling_pg_pos (k : nat) (a b : Q) :
  0 < @pgdraw_src cycling_source k a b.
Proof. simpl; apply cycle3_cases; reflexivity. Qed.

Lemma rational_log_neg (u : Q) :
  0 < u -> u < 1 -> @log rational_libm u < 0.
Proof. cbv [log rational_libm]; intros; lra. Qed.

Lemma rational_sqrt_pos (x : Q) : 0 < x -> 0 < @sqrt rational_libm x.
Proof.
  cbv [sqrt rational_libm]; intros H.
  assert (E : Qltb 0 x = true) by now apply Qltb_true.
  rewrite E; apply Qlt_shift_div_l; lra.
Qed.

Lemma rational_sqrt_nonneg (x : Q) : 0 <= x -> 0 <= @sqrt rational_libm x.
Proof.
  cbv [sqrt rational_libm]; intros H.
  destruct (Qltb 0 x) eqn:E; [apply Qltb_true in E|]; try lra.
  apply Qle_shift_div_l; lra.
Qed.

Lemma cycling_positive_variates : positive_variates cycling_source.
Proof. split; [exact cycling_gamma_pos | exact cycling_pg_pos]. Qed.

(** Exact arithmetic is a rounding that is monotone and leaves every
    number as it is. *)
Lemma exact_mono (a b : Q) :
  a <= b -> @fl Examples.exact_rounding a <= @fl Examples.exact_rounding b.
Proof. intros H; exact H. Qed.

Lemma exact_zero : @fl Examples.exact_rounding 0 == 0.
Proof. reflexivity. Qed.

Lemma exact_idem (x : Q) :
  @fl Examples.exact_rounding (@fl Examples.exact_rounding x)
  == @fl Examples.exact_rounding x.
Proof. reflexivity. Qed.

End ExamplesFacts.

(** ** Facts about the sampling monad and its loops *)

Module SamplerFacts.

Lemma keeps_trace_ret {A : Type} (a : A) : keeps_trace (ret a).
Proof. intros w; reflexivity. Qed.

Lemma keeps_trace_bind {A B : Type} (c : M A) (k : A -> M B) :
  keeps_trace c -> (forall a, keeps_trace (k a)) -> keeps_trace (bind c k).
Proof.
  intros Hc Hk w; unfold bind.
  specialize (Hc w); destruct (c w) as [a w1]; simpl in Hc.
  now rewrite Hk.
Qed.

Section WithSource.
Context {rs : RandomSource}.

Lemma keeps_trace_randn (k : nat) : keeps_trace (randn k).
Proof. intros w; reflexivity. Qed.

Lemma keeps_trace_randu (k : nat) : keeps_trace (randu k).
Proof. intros w; reflexivity. Qed.

Lemma keeps_trace_randu1 : keeps_trace randu1.
Proof. intros w; reflexivity. Qed.

Lemma keeps_trace_randg (a b : Q) : keeps_trace (randg a b).
Proof. intros w; reflexivity. Qed.

Lemma keeps_trace_randg_vec (k : nat) (a b : Q) :
  keeps_trace (randg_vec k a b).
Proof.
  induction k as [|k IH]; simpl.
  - apply keeps_trace_ret.
  - apply keeps_trace_bind; [apply keeps_trace_randg|intros g].
    apply keeps_trace_bind; [exact IH|intros r; apply keeps_trace_ret].
Qed.

Lemma keeps_trace_pgdraw (b : Q) (c : vec) : keeps_trace (pgdraw b c).
Proof. intros w; reflexivity. Qed.

(** An update function that enters under its name and then only draws
    variates enters once. *)
Lemma enters_once_intro {S : Type} (K : kernel) (body : S -> M S) :
  (forall s, keeps_trace (body s)) ->
  enters_once K (fun s => bind (enter K) (fun _ => body s)).
Proof.
  intros Hb s w; unfold bind, enter; simpl; now rewrite Hb.
Qed.

End WithSource.

Lemma loop_from_const {S : Type} (step : S -> M S) (k i j : nat) (s : S)
    (w : world) :
  loop_from k i (fun _ => step) s w = loop_from k j (fun _ => step) s w.
Proof.
  revert i j s w; induction k as [|k IH]; intros i j s w; simpl; auto.
  unfold bind; destruct (step s w) as [s1 w1]; apply IH.
Qed.

Lemma iterate_S {S : Type} (step : S -> M S) (k : nat) (s : S) (w : world) :
  iterate step (Datatypes.S k) s w =
  iterate step k (fst (step s w)) (snd (step s w)).
Proof.
  unfold iterate; simpl; unfold bind.
  destruct (step s w) as [s1 w1]; simpl; apply loop_from_const.
Qed.

Lemma iterate_add {S : Type} (step : S -> M S) (a b : nat) (s : S)
    (w : world) :
  iterate step (a + b) s w =
  iterate step b (fst (iterate step a s w)) (snd (iterate step a s w)).
Proof.
  revert s w; induction a as [|a IH]; intros s w.
  - reflexivity.
  - simpl plus; rewrite !iterate_S; apply IH.
Qed.

Lemma trace_iterate {S : Type} (K : kernel) (step : S -> M S) (k : nat)
    (s : S) (w : world) :
  enters_once K step ->
  trace (snd (iterate step k s w)) = repeat K k ++ trace w.
Proof.
  intros HK; revert s w; induction k as [|k IH]; intros s w.
  - reflexivity.
  - rewrite iterate_S, IH, HK.
    change (K :: trace w) with ([K] ++ trace w).
    rewrite app_assoc; f_equal.
    symmetry; apply repeat_cons.
Qed.

Lemma for_loop_iterate {S : Type} (step : S -> M S) (bound : Z) (s : S)
    (w : world) :
  for_loop bound (fun _ => step) s w = iterate step (Z.to_nat bound) s w.
Proof. reflexivity. Qed.

Lemma sample_loop_S {S B : Type} (step : S -> M S)
    (store : nat -> S -> B -> B) (thinning : Z) (k i : nat) (st : S) (b : B)
    (w : world) :
  loop_from (Datatypes.S k) i (sample_body step store thinning) (st, b) w =
  let r := iterate step (Z.to_nat thinning) st w in
  loop_from k (Datatypes.S i) (sample_body step store thinning)
            (fst r, store i (fst r) b) (snd r).
Proof.
  simpl loop_from; unfold bind, sample_body, bind, ret; simpl.
  rewrite for_loop_iterate.
  now destruct (iterate step (Z.to_nat thinning) st w).
Qed.

(** The sampling loop moves the state and the world as [k * thinning]
    updates do. *)
Lemma sample_loop_state {S B : Type} (step : S -> M S)
    (store : nat -> S -> B -> B) (thinning : Z) (k i : nat) (st : S) (b : B)
    (w : world) :
  let r := loop_from k i (sample_body step store thinning) (st, b) w in
  let r' := iterate step (k * Z.to_nat thinning) st w in
  fst (fst r) = fst r' /\ snd r = snd r'.
Proof.
  revert i st b w; induction k as [|k IH]; intros i st b w.
  - simpl; auto.
  - cbv zeta; simpl Nat.mul; rewrite iterate_add.
    rewrite sample_loop_S; apply IH.
Qed.

(** What the sampling loop leaves in a buffer: entry [j] of the [k]
    entries from [i] on holds the draw made after [(j - i + 1) * thinning]
    updates, the other entries are untouched. *)
Lemma sample_loop_stored {S B X : Type} (step : S -> M S)
    (store : nat -> S -> B -> B) (proj : B -> list X) (val : S -> X)
    (dflt : X) (thinning : Z) :
  (forall i st b, proj (store i st b) = set_nth i (val st) (proj b)) ->
  forall (k i : nat) (st : S) (b : B) (w : world),
    let r := loop_from k i (sample_body step store thinning) (st, b) w in
    let L := proj (snd (fst r)) in
    length L = length (proj b) /\
    forall j, (j < length L)%nat ->
      nth j L dflt =
      if (i <=? j)%nat && (j <? i + k)%nat
      then val (fst (iterate step ((j - i + 1) * Z.to_nat thinning) st w))
      else nth j (proj b) dflt.
Proof.
  intros Hstore; induction k as [|k IH]; intros i st b w; cbv zeta.
  - simpl; split; [reflexivity|intros j Hj].
    destruct (i <=? j)%nat eqn:E1; simpl; [|reflexivity].
    destruct (j <? i + 0)%nat eqn:E2; [|reflexivity].
    apply Nat.leb_le in E1; apply Nat.ltb_lt in E2; lia.
  - rewrite sample_loop_S; cbv zeta.
    set (r1 := iterate step (Z.to_nat thinning) st w).
    destruct (IH (Datatypes.S i) (fst r1) (store i (fst r1) b) (snd r1))
      as [Hlen Hnth].
    rewrite Hstore, set_nth_length in Hlen.
    split; [exact Hlen|intros j Hj].
    rewrite (Hnth j Hj), Hstore.
    rewrite Hlen in Hj.
    destruct (Nat.lt_trichotomy j i) as [Hlt|[Heq|Hgt]].
    + replace (Datatypes.S i <=? j)%nat with false
        by (symmetry; apply Nat.leb_gt; lia).
      replace (i <=? j)%nat with false by (symmetry; apply Nat.leb_gt; lia).
      simpl; apply nth_set_nth_other; lia.
    + subst j.
      replace (Datatypes.S i <=? i)%nat with false
        by (symmetry; apply Nat.leb_gt; lia).
      replace (i <=? i)%nat with true by (symmetry; apply Nat.leb_le; lia).
      replace (i <? i + Datatypes.S k)%nat with true
        by (symmetry; apply Nat.ltb_lt; lia).
      simpl; rewrite nth_set_nth_same by exact Hj.
      replace ((i - i + 1) * Z.to_nat thinning)%nat
        with (Z.to_nat thinning + 0)%nat by lia.
      now rewrite iterate_add.
    + replace (Datatypes.S i <=? j)%nat with true
        by (symmetry; apply Nat.leb_le; lia).
      replace (i <=? j)%nat with true by (symmetry; apply Nat.leb_le; lia).
      simpl.
      destruct (j <? Datatypes.S (i + k))%nat eqn:E.
      * replace (j <? i + Datatypes.S k)%nat with true
          by (symmetry; apply Nat.ltb_lt; apply Nat.ltb_lt in E; lia).
        replace ((j - i + 1) * Z.to_nat thinning)%nat
          with (Z.to_nat thinning
                + (j - Datatypes.S i + 1) * Z.to_nat thinning)%nat by nia.
        now rewrite iterate_add.
      * replace (j <? i + Datatypes.S k)%nat with false
          by (symmetry; apply Nat.ltb_ge; apply Nat.ltb_ge in E; lia).
        apply nth_set_nth_other; lia.
Qed.

(** The whole chain: [burnin + mcmc_sample * thinning] updates. *)
Lemma chain_state {S B : Type} (step : S -> M S)
    (store : nat -> S -> B -> B) (mcmc_sample burnin thinning : Z)
    (st : S) (b : B) (w : world) :
  let r := chain step store mcmc_sample burnin thinning st b w in
  let r' := iterate step (Z.to_nat burnin
                          + Z.to_nat mcmc_sample * Z.to_nat thinning) st w in
  fst (fst r) = fst r' /\ snd r = snd r'.
Proof.
  cbv zeta; unfold chain, bind.
  rewrite for_loop_iterate, iterate_add.
  destruct (iterate step (Z.to_nat burnin) st w) as [s1 w1].
  simpl fst; simpl snd.
  apply (sample_loop_state step store thinning (Z.to_nat mcmc_sample) 0).
Qed.

Lemma chain_stored {S B X : Type} (step : S -> M S)
    (store : nat -> S -> B -> B) (proj : B -> list X) (val : S -> X)
    (dflt : X) (mcmc_sample burnin thinning : Z) (st : S) (b : B)
    (w : world) :
  (forall i st b, proj (store i st b) = set_nth i (val st) (proj b)) ->
  let r := chain step store mcmc_sample burnin thinning st b w in
  let L := proj (snd (fst r)) in
  length L = length (proj b) /\
  forall j, (j < length L)%nat ->
    nth j L dflt =
    if (j <? Z.to_nat mcmc_sample)%nat
    then val (fst (iterate step (Z.to_nat burnin
                                 + (j + 1) * Z.to_nat thinning) st w))
    else nth j (proj b) dflt.
Proof.
  intros Hstore; cbv zeta; unfold chain, bind.
  rewrite for_loop_iterate.
  pose proof (iterate_add step (Z.to_nat burnin)) as Hadd.
  destruct (iterate step (Z.to_nat burnin) st w) as [s1 w1] eqn:E1.
  destruct (sample_loop_stored step store proj val dflt thinning Hstore
              (Z.to_nat mcmc_sample) 0 s1 b w1) as [Hlen Hnth].
  split; [exact Hlen|intros j Hj].
  unfold for_loop; rewrite (Hnth j Hj); simpl.
  destruct (j <? Z.to_nat mcmc_sample)%nat; [|reflexivity].
  rewrite Hadd, E1, Nat.sub_0_r; reflexivity.
Qed.

(** Every entry of a buffer with one slot per retained draw holds the value
    of a state reached by updates. *)
Lemma chain_stored_all {S B X : Type} (step : S -> M S)
    (store : nat -> S -> B -> B) (proj : B -> list X) (val : S -> X)
    (P : X -> Prop) (mcmc_sample burnin thinning : Z) (st : S) (b : B)
    (w : world) :
  (forall i st b, proj (store i st b) = set_nth i (val st) (proj b)) ->
  length (proj b) = Z.to_nat mcmc_sample ->
  (forall k, (1 <= k)%nat -> (1 <= thinning)%Z ->
             P (val (fst (iterate step k st w)))) ->
  (1 <= thinning)%Z ->
  Forall P (proj (snd (fst (chain step store mcmc_sample burnin thinning
                                  st b w)))).
Proof.
  intros Hstore Hlen HP Ht.
  apply Forall_forall; intros x Hx.
  destruct (chain_stored step store proj val x mcmc_sample burnin thinning
              st b w Hstore) as [HL Hnth].
  apply (In_nth _ _ x) in Hx; destruct Hx as (j & Hj & <-).
  rewrite (Hnth j Hj).
  rewrite HL, Hlen in Hj.
  apply Nat.ltb_lt in Hj; rewrite Hj.
  apply HP; [nia|exact Ht].
Qed.

Lemma chain_trace {S B : Type} (K : kernel) (step : S -> M S)
    (store : nat -> S -> B -> B) (mcmc_sample burnin thinning : Z)
    (st : S) (b : B) (w : world) :
  enters_once K step ->
  trace (snd (chain step store mcmc_sample burnin thinning st b w)) =
  repeat K (Z.to_nat burnin + Z.to_nat mcmc_sample * Z.to_nat thinning)
  ++ trace w.
Proof.
  intros HK.
  destruct (chain_state step store mcmc_sample burnin thinning st b w)
    as [_ ->].
  now apply trace_iterate.
Qed.

Lemma trace_enter_bind {A : Type} (K : kernel) (body : M A) (w : world) :
  keeps_trace body ->
  trace (snd (bind (enter K) (fun _ => body) w)) = K :: trace w.
Proof. intros Hb; unfold bind, enter; simpl; now rewrite Hb. Qed.

Lemma trace_bind_ret {A B : Type} (c : M A) (f : A -> B) (w : world) :
  trace (snd (bind c (fun a => ret (f a)) w)) = trace (snd (c w)).
Proof. unfold bind, ret; now destruct (c w). Qed.

Lemma bind_ret_eq {A B : Type} (c : M A) (f : A -> B) (w : world) :
  bind c (fun a => ret (f a)) w = (f (fst (c w)), snd (c w)).
Proof. unfold bind, ret; now destruct (c w). Qed.

Lemma trace_after_keeps {A B : Type} (c : M A) (k : A -> M B) (w : world)
    (T : list kernel) :
  keeps_trace c ->
  (forall a w1, trace w1 = trace w -> trace (snd (k a w1)) = T) ->
  trace (snd (bind c k w)) = T.
Proof.
  intros Hc Hk; unfold bind; specialize (Hc w).
  destruct (c w) as [a w1]; now apply Hk.
Qed.

End SamplerFacts.

Import SamplerFacts.

(** Closes a goal [keeps_trace c] for a computation built from the
    generators. *)
Ltac keeps :=
  repeat first
    [ apply keeps_trace_ret
    | apply keeps_trace_randn
    | apply keeps_trace_randu
    | apply keeps_trace_randu1
    | apply keeps_trace_randg
    | apply keeps_trace_randg_vec
    | apply keeps_trace_pgdraw
    | apply keeps_trace_bind; [ | intros ? ] ].

(** ** Every update function enters once under its own name *)

Module KernelTrace.
Section WithServices.
Context {libm : Libm} {rs : RandomSource} {la : LinAlg} {rstats : RStats}.

Lemma one_step_update_big_p_enters ys V d d2 y X A2 a_sigma b_sigma p n :
  enters_once one_step_update_big_p_id
    (NormalLm.one_step_update_big_p ys V d d2 y X A2 a_sigma b_sigma p n).
Proof.
  intros s w; unfold NormalLm.one_step_update_big_p.
  apply trace_enter_bind; keeps.
Qed.

Lemma one_step_update_big_n_enters ys V d d2 y X A2 a_sigma b_sigma p n :
  enters_once one_step_update_big_n_id
    (NormalLm.one_step_update_big_n ys V d d2 y X A2 a_sigma b_sigma p n).
Proof.
  intros s w; unfold NormalLm.one_step_update_big_n.
  apply trace_enter_bind; keeps.
Qed.

Lemma one_step_logit_normal_big_n_enters y_s Xty_s X A2_tau p n :
  enters_once one_step_logit_normal_big_n_id
    (NormalLogit.one_step_logit_normal_big_n y_s Xty_s X A2_tau p n).
Proof.
  intros s w; unfold NormalLogit.one_step_logit_normal_big_n.
  apply trace_enter_bind; keeps.
Qed.

Lemma one_step_logit_normal_big_p_enters y_s XXt X A2_tau p n :
  enters_once one_step_logit_normal_big_p_id
    (NormalLogit.one_step_logit_normal_big_p y_s XXt X A2_tau p n).
Proof.
  intros s w; unfold NormalLogit.one_step_logit_normal_big_p.
  apply trace_enter_bind; keeps.
Qed.

Lemma one_step_logit_horseshoe_big_n_enters y_s Xty_s X A2_tau A2_lambda p n :
  enters_once one_step_logit_horseshoe_big_n_id
    (HorseshoeLogit.one_step_logit_horseshoe_big_n y_s Xty_s X A2_tau
                                                   A2_lambda p n).
Proof.
  intros s w; unfold HorseshoeLogit.one_step_logit_horseshoe_big_n.
  apply trace_enter_bind; keeps.
Qed.

Lemma one_step_logit_horseshoe_big_p_enters y_s X A2_tau A2_lambda p n :
  enters_once one_step_logit_horseshoe_big_p_id
    (HorseshoeLogit.one_step_logit_horseshoe_big_p y_s X A2_tau A2_lambda
                                                   p n).
Proof.
  intros s w; unfold HorseshoeLogit.one_step_logit_horseshoe_big_p.
  apply trace_enter_bind; keeps.
Qed.

Lemma hs_one_step_update_big_p_enters
    ys V d d2 y X VD A2_tau A2_lambda a_sigma b_sigma p n :
  enters_once hs_one_step_update_big_p_id
    (HorseshoeLm.hs_one_step_update_big_p ys V d d2 y X VD A2_tau A2_lambda
                                          a_sigma b_sigma p n).
Proof.
  intros s w; unfold HorseshoeLm.hs_one_step_update_big_p.
  apply trace_enter_bind; keeps.
Qed.

Lemma hs_one_step_update_big_n_enters
    dys V d2 y X A2 A2_lambda a_sigma b_sigma p n :
  enters_once hs_one_step_update_big_n_id
    (HorseshoeLm.hs_one_step_update_big_n dys V d2 y X A2 A2_lambda
                                          a_sigma b_sigma p n).
Proof.
  intros s w; unfold HorseshoeLm.hs_one_step_update_big_n.
  apply trace_enter_bind; keeps.
Qed.

Lemma hs_one_step_update_enters y X A2 A2_lambda a_sigma b_sigma p n :
  enters_once hs_one_step_update_id
    (HorseshoeLm.hs_one_step_update y X A2 A2_lambda a_sigma b_sigma p n).
Proof.
  intros s w; unfold HorseshoeLm.hs_one_step_update.
  apply trace_enter_bind; keeps.
Qed.

Lemma hs_one_step_update_slice_sampler_enters
    y X A2_tau A2_lambda a_sigma b_sigma p n :
  enters_once hs_one_step_update_slice_sampler_id
    (HorseshoeLm.hs_one_step_update_slice_sampler y X A2_tau A2_lambda
                                                  a_sigma b_sigma p n).
Proof.
  intros s w; unfold HorseshoeLm.hs_one_step_update_slice_sampler.
  apply trace_enter_bind; keeps.
Qed.

End WithServices.
End KernelTrace.

(** ** Positivity of the scale parameters *)

Module PositivityFacts.

Lemma Qdiv_pos (a b : Q) : 0 < a -> 0 < b -> 0 < a / b.
Proof. intros Ha Hb; apply Qlt_shift_div_l; lra. Qed.

Lemma Qdiv_nonneg (a b : Q) : 0 <= a -> 0 < b -> 0 <= a / b.
Proof. intros Ha Hb; apply Qle_shift_div_l; lra. Qed.

Lemma Qinv1_pos (a : Q) : 0 < a -> pos (1 / a).
Proof. intros Ha; apply Qdiv_pos; lra. Qed.

Lemma Forall_zip_with (P R T : Q -> Prop) (f : Q -> Q -> Q) (a b : vec) :
  (forall x y, P x -> R y -> T (f x y)) ->
  Forall P a -> Forall R b -> Forall T (zip_with f a b).
Proof.
  intros Hf Ha; revert b; induction Ha as [|x a Hx Ha IH];
    intros b Hb; simpl; [constructor|].
  destruct Hb as [|y b Hy Hb]; constructor; auto.
Qed.

Lemma Forall_map_pos (P T : Q -> Prop) (f : Q -> Q) (a : vec) :
  (forall x, P x -> T (f x)) -> Forall P a -> Forall T (map f a).
Proof.
  intros Hf Ha; induction Ha; simpl; constructor; auto.
Qed.

Lemma squares_nonneg (a : vec) : Forall (fun x => 0 <= x) (vmul a a).
Proof.
  induction a as [|x a IH]; simpl; constructor; auto.
  nra.
Qed.

Lemma vdiv_pos (a b : vec) :
  Forall pos a -> Forall pos b -> Forall pos (vdiv a b).
Proof. apply Forall_zip_with; intros x y; apply Qdiv_pos. Qed.

Lemma vadd_pos_nonneg (a b : vec) :
  Forall pos a -> Forall (fun x => 0 <= x) b -> Forall pos (vadd a b).
Proof.
  apply Forall_zip_with; unfold pos; intros x y Hx Hy; lra.
Qed.

Lemma always_ret {A : Type} (a : A) (P : A -> Prop) :
  P a -> always (ret a) P.
Proof. intros H w; exact H. Qed.

Lemma always_bind {A B : Type} (c : M A) (k : A -> M B) (R : A -> Prop)
    (P : B -> Prop) :
  always c R -> (forall a, R a -> always (k a) P) -> always (bind c k) P.
Proof.
  intros Hc Hk w; unfold bind.
  specialize (Hc w); destruct (c w) as [a w1]; now apply Hk.
Qed.

Lemma always_any {A : Type} (c : M A) : always c (fun _ => True).
Proof. intros w; exact I. Qed.

Lemma iterate_1 {S : Type} (step : S -> M S) (s : S) (w : world) :
  iterate step 1 s w = step s w.
Proof.
  unfold iterate; simpl; unfold bind, ret; now destruct (step s w).
Qed.

(** An invariant of the update function holds after any number of
    updates. *)
Lemma iterate_always {S : Type} (Inv : S -> Prop) (step : S -> M S) :
  (forall s, Inv s -> always (step s) Inv) ->
  forall k s, Inv s -> always (iterate step k s) Inv.
Proof.
  intros Hstep; induction k as [|k IH]; intros s Hs w.
  - exact Hs.
  - rewrite iterate_S; apply IH, Hstep, Hs.
Qed.

(** What the update function establishes from any state holds after one
    update or more. *)
Lemma iterate_establishes {S : Type} (Good : S -> Prop) (step : S -> M S) :
  (forall s, always (step s) Good) ->
  forall k s, (1 <= k)%nat -> always (iterate step k s) Good.
Proof.
  intros Hstep k s Hk w.
  destruct k as [|k]; [lia|].
  rewrite iterate_S.
  apply (@iterate_always S Good step (fun s0 _ => Hstep s0)), Hstep.
Qed.

Lemma extra_nonneg1 (t : Q) (v : vec) :
  0 < t -> Forall (fun x => 0 <= x) v ->
  Forall (fun x => 0 <= x) (map (fun b2 => half * b2 / t) v).
Proof.
  intros Ht; apply Forall_map_pos; intros x Hx.
  apply Qdiv_nonneg; auto; unfold half; lra.
Qed.

Lemma extra_nonneg2 (t s : Q) (v : vec) :
  0 < t -> 0 < s -> Forall (fun x => 0 <= x) v ->
  Forall (fun x => 0 <= x) (map (fun b2 => half * b2 / t / s) v).
Proof.
  intros Ht Hs; apply Forall_map_pos; intros x Hx.
  apply Qdiv_nonneg; auto; apply Qdiv_nonneg; auto; unfold half; lra.
Qed.

Section WithServices.
Context {libm : Libm} {rs : RandomSource} {la : LinAlg}.

Hypothesis variates : positive_variates rs.
Hypothesis sqrt_pos : forall x, 0 < x -> 0 < sqrt x.

Lemma always_randg (a b : Q) : always (randg a b) pos.
Proof. intros w; apply variates. Qed.

Lemma always_randg_vec (k : nat) (a b : Q) :
  always (randg_vec k a b) (Forall pos).
Proof.
  induction k as [|k IH]; simpl.
  - apply always_ret; constructor.
  - apply always_bind with (R := pos); [apply always_randg|intros g Hg].
    apply always_bind with (R := Forall pos); [exact IH|intros r Hr].
    apply always_ret; now constructor.
Qed.

Lemma always_pgdraw (b : Q) (c : vec) : always (pgdraw b c) (Forall pos).
Proof.
  intros w; unfold pgdraw; simpl; apply Forall_forall; intros x Hx.
  apply in_map_iff in Hx; destruct Hx as (k & <- & _); apply variates.
Qed.

(** The update of the local scales of the horseshoe kernels: with positive
    variates [g1], positive rates [b_lambda] and nonnegative terms added
    to them, the new [lambda] is positive. *)
Lemma new_lambda_pos (g1 b_lambda extra : vec) :
  Forall pos g1 -> Forall pos b_lambda ->
  Forall (fun x => 0 <= x) extra ->
  Forall pos (map sqrt (vinv (vdiv g1 (vadd b_lambda extra)))).
Proof.
  intros Hg Hb He.
  apply Forall_map_pos with (P := pos); [exact sqrt_pos|].
  apply Forall_map_pos with (P := pos); [exact Qinv1_pos|].
  apply vdiv_pos; auto.
  now apply vadd_pos_nonneg.
Qed.

(** ... and with a positive [A2_lambda] the new [b_lambda] is positive. *)
Lemma new_b_lambda_pos (g1 g2 b_lambda extra : vec) (A2_lambda : Q) :
  0 < A2_lambda ->
  Forall pos g1 -> Forall pos g2 -> Forall pos b_lambda ->
  Forall (fun x => 0 <= x) extra ->
  Forall pos (vdiv g2 (map (fun il => 1 / A2_lambda + il)
                           (vdiv g1 (vadd b_lambda extra)))).
Proof.
  intros HA Hg1 Hg2 Hb He.
  apply vdiv_pos; auto.
  apply Forall_map_pos with (P := pos).
  - intros x Hx; pose proof (Qinv1_pos HA) as Hi; unfold pos in *; lra.
  - apply vdiv_pos; auto; now apply vadd_pos_nonneg.
Qed.

(** One step through a kernel: the next generator call, with what is
    known of the variate it delivers. *)
Ltac draw :=
  cbv beta zeta;
  lazymatch goal with
  | |- always (bind (randg _ _) _) _ =>
      apply always_bind with (R := pos); [apply always_randg|intros ? ?]
  | |- always (bind (randg_vec _ _ _) _) _ =>
      apply always_bind with (R := Forall pos);
      [apply always_randg_vec|intros ? ?]
  | |- always (bind (pgdraw _ _) _) _ =>
      apply always_bind with (R := Forall pos);
      [apply always_pgdraw|intros ? ?]
  | |- always (bind _ _) _ =>
      apply always_bind with (R := fun _ => True);
      [apply always_any|intros ? _]
  | |- always (ret _) _ => apply always_ret
  end.

Lemma one_step_update_big_p_positive ys V d d2 y X A2 a_sigma b_sigma p n
    st :
  always (NormalLm.one_step_update_big_p ys V d d2 y X A2 a_sigma b_sigma
                                         p n st)
         positive_normal_lm.
Proof.
  unfold NormalLm.one_step_update_big_p; repeat draw.
  split; now apply Qinv1_pos.
Qed.

Lemma one_step_update_big_n_positive ys V d d2 y X A2 a_sigma b_sigma p n
    st :
  always (NormalLm.one_step_update_big_n ys V d d2 y X A2 a_sigma b_sigma
                                         p n st)
         positive_normal_lm.
Proof.
  unfold NormalLm.one_step_update_big_n; repeat draw.
  split; now apply Qinv1_pos.
Qed.

Lemma one_step_logit_normal_big_n_positive y_s Xty_s X A2_tau p n st :
  always (NormalLogit.one_step_logit_normal_big_n y_s Xty_s X A2_tau p n st)
         positive_normal_logit.
Proof.
  unfold NormalLogit.one_step_logit_normal_big_n; repeat draw.
  split; [now apply Qinv1_pos | assumption].
Qed.

Lemma one_step_logit_normal_big_p_positive y_s XXt X A2_tau p n st :
  always (NormalLogit.one_step_logit_normal_big_p y_s XXt X A2_tau p n st)
         positive_normal_logit.
Proof.
  unfold NormalLogit.one_step_logit_normal_big_p; repeat draw.
  split; [now apply Qinv1_pos | assumption].
Qed.

Lemma one_step_logit_horseshoe_big_n_positive
    y_s Xty_s X A2_tau A2_lambda p n st :
  0 < A2_lambda ->
  positive_horseshoe_logit st ->
  always (HorseshoeLogit.one_step_logit_horseshoe_big_n
            y_s Xty_s X A2_tau A2_lambda p n st)
         positive_horseshoe_logit.
Proof.
  intros HA (Ht & Hl & Ho & Hb).
  unfold HorseshoeLogit.one_step_logit_horseshoe_big_n; repeat draw.
  repeat split; cbn; auto using Qinv1_pos.
  - apply new_lambda_pos; auto.
    apply extra_nonneg1; [now apply Qinv1_pos | apply squares_nonneg].
  - apply new_b_lambda_pos; auto.
    apply extra_nonneg1; [now apply Qinv1_pos | apply squares_nonneg].
Qed.

Lemma one_step_logit_horseshoe_big_p_positive
    y_s X A2_tau A2_lambda p n st :
  0 < A2_lambda ->
  positive_horseshoe_logit st ->
  always (HorseshoeLogit.one_step_logit_horseshoe_big_p
            y_s X A2_tau A2_lambda p n st)
         positive_horseshoe_logit.
Proof.
  intros HA (Ht & Hl & Ho & Hb).
  unfold HorseshoeLogit.one_step_logit_horseshoe_big_p; repeat draw.
  repeat split; cbn; auto using Qinv1_pos.
  - apply new_lambda_pos; auto.
    apply extra_nonneg1; [now apply Qinv1_pos | apply squares_nonneg].
  - apply new_b_lambda_pos; auto.
    apply extra_nonneg1; [now apply Qinv1_pos | apply squares_nonneg].
Qed.

Lemma hs_one_step_update_big_p_positive
    ys V d d2 y X VD A2_tau A2_lambda a_sigma b_sigma p n st :
  0 < A2_lambda ->
  positive_horseshoe_lm st ->
  always (HorseshoeLm.hs_one_step_update_big_p
            ys V d d2 y X VD A2_tau A2_lambda a_sigma b_sigma p n st)
         positive_horseshoe_lm.
Proof.
  intros HA (Hs & Ht & Hl & Hb).
  unfold HorseshoeLm.hs_one_step_update_big_p; repeat draw.
  repeat split; cbn; auto using Qinv1_pos.
  - apply new_lambda_pos; auto.
    apply extra_nonneg2; auto; apply squares_nonneg.
  - apply new_b_lambda_pos; auto.
    apply extra_nonneg2; auto; apply squares_nonneg.
Qed.

Lemma hs_one_step_update_big_n_positive
    dys V d2 y X A2 A2_lambda a_sigma b_sigma p n st :
  0 < A2_lambda ->
  positive_horseshoe_lm st ->
  always (HorseshoeLm.hs_one_step_update_big_n
            dys V d2 y X A2 A2_lambda a_sigma b_sigma p n st)
         positive_horseshoe_lm.
Proof.
  intros HA (Hs & Ht & Hl & Hb).
  unfold HorseshoeLm.hs_one_step_update_big_n; repeat draw.
  repeat split; cbn; auto using Qinv1_pos.
  - apply new_lambda_pos; auto.
    apply extra_nonneg2; auto; apply squares_nonneg.
  - apply new_b_lambda_pos; auto.
    apply extra_nonneg2; auto; apply squares_nonneg.
Qed.

Lemma hs_one_step_update_positive
    y X A2 A2_lambda a_sigma b_sigma p n st :
  0 < A2_lambda ->
  positive_horseshoe_lm st ->
  always (HorseshoeLm.hs_one_step_update
            y X A2 A2_lambda a_sigma b_sigma p n st)
         positive_horseshoe_lm.
Proof.
  intros HA (Hs & Ht & Hl & Hb).
  unfold HorseshoeLm.hs_one_step_update; repeat draw.
  repeat split; cbn; auto using Qinv1_pos.
  - apply new_lambda_pos; auto.
    apply extra_nonneg2; auto; apply squares_nonneg.
  - apply new_b_lambda_pos; auto.
    apply extra_nonneg2; auto; apply squares_nonneg.
Qed.

End WithServices.

Lemma square_pos (x : Q) : nonzero x -> 0 < x * x.
Proof.
  intros Hx; destruct (Q_dec x 0) as [[H|H]|H]; [nra|nra|contradiction].
Qed.

(** *** The draws [fast_horseshoe_lm] returns *)

Section Collected.
Import HorseshoeLm.
Context {libm : Libm} {rs : RandomSource} {la : LinAlg}.

Hypothesis variates : positive_variates rs.
Hypothesis sqrt_pos : forall x, 0 < x -> 0 < sqrt x.

Lemma fast_horseshoe_lm_as_chain y X mcmc_sample burnin thinning a_sigma
    b_sigma A_tau A_lambda w :
  fst (fast_horseshoe_lm y X mcmc_sample burnin thinning
         a_sigma b_sigma A_tau A_lambda w) =
  finish X (n_cols X)
    (snd (fst (chain (fast_horseshoe_lm_step y X a_sigma b_sigma A_tau
                                             A_lambda)
                     store mcmc_sample burnin thinning
                     (fast_horseshoe_lm_init a_sigma b_sigma (n_cols X))
                     (init_buffers (n_cols X) mcmc_sample) w))).
Proof.
  unfold fast_horseshoe_lm, fast_horseshoe_lm_step.
  destruct (svd_econ X) as [[U d] V]; cbv zeta.
  rewrite bind_ret_eq; cbn [fst snd].
  destruct (n_cols X <? n_rows X)%nat; reflexivity.
Qed.

Lemma fast_horseshoe_lm_step_positive y X a_sigma b_sigma A_tau A_lambda st :
  ~ A_lambda == 0 ->
  positive_horseshoe_lm st ->
  always (fast_horseshoe_lm_step y X a_sigma b_sigma A_tau A_lambda st)
         positive_horseshoe_lm.
Proof.
  intros HA Hst; unfold fast_horseshoe_lm_step.
  assert (HA2 : 0 < A_lambda * A_lambda) by now apply square_pos.
  destruct (svd_econ X) as [[U d] V]; cbv zeta.
  destruct (n_cols X <? n_rows X)%nat.
  - now apply hs_one_step_update_big_n_positive.
  - now apply hs_one_step_update_big_p_positive.
Qed.

Lemma ones_pos (k : nat) : Forall pos (ones k).
Proof.
  unfold ones; induction k; simpl; constructor; auto; reflexivity.
Qed.

Lemma fast_horseshoe_lm_init_positive a_sigma b_sigma p :
  (1 <= p)%nat ->
  a_sigma == 0 \/ 0 < b_sigma / a_sigma ->
  positive_horseshoe_lm (fast_horseshoe_lm_init a_sigma b_sigma p).
Proof.
  intros Hp Hs; unfold fast_horseshoe_lm_init, positive_horseshoe_lm; simpl.
  repeat split; try apply ones_pos.
  - destruct (Qeq_bool a_sigma 0) eqn:E; simpl; [reflexivity|].
    apply Qeq_bool_neq in E; destruct Hs; [contradiction|assumption].
  - apply Qinv1_pos; unfold Qn, Qlt; simpl; lia.
Qed.

(** With valid hyperparameters every draw [fast_horseshoe_lm] returns has a
    positive noise variance, a positive global scale and positive local
    scales. *)
Lemma fast_horseshoe_lm_draws_positive
    y X mcmc_sample burnin thinning a_sigma b_sigma A_tau A_lambda w f :
  ~ A_lambda == 0 ->
  (1 <= n_cols X)%nat ->
  a_sigma == 0 \/ 0 < b_sigma / a_sigma ->
  (1 <= thinning)%Z ->
  fst (fast_horseshoe_lm y X mcmc_sample burnin thinning
         a_sigma b_sigma A_tau A_lambda w) = Some f ->
  Forall pos (sigma2_eps_list (mcmc f)) /\
  Forall pos (tau2_list (mcmc f)) /\
  Forall (Forall pos) (lambda_list (mcmc f)).
Proof.
  intros HA Hp Hs Ht Hf.
  rewrite fast_horseshoe_lm_as_chain in Hf.
  set (c := chain _ _ _ _ _ _ _ _) in Hf.
  assert (Hm : mcmc f = snd (fst c)).
  { unfold finish, and_then in Hf.
    destruct (mean (sigma2_eps_list (snd (fst c)))); [|discriminate].
    destruct (mean (tau2_list (snd (fst c)))); [|discriminate].
    now inversion Hf. }
  rewrite Hm; unfold c.
  assert (Hinv : forall k,
            positive_horseshoe_lm
              (fst (iterate (fast_horseshoe_lm_step y X a_sigma b_sigma
                               A_tau A_lambda) k
                      (fast_horseshoe_lm_init a_sigma b_sigma (n_cols X))
                      w))).
  { intros k; apply iterate_always.
    - intros s Hs'; now apply fast_horseshoe_lm_step_positive.
    - now apply fast_horseshoe_lm_init_positive. }
  repeat split.
  - apply (chain_stored_all _ store sigma2_eps_list sigma2_eps);
      auto; [apply repeat_length|].
    intros k _ _; apply Hinv.
  - apply (chain_stored_all _ store tau2_list tau2);
      auto; [apply repeat_length|].
    intros k _ _; apply Hinv.
  - apply (chain_stored_all _ store lambda_list lambda);
      auto; [apply repeat_length|].
    intros k _ _; apply Hinv.
Qed.

End Collected.

End PositivityFacts.

(** ** The regime of a run *)

Module RegimeFacts.
Section WithServices.
Context {libm : Libm} {rs : RandomSource} {la : LinAlg} {rstats : RStats}.

Import KernelTrace.

Lemma fast_normal_lm_trace y X mcmc_sample burnin thinning a_sigma b_sigma
    A_tau w :
  trace (snd (NormalLm.fast_normal_lm y X mcmc_sample burnin thinning
                a_sigma b_sigma A_tau w)) =
  repeat (regime_kernel fast_normal_lm_ep
            (select_regime (n_cols X) (n_rows X)))
         (updates mcmc_sample burnin thinning) ++ trace w.
Proof.
  unfold NormalLm.fast_normal_lm, select_regime.
  destruct (svd_econ X) as [[U d] V]; cbv zeta.
  rewrite trace_bind_ret.
  destruct (n_cols X <? n_rows X)%nat; simpl regime_kernel.
  - apply (chain_trace NormalLm.store
             mcmc_sample burnin thinning _ _ w
             (one_step_update_big_n_enters _ _ _ _ _ _ _ _ _ _ _)).
  - apply (chain_trace NormalLm.store
             mcmc_sample burnin thinning _ _ w
             (one_step_update_big_p_enters _ _ _ _ _ _ _ _ _ _ _)).
Qed.

Lemma fast_normal_logit_trace y X mcmc_sample burnin thinning A_tau w :
  trace (snd (NormalLogit.fast_normal_logit y X mcmc_sample burnin thinning
                A_tau w)) =
  repeat (regime_kernel fast_normal_logit_ep
            (select_regime (n_cols X) (n_rows X)))
         (updates mcmc_sample burnin thinning) ++ trace w.
Proof.
  unfold NormalLogit.fast_normal_logit, select_regime; cbv zeta.
  apply trace_after_keeps; [keeps|intros omega w1 <-].
  rewrite trace_bind_ret.
  destruct (n_cols X <? n_rows X)%nat; simpl regime_kernel.
  - apply (chain_trace NormalLogit.store
             mcmc_sample burnin thinning _ _ w1
             (one_step_logit_normal_big_n_enters _ _ _ _ _ _)).
  - apply (chain_trace NormalLogit.store
             mcmc_sample burnin thinning _ _ w1
             (one_step_logit_normal_big_p_enters _ _ _ _ _ _)).
Qed.

Lemma fast_horseshoe_logit_trace y X mcmc_sample burnin thinning A_tau
    A_lambda w :
  trace (snd (HorseshoeLogit.fast_horseshoe_logit y X mcmc_sample burnin
                thinning A_tau A_lambda w)) =
  repeat (regime_kernel fast_horseshoe_logit_ep
            (select_regime (n_cols X) (n_rows X)))
         (updates mcmc_sample burnin thinning) ++ trace w.
Proof.
  unfold HorseshoeLogit.fast_horseshoe_logit, select_regime; cbv zeta.
  apply trace_after_keeps; [keeps|intros omega w1 <-].
  rewrite trace_bind_ret.
  destruct (n_cols X <? n_rows X)%nat; simpl regime_kernel.
  - apply (chain_trace HorseshoeLogit.store
             mcmc_sample burnin thinning _ _ w1
             (one_step_logit_horseshoe_big_n_enters _ _ _ _ _ _ _)).
  - apply (chain_trace HorseshoeLogit.store
             mcmc_sample burnin thinning _ _ w1
             (one_step_logit_horseshoe_big_p_enters _ _ _ _ _ _)).
Qed.

Lemma fast_horseshoe_lm_trace y X mcmc_sample burnin thinning a_sigma
    b_sigma A_tau A_lambda w :
  trace (snd (HorseshoeLm.fast_horseshoe_lm y X mcmc_sample burnin thinning
                a_sigma b_sigma A_tau A_lambda w)) =
  repeat (regime_kernel fast_horseshoe_lm_ep
            (select_regime (n_cols X) (n_rows X)))
         (updates mcmc_sample burnin thinning) ++ trace w.
Proof.
  unfold HorseshoeLm.fast_horseshoe_lm, select_regime.
  destruct (svd_econ X) as [[U d] V]; cbv zeta.
  rewrite trace_bind_ret.
  destruct (n_cols X <? n_rows X)%nat; simpl regime_kernel.
  - apply (chain_trace HorseshoeLm.store
             mcmc_sample burnin thinning _ _ w
             (hs_one_step_update_big_n_enters _ _ _ _ _ _ _ _ _ _ _)).
  - apply (chain_trace HorseshoeLm.store
             mcmc_sample burnin thinning _ _ w
             (hs_one_step_update_big_p_enters _ _ _ _ _ _ _ _ _ _ _ _ _)).
Qed.

Lemma fast_horseshoe_ss_lm_trace y X mcmc_sample burnin thinning a_sigma
    b_sigma A_tau A_lambda w :
  trace (snd (HorseshoeLm.fast_horseshoe_ss_lm y X mcmc_sample burnin
                thinning a_sigma b_sigma A_tau A_lambda w)) =
  repeat (regime_kernel fast_horseshoe_ss_lm_ep
            (select_regime (n_cols X) (n_rows X)))
         (updates mcmc_sample burnin thinning) ++ trace w.
Proof.
  unfold HorseshoeLm.fast_horseshoe_ss_lm, select_regime.
  destruct (svd_econ X) as [[U d] V]; cbv zeta.
  rewrite trace_bind_ret.
  destruct (n_cols X <? n_rows X)%nat; simpl regime_kernel.
  - apply (chain_trace HorseshoeLm.store
             mcmc_sample burnin thinning _ _ w
             (hs_one_step_update_big_n_enters _ _ _ _ _ _ _ _ _ _ _)).
  - apply (chain_trace HorseshoeLm.store
             mcmc_sample burnin thinning _ _ w
             (hs_one_step_update_slice_sampler_enters _ _ _ _ _ _ _ _)).
Qed.

Lemma fast_horseshoe_hd_lm_trace y X mcmc_sample burnin thinning a_sigma
    b_sigma A_tau A_lambda w :
  trace (snd (HorseshoeLm.fast_horseshoe_hd_lm y X mcmc_sample burnin
                thinning a_sigma b_sigma A_tau A_lambda w)) =
  repeat (regime_kernel fast_horseshoe_hd_lm_ep
            (select_regime (n_cols X) (n_rows X)))
         (updates mcmc_sample burnin thinning) ++ trace w.
Proof.
  unfold HorseshoeLm.fast_horseshoe_hd_lm, select_regime.
  destruct (svd_econ X) as [[U d] V]; cbv zeta.
  rewrite trace_bind_ret.
  destruct (n_cols X <? n_rows X)%nat; simpl regime_kernel.
  - apply (chain_trace HorseshoeLm.store
             mcmc_sample burnin thinning _ _ w
             (hs_one_step_update_big_n_enters _ _ _ _ _ _ _ _ _ _ _)).
  - apply (chain_trace HorseshoeLm.store
             mcmc_sample burnin thinning _ _ w
             (hs_one_step_update_enters _ _ _ _ _ _ _ _)).
Qed.

(** C5: in every fitting function the regime is selected by the one
    comparison of [p] with [n] that precedes the loops (observation-major
    when [p < n], predictor-major otherwise), and every update of the run,
    in the burn-in loop and in the sampling loop alike, is the update
    function of that regime: the record of entered update functions grows
    by [burnin + mcmc_sample * thinning] copies of it and by nothing
    else. *)
Theorem regime_fixed_for_the_run
    (y : vec) (X : mat) (mcmc_sample burnin thinning : Z)
    (a_sigma b_sigma A_tau A_lambda : Q) (w : world) :
  let r := select_regime (n_cols X) (n_rows X) in
  let k := updates mcmc_sample burnin thinning in
  (r = ObservationMajor <-> (n_cols X < n_rows X)%nat) /\
  (r = PredictorMajor <-> (n_rows X <= n_cols X)%nat) /\
  trace (snd (NormalLm.fast_normal_lm y X mcmc_sample burnin thinning
                a_sigma b_sigma A_tau w)) =
    repeat (regime_kernel fast_normal_lm_ep r) k ++ trace w /\
  trace (snd (NormalLogit.fast_normal_logit y X mcmc_sample burnin thinning
                A_tau w)) =
    repeat (regime_kernel fast_normal_logit_ep r) k ++ trace w /\
  trace (snd (HorseshoeLogit.fast_horseshoe_logit y X mcmc_sample burnin
                thinning A_tau A_lambda w)) =
    repeat (regime_kernel fast_horseshoe_logit_ep r) k ++ trace w /\
  trace (snd (HorseshoeLm.fast_horseshoe_lm y X mcmc_sample burnin thinning
                a_sigma b_sigma A_tau A_lambda w)) =
    repeat (regime_kernel fast_horseshoe_lm_ep r) k ++ trace w /\
  trace (snd (HorseshoeLm.fast_horseshoe_ss_lm y X mcmc_sample burnin
                thinning a_sigma b_sigma A_tau A_lambda w)) =
    repeat (regime_kernel fast_horseshoe_ss_lm_ep r) k ++ trace w /\
  trace (snd (HorseshoeLm.fast_horseshoe_hd_lm y X mcmc_sample burnin
                thinning a_sigma b_sigma A_tau A_lambda w)) =
    repeat (regime_kernel fast_horseshoe_hd_lm_ep r) k ++ trace w.
Proof.
  cbv zeta; split; [|split].
  - unfold select_regime.
    destruct (n_cols X <? n_rows X)%nat eqn:E.
    + apply Nat.ltb_lt in E; tauto.
    + apply Nat.ltb_ge in E; split; [discriminate | lia].
  - unfold select_regime.
    destruct (n_cols X <? n_rows X)%nat eqn:E.
    + apply Nat.ltb_lt in E; split; [discriminate | lia].
    + apply Nat.ltb_ge in E; tauto.
  - repeat split.
    + apply fast_normal_lm_trace.
    + apply fast_normal_logit_trace.
    + apply fast_horseshoe_logit_trace.
    + apply fast_horseshoe_lm_trace.
    + apply fast_horseshoe_ss_lm_trace.
    + apply fast_horseshoe_hd_lm_trace.
Qed.

End WithServices.
End RegimeFacts.

(** ** Bookkeeping of [fast_normal_lm] *)

Module NormalLmFacts.
Import NormalLm.
Section WithServices.
Context {libm : Libm} {rs : RandomSource} {la : LinAlg}.

Lemma fast_normal_lm_as_chain y X mcmc_sample burnin thinning a_sigma
    b_sigma A_tau w :
  let r := chain (run_step y X a_sigma b_sigma A_tau) store
                 mcmc_sample burnin thinning
                 (init_state a_sigma b_sigma A_tau)
                 (init_buffers (n_cols X) mcmc_sample) w in
  fst (fast_normal_lm y X mcmc_sample burnin thinning
         a_sigma b_sigma A_tau w) = finish X (n_cols X) (snd (fst r)) /\
  snd (fast_normal_lm y X mcmc_sample burnin thinning
         a_sigma b_sigma A_tau w) = snd r.
Proof.
  cbv zeta; unfold fast_normal_lm, run_step.
  destruct (svd_econ X) as [[U d] V]; cbv zeta.
  rewrite bind_ret_eq; cbn [fst snd].
  destruct (n_cols X <? n_rows X)%nat; split; reflexivity.
Qed.


(** On the predictor-major route the noise precision is drawn as the
    specification says: the last gamma variate of an update is asked for
    with shape [a_sigma + (n + p) / 2] and with the scale that is the
    inverse of [b_sigma + 0.5 * sum(beta^2) / tau2 + 0.5 * RSS], for the
    new [beta] and [tau2] and the residuals [y - X * beta]; the new
    [sigma2_eps] is the inverse of that variate. *)
Lemma one_step_update_big_p_noise_draw
    ys V d d2 y X A2 a_sigma b_sigma p n st w :
  let r := one_step_update_big_p ys V d d2 y X A2 a_sigma b_sigma p n st w in
  let shape := fst (last_gamma_request (snd r)) in
  let scale := snd (last_gamma_request (snd r)) in
  shape = noise_shape_spec a_sigma n p /\
  / scale == noise_rate_spec b_sigma y X (betacoef (fst r)) (tau2 (fst r)) /\
  sigma2_eps (fst r) = 1 / randg_src (S (S (g_pos w))) shape scale.
Proof.
  unfold one_step_update_big_p, bind, enter, randn, randg, ret,
    last_gamma_request;
    cbn [fst snd g_log g_pos n_pos u_pos pg_pos trace hd
         betacoef tau2 sigma2_eps].
  split; [reflexivity|split; [|reflexivity]].
  unfold noise_rate_spec, residual_sum_of_squares.
  match goal with
  | |- / (1 / (_ + half * ?SB * ?G + half * ?SE)) == _ =>
      generalize G; generalize SE; generalize SB
  end.
  intros SB SE G; unfold Qdiv.
  rewrite !Qmult_1_l, !Qinv_involutive; reflexivity.
Qed.

(** On the observation-major route the shape is [a_sigma + p], whatever
    [n] is. *)
Lemma one_step_update_big_n_noise_shape
    ys V d d2 y X A2 a_sigma b_sigma p n st w :
  fst (last_gamma_request
         (snd (one_step_update_big_n ys V d d2 y X A2 a_sigma b_sigma p n
                                     st w))) = a_sigma + Qn p.
Proof. reflexivity. Qed.



End WithServices.

(** C1, at three observations of one predictor ([y = (1, 2, 3)],
    [X = (1, 0, 0)], whose economy decomposition is [U = X], [d = (1)],
    [V = (1)]; [a_sigma = b_sigma = 0.01], [A_tau = 10]): the update
    function [fast_normal_lm] runs there is the observation-major one, and
    it asks for the gamma variate of [1 / sigma2_eps] with shape
    [a_sigma + p = 1.01], not [a_sigma + (n + p) / 2 = 2.01], and with a
    rate that is short of [b_sigma + 0.5 * sum(beta^2) / tau2 + 0.5 * RSS]
    by [(2^2 + 3^2) / 2]: the residuals are taken in the basis of the
    decomposition, where the part of [y] outside the column space of [X]
    does not appear. *)
Theorem one_step_update_big_n_noise_draw_short
    {libm : Libm} {rs : RandomSource} (w : world) :
  let y := [1; 2; 3] in
  let X := [[1]; [0]; [0]] in
  let a_sigma := 1 # 100 in
  let b_sigma := 1 # 100 in
  let r := @run_step libm rs Examples.column_linalg y X a_sigma b_sigma 10
             (init_state a_sigma b_sigma 10) w in
  let shape := fst (last_gamma_request (snd r)) in
  let scale := snd (last_gamma_request (snd r)) in
  trace (snd r) = one_step_update_big_n_id :: trace w /\
  shape = a_sigma + Qn 1 /\
  ~ shape == noise_shape_spec a_sigma 3 1 /\
  / scale + (13 # 2)
    == noise_rate_spec b_sigma y X (betacoef (fst r)) (tau2 (fst r)) /\
  sigma2_eps (fst r) = 1 / randg_src (S (S (g_pos w))) shape scale.
Proof.
  cbv zeta.
  unfold run_step; cbn [svd_econ Examples.column_linalg n_cols n_rows
                        length Nat.ltb Nat.leb].
  unfold one_step_update_big_n, bind, enter, randn, randg, ret,
    last_gamma_request;
    cbn [fst snd g_log g_pos n_pos u_pos pg_pos trace hd
         betacoef tau2 sigma2_eps].
  split; [reflexivity|split; [reflexivity|split; [|split; [|reflexivity]]]].
  - qcmp.
  - unfold noise_rate_spec, residual_sum_of_squares.
    cbn [seq map vmul vadd vsub vdiv zip_with mv trans col n_cols length
         dot accu fold_right nth init_state sigma2_eps tau2].
    match goal with
    | |- context [randg_src (g_pos w) ?a ?b] =>
        generalize (randg_src (g_pos w) a b)
    end.
    match goal with
    | |- context [randn_src (n_pos w) * ?s] => generalize (randn_src (n_pos w) * s)
    end.
    intros a1 G; unfold Qdiv, half.
    rewrite !Qmult_1_l, !Qinv_involutive.
    ring.
Qed.



End NormalLmFacts.

(** ** Initial noise variance of the horseshoe linear models *)

Module HorseshoeInitFacts.
Import HorseshoeLm.

(** C9: [fast_horseshoe_lm], [fast_horseshoe_ss_lm] and
    [fast_horseshoe_hd_lm] start from the noise variance [1] when
    [a_sigma] is zero (its default), and from [b_sigma / a_sigma] only
    when [a_sigma] is not zero: the quotient is never taken with a zero
    shape. *)
Theorem horseshoe_init_sigma2_eps (a_sigma b_sigma : Q) (p : nat) :
  (a_sigma == 0 ->
     sigma2_eps (fast_horseshoe_lm_init a_sigma b_sigma p) = 1 /\
     sigma2_eps (fast_horseshoe_ss_lm_init a_sigma b_sigma p) = 1 /\
     sigma2_eps (fast_horseshoe_hd_lm_init a_sigma b_sigma p) = 1) /\
  (~ a_sigma == 0 ->
     sigma2_eps (fast_horseshoe_lm_init a_sigma b_sigma p)
       = b_sigma / a_sigma /\
     sigma2_eps (fast_horseshoe_ss_lm_init a_sigma b_sigma p)
       = b_sigma / a_sigma /\
     sigma2_eps (fast_horseshoe_hd_lm_init a_sigma b_sigma p)
       = b_sigma / a_sigma).
Proof.
  unfold fast_horseshoe_lm_init, fast_horseshoe_ss_lm_init,
    fast_horseshoe_hd_lm_init; simpl.
  destruct (Qeq_bool a_sigma 0) eqn:E; simpl.
  - apply Qeq_bool_iff in E; split; [auto|intros H; contradiction].
  - apply Qeq_bool_neq in E; split; [intros H; contradiction|auto].
Qed.

Lemma horseshoe_init_sigma2_eps_witness :
  sigma2_eps (fast_horseshoe_hd_lm_init 0 0 3) = 1 /\
  sigma2_eps (fast_horseshoe_lm_init (1 # 100) (1 # 50) 3)
    = (1 # 50) / (1 # 100).
Proof.
  split.
  - refine (proj2 (proj2 (proj1 (horseshoe_init_sigma2_eps 0 0 3) _)));
      reflexivity.
  - refine (proj1 (proj2 (horseshoe_init_sigma2_eps (1 # 100) (1 # 50) 3)
                     _)); discriminate.
Defined.

End HorseshoeInitFacts.

(** ** Responses of the wrong length *)

Module ConformanceFacts.
Import Conformance.

Lemma size_eqb_refl (a : size) : size_eqb a a = true.
Proof. unfold size_eqb; now rewrite !Nat.eqb_refl. Qed.

Lemma ewise_y_mismatch (ylen n : nat) :
  ylen <> n -> ewise (ylen, 1%nat) (n, 1%nat) = None.
Proof.
  intros H; unfold ewise, size_eqb; simpl.
  apply Nat.eqb_neq in H; now rewrite H.
Qed.

Lemma times_Ut_y_mismatch (ylen n p : nat) :
  ylen <> n -> times (tr (size_U n p)) (ylen, 1%nat) = None.
Proof.
  intros H; unfold times, tr, size_U; simpl.
  assert (E : (n =? ylen)%nat = false) by (apply Nat.eqb_neq; congruence).
  now rewrite E.
Qed.

Lemma before_loops_conform (f : entry_point) (n p : nat) :
  before_loops f n n p <> None.
Proof.
  destruct f; unfold before_loops, times, ewise, tr, size_U, size_d,
    and_then; simpl;
    rewrite ?Nat.eqb_refl, ?size_eqb_refl; simpl;
    rewrite ?Nat.eqb_refl, ?size_eqb_refl; simpl;
    try destruct (p <? n)%nat; simpl;
    rewrite ?Nat.eqb_refl, ?size_eqb_refl; simpl;
    rewrite ?Nat.eqb_refl, ?size_eqb_refl; discriminate.
Qed.

Lemma in_update_conform (k : kernel) (n p : nat) :
  in_update k n n p <> None.
Proof.
  destruct k; unfold in_update, times, ewise, and_then; simpl;
    rewrite ?Nat.eqb_refl; simpl; rewrite ?size_eqb_refl; simpl;
    rewrite ?size_eqb_refl; discriminate.
Qed.

(** C2, as the code has it: no fitting function checks the length of [y];
    a response whose length is not the number of rows of [X] is refused by
    the size check of the first expression that combines [y] with an
    [n]-row operand.  In [fast_normal_lm], [fast_normal_logit],
    [fast_horseshoe_logit] and [fast_horseshoe_lm], and in the [p < n]
    branch of [fast_horseshoe_ss_lm] and [fast_horseshoe_hd_lm], that
    expression precedes the loops; in the [p >= n] branch of those two
    functions it is inside the update function, so the run is stopped in
    its first update, and not at all when no update is asked for.  A
    response of the right length is never refused. *)
Theorem y_length_met_at_first_use
    (f : entry_point) (ylen n p : nat) (mcmc_sample burnin thinning : Z) :
  (ylen = n ->
     run f ylen n p mcmc_sample burnin thinning
     = LoopsDone (updates mcmc_sample burnin thinning)) /\
  (ylen <> n ->
     run f ylen n p mcmc_sample burnin thinning
     = if late_on_big_p f && negb (p <? n)%nat
       then match updates mcmc_sample burnin thinning with
            | O => LoopsDone 0
            | S _ => RaisedInUpdate 1
            end
       else RaisedBeforeLoops).
Proof.
  split.
  - intros ->; unfold run.
    pose proof (before_loops_conform f n p) as Hb.
    destruct (before_loops f n n p); [|congruence].
    destruct (updates mcmc_sample burnin thinning) as [|k]; [reflexivity|].
    pose proof (in_update_conform
                  (regime_kernel f (select_regime p n)) n p) as Hu.
    destruct (in_update _ n n p); [reflexivity|congruence].
  - intros Hne; unfold run.
    destruct (p <? n)%nat eqn:Epn.
    + rewrite andb_false_r.
      destruct f; unfold before_loops; rewrite ?Epn;
        rewrite ?times_Ut_y_mismatch, ?ewise_y_mismatch by exact Hne;
        reflexivity.
    + rewrite andb_true_r.
      destruct f; unfold before_loops; rewrite ?Epn; simpl late_on_big_p;
        rewrite ?times_Ut_y_mismatch, ?ewise_y_mismatch by exact Hne;
        try reflexivity;
        destruct (updates mcmc_sample burnin thinning); try reflexivity;
        unfold select_regime; rewrite Epn; simpl regime_kernel;
        unfold in_update, times, and_then; simpl;
        rewrite Nat.eqb_refl; simpl;
        rewrite ewise_y_mismatch by exact Hne; reflexivity.
Qed.

Lemma y_length_met_at_first_use_witness :
  run fast_normal_lm_ep 3 3 1 2 1 2 = LoopsDone 5 /\
  run fast_normal_lm_ep 4 3 1 2 1 2 = RaisedBeforeLoops /\
  run fast_horseshoe_hd_lm_ep 3 2 2 1 1 1 = RaisedInUpdate 1.
Proof.
  split; [|split].
  - refine (proj1 (y_length_met_at_first_use
                     fast_normal_lm_ep 3 3 1 2 1 2) _); reflexivity.
  - refine (proj2 (y_length_met_at_first_use
                     fast_normal_lm_ep 4 3 1 2 1 2) _); discriminate.
  - refine (proj2 (y_length_met_at_first_use
                     fast_horseshoe_hd_lm_ep 3 2 2 1 1 1) _); discriminate.
Defined.

(** The claim fails for [fast_horseshoe_hd_lm]: with a response of three
    entries and a 2 x 2 design matrix, one burn-in iteration and one
    retained draw, nothing stops the run before its loops; it is stopped
    inside the first update. *)
Lemma fails_fast_counterexample :
  3%nat <> 2%nat /\
  run fast_horseshoe_hd_lm_ep 3 2 2 1 1 1 = RaisedInUpdate 1 /\
  ~ fails_fast fast_horseshoe_hd_lm_ep.
Proof.
  split; [discriminate|split; [reflexivity|]].
  intros H.
  specialize (H 3%nat 2%nat 2%nat 1%Z 1%Z 1%Z).
  assert (Hne : 3%nat <> 2%nat) by discriminate.
  specialize (H Hne); vm_compute in H; discriminate.
Qed.

End ConformanceFacts.

(** ** Log transforms *)

Module Ln2Facts.
Import Ln2.

Lemma down_le (a : Q) : 0 <= a -> 0 <= down a /\ down a <= a.
Proof.
  intros Ha; unfold down.
  set (K := inject_Z (2 ^ 160)).
  assert (HK : 0 < K) by reflexivity.
  pose proof (Qfloor_le (a * K)) as Hf.
  assert (H0 : (0 <= Qfloor (a * K))%Z).
  { change 0%Z with (Qfloor 0); apply Qfloor_resp_le; nra. }
  split.
  - apply Qle_shift_div_l; [exact HK|].
    rewrite Qmult_0_l.
    change 0 with (inject_Z 0); now rewrite <- Zle_Qle.
  - apply Qle_shift_div_r; [exact HK | exact Hf].
Qed.

Section OverTheReals.
Import Reals Qreals Lra.
Local Open Scope R_scope.

Lemma rsq_exp (k : nat) :
  forall x, rsq k (exp x) = exp (x * IZR (2 ^ Z.of_nat k)).
Proof.
  induction k as [|k IH]; intros x.
  - simpl; f_equal; lra.
  - cbn [rsq]; rewrite <- exp_plus, IH; f_equal.
    rewrite Nat2Z.inj_succ, Z.pow_succ_r by lia.
    rewrite mult_IZR; lra.
Qed.

Lemma squarings_lower (k : nat) :
  forall (a : Q) (r : R),
    (0 <= a)%Q -> Q2R a <= r -> Q2R (squarings k a) <= rsq k r.
Proof.
  induction k as [|k IH]; intros a r Ha Hr; [exact Hr|].
  cbn [squarings rsq].
  assert (Haa : (0 <= a * a)%Q) by now apply Qmult_le_0_compat.
  destruct (down_le Haa) as [Hd0 Hd1].
  apply IH; [exact Hd0|].
  apply Qle_Rle in Hd1; rewrite Q2R_mult in Hd1.
  apply Qle_Rle in Ha.
  assert (E0 : Q2R 0 = 0) by (unfold Q2R; simpl; lra).
  rewrite E0 in Ha.
  nra.
Qed.

(** A rational [q] is below ln 2 as soon as the lower bound of
    [exp (- q)] is above one half. *)
Lemma below_ln_2_intro (q : Q) :
  (0 <= part q)%Q -> (1 # 2 < squarings 60 (part q))%Q -> below_ln_2 q.
Proof.
  intros Hp Hb; unfold below_ln_2.
  set (x := Q2R (- q / inject_Z (2 ^ 60))).
  assert (Hpart : Q2R (part q) <= exp x).
  { replace (Q2R (part q)) with (1 + x); [apply exp_ineq1_le|].
    unfold x, part.
    assert (E : (1 - q / inject_Z (2 ^ 60)
                 == 1 + - q / inject_Z (2 ^ 60))%Q)
      by (field; discriminate).
    rewrite (Qeq_eqR _ _ E), Q2R_plus.
    f_equal; unfold Q2R; simpl; lra. }
  pose proof (squarings_lower 60 Hp Hpart) as Hs.
  rewrite rsq_exp in Hs.
  change (Z.of_nat 60) with 60%Z in Hs.
  assert (Ex : x * IZR (2 ^ 60) = - Q2R q).
  { unfold x.
    assert (E : (- q / inject_Z (2 ^ 60) * inject_Z (2 ^ 60) == - q)%Q)
      by (field; discriminate).
    apply Qeq_eqR in E; rewrite Q2R_mult, Q2R_opp in E.
    rewrite <- E; f_equal.
    unfold Q2R; simpl; lra. }
  rewrite Ex in Hs.
  apply Qlt_Rlt in Hb.
  assert (Hhalf : Q2R (1 # 2) = / 2) by (unfold Q2R; simpl; lra).
  rewrite Hhalf in Hb.
  assert (He : / 2 < exp (- Q2R q)) by lra.
  rewrite exp_Ropp in He.
  apply exp_lt_inv; rewrite exp_ln by lra.
  pose proof (exp_pos (Q2R q)) as Hpos.
  destruct (Rlt_or_le (exp (Q2R q)) 2) as [H|H]; [exact H|].
  apply Rinv_le_contravar in H; lra.
Qed.

End OverTheReals.

(** The constant of the code is below ln 2, and so are the doubles up to
    the one nearest to ln 2. *)
Lemma below_ln2_is_below : below_ln_2 Examples.below_ln2.
Proof.
  apply below_ln_2_intro; vm_compute; [discriminate | reflexivity].
Qed.

Lemma LOG2_is_below : below_ln_2 LogTransforms.LOG2.
Proof.
  apply below_ln_2_intro; vm_compute; [discriminate | reflexivity].
Qed.

End Ln2Facts.

Module LogTransformsFacts.
Import LogTransforms.
Section WithLibm.
Context {libm : Libm}.

(** C6, as the code has it: [log1mexpm] returns a vector as long as its
    argument; at every index whose entry is at most the constant [LOG2],
    which is [0.693147180559945], it holds [log(-expm1(-x_i))], and at
    every index whose entry is above [LOG2] it holds
    [log1p(-exp(-x_i))].  The constant is ln 2 cut after fifteen digits,
    and so is below ln 2. *)
Theorem log1mexpm_regimes (x : vec) :
  Forall (fun a => 0 <= a) x ->
  n_elem (log1mexpm x) = n_elem x /\
  forall i, (i < n_elem x)%nat ->
    (nth i x 0 <= LOG2 ->
       nth i (log1mexpm x) 0 = log (0 - expm1 (0 - nth i x 0))) /\
    (LOG2 < nth i x 0 ->
       nth i (log1mexpm x) 0 = log1p (0 - exp (0 - nth i x 0))).
Proof.
  intros _; unfold log1mexpm, n_elem, zeros; split.
  - now rewrite !set_elem_length, repeat_length.
  - intros i Hi.
    rewrite !elem_map.
    rewrite !nth_masked_assign
      by (rewrite ?set_elem_length, ?repeat_length; auto).
    split; intros H.
    + assert (E : Qltb LOG2 (nth i x 0) = false) by now apply Qltb_false.
      rewrite E; apply Qleb_true in H; now rewrite H.
    + apply Qltb_true in H; now rewrite H.
Qed.

(** C7: [log1pexp] returns at index [i]: [exp(x_i)] when [x_i <= -37];
    [log1p(exp(x_i))] when [-37 < x_i <= 18]; [x_i + exp(-x_i)] when
    [18 < x_i <= 33.3]; and [x_i] itself when [x_i > 33.3], in particular
    for every [x_i > 40]. *)
Theorem log1pexp_regimes (x : vec) :
  n_elem (log1pexp x) = n_elem x /\
  forall i, (i < n_elem x)%nat ->
    let xi := nth i x 0 in
    let yi := nth i (log1pexp x) 0 in
    (xi <= -37 -> yi = exp xi) /\
    (-37 < xi /\ xi <= 18 -> yi = log1p (exp xi)) /\
    (18 < xi /\ xi <= 333 # 10 -> yi = xi + exp (0 - xi)) /\
    (333 # 10 < xi -> yi = xi) /\
    (40 < xi -> yi = xi).
Proof.
  unfold log1pexp, n_elem, zeros; split.
  - now rewrite !set_elem_length, repeat_length.
  - intros i Hi; cbv zeta.
    rewrite vadd_elem_map, !elem_map.
    change (elem x ?idx) with (map (fun i => nth i x 0) idx).
    rewrite !nth_masked_assign
      by (rewrite ?set_elem_length, ?repeat_length; auto).
    set (xi := nth i x 0).
    assert (R3 : 333 # 10 < xi -> Qltb (333 # 10) xi = true)
      by apply Qltb_true.
    assert (R3' : xi <= 333 # 10 -> Qltb (333 # 10) xi = false)
      by apply Qltb_false.
    assert (R2 : 18 < xi -> Qltb 18 xi = true) by apply Qltb_true.
    assert (R2' : xi <= 18 -> Qltb 18 xi = false) by apply Qltb_false.
    assert (R2l : xi <= 333 # 10 -> Qleb xi (333 # 10) = true)
      by apply Qleb_true.
    assert (R1 : -37 < xi -> Qltb (-37) xi = true) by apply Qltb_true.
    assert (R1' : xi <= -37 -> Qltb (-37) xi = false) by apply Qltb_false.
    assert (R1l : xi <= 18 -> Qleb xi 18 = true) by apply Qleb_true.
    assert (R0 : xi <= -37 -> Qleb xi (-37) = true) by apply Qleb_true.
    repeat split.
    + intros H.
      rewrite R3', R2', R1', R0 by lra; reflexivity.
    + intros [H1 H2].
      rewrite R3', R2', R1, R1l by lra; reflexivity.
    + intros [H1 H2].
      rewrite R3', R2, R2l by lra; reflexivity.
    + intros H; rewrite R3 by lra; reflexivity.
    + intros H; rewrite R3 by lra; reflexivity.
Qed.

End WithLibm.

Lemma log1mexpm_regimes_witness :
  nth 0 (@log1mexpm Examples.rational_libm [1 # 2; 1]) 0 =
    @log Examples.rational_libm
         (0 - @expm1 Examples.rational_libm (0 - (1 # 2))) /\
  nth 1 (@log1mexpm Examples.rational_libm [1 # 2; 1]) 0 =
    @log1p Examples.rational_libm
           (0 - @exp Examples.rational_libm (0 - 1)).
Proof.
  assert (Hnn : Forall (fun a => 0 <= a) [1 # 2; 1])
    by (repeat constructor; discriminate).
  destruct (@log1mexpm_regimes Examples.rational_libm [1 # 2; 1] Hnn)
    as [_ H].
  split.
  - refine (proj1 (H 0%nat _) _); [simpl; lia | qcmp].
  - refine (proj2 (H 1%nat _) _); [simpl; lia | qcmp].
Defined.

(** C6, the threshold: the double [0x1.62e42fefa39eep-1] is above [LOG2]
    and below ln 2.  For it [log1mexpm] returns [log1p(-exp(-x))],
    whatever the math library, and not [log(-expm1(-x))], as the claim
    has it for an entry that is at most ln 2: with the library of
    polynomials the two differ. *)
Lemma log1mexpm_below_ln2_counterexample :
  LOG2 < Examples.below_ln2 /\
  Ln2.below_ln_2 Examples.below_ln2 /\
  (forall libm : Libm,
     @log1mexpm libm [Examples.below_ln2] =
     [@log1p libm (0 - @exp libm (0 - Examples.below_ln2))]) /\
  ~ nth 0 (@log1mexpm Examples.polynomial_libm [Examples.below_ln2]) 0
    == @log Examples.polynomial_libm
            (0 - @expm1 Examples.polynomial_libm (0 - Examples.below_ln2)).
Proof.
  split; [reflexivity|].
  split; [exact Ln2Facts.below_ln2_is_below|]; split.
  - intros libm; reflexivity.
  - vm_compute; discriminate.
Defined.

Lemma log1pexp_regimes_witness :
  nth 0 (@log1pexp Examples.rational_libm [-40; 0; 20; 41]) 0 =
    @exp Examples.rational_libm (-40) /\
  nth 1 (@log1pexp Examples.rational_libm [-40; 0; 20; 41]) 0 =
    @log1p Examples.rational_libm (@exp Examples.rational_libm 0) /\
  nth 2 (@log1pexp Examples.rational_libm [-40; 0; 20; 41]) 0 =
    20 + @exp Examples.rational_libm (0 - 20) /\
  nth 3 (@log1pexp Examples.rational_libm [-40; 0; 20; 41]) 0 = 41.
Proof.
  destruct (@log1pexp_regimes Examples.rational_libm [-40; 0; 20; 41])
    as [_ H].
  split; [|split; [|split]].
  - refine (proj1 (H 0%nat _) _); [simpl; lia | qcmp].
  - refine (proj1 (proj2 (H 1%nat _)) _); [simpl; lia | split; qcmp].
  - refine (proj1 (proj2 (proj2 (H 2%nat _))) _);
      [simpl; lia | split; qcmp].
  - refine (proj1 (proj2 (proj2 (proj2 (H 3%nat _)))) _);
      [simpl; lia | qcmp].
Defined.

End LogTransformsFacts.

(** ** Prediction *)

Module PredictFacts.
Import Predict.
Section WithServices.
Context {libm : Libm} {la : LinAlg}.

Lemma predict_mean_rows (betacoef : draws) (X_test : mat) (alpha cutoff : Q) :
  r_mean (predict_fast_logit betacoef X_test alpha cutoff) =
  map (fun r => accu (map (fun c => 1 / (1 + exp (- dot r c))) betacoef)
                / Qn (length betacoef)) X_test.
Proof.
  unfold predict_fast_logit, pred_mu, mean_rows; simpl.
  rewrite !map_map; apply map_ext; intros r.
  now rewrite !map_map, length_map.
Qed.


End WithServices.


End PredictFacts.

(** ** Truncated normal generator *)

Module TruncNormFacts.
Import TruncNorm.

Lemma set_subvec_length (a : nat) (v y : vec) :
  (a + length v <= length y)%nat -> length (set_subvec a v y) = length y.
Proof.
  intros H; unfold set_subvec.
  rewrite !length_app, length_firstn, length_skipn; lia.
Qed.

Lemma firstn_set_subvec (a : nat) (v y : vec) :
  (a + length v <= length y)%nat ->
  firstn (a + length v) (set_subvec a v y) = firstn a y ++ v.
Proof.
  intros H; unfold set_subvec.
  rewrite app_assoc, firstn_app.
  rewrite length_app, length_firstn.
  replace (Nat.min a (length y)) with a by lia.
  replace (a + length v - (a + length v))%nat with 0%nat by lia.
  rewrite firstn_all2 by (rewrite length_app, length_firstn; lia).
  simpl; now rewrite app_nil_r.
Qed.

Lemma Forall_elem (P : Q -> Prop) (z : vec) (idx : uvec) :
  (forall i, In i idx -> P (nth i z 0)) -> Forall P (elem z idx).
Proof.
  intros H; unfold elem; apply Forall_forall; intros a Ha.
  apply in_map_iff in Ha; destruct Ha as (i & <- & Hi); auto.
Qed.

Lemma elem_length (z : vec) (idx : uvec) : length (elem z idx) = length idx.
Proof. apply length_map. Qed.

Lemma elem_head_subvec (z : vec) (k : nat) (idx : uvec) :
  elem z (head_subvec k idx) = firstn k (elem z idx).
Proof. unfold elem, head_subvec; now rewrite firstn_map. Qed.

Lemma Forall_firstn (P : Q -> Prop) (k : nat) (l : vec) :
  Forall P l -> Forall P (firstn k l).
Proof.
  intros H; apply Forall_forall; intros a Ha.
  rewrite Forall_forall in H; apply H.
  rewrite <- (firstn_skipn k l); apply in_or_app; now left.
Qed.

Section Rounds.
Variable P : Q -> Prop.
Variable n : nat.

(** What a round of either loop does to the output. *)
Lemma filled_round (m : nat) (acc y : vec) :
  filled P n m y -> (m < n)%nat -> Forall P acc ->
  filled P n (m + length acc)
         (if (m + length acc <=? n)%nat then set_subvec m acc y
          else set_subvec m (firstn (n - m) acc) y).
Proof.
  intros [Hlen Hy] Hm Hacc.
  destruct (m + length acc <=? n)%nat eqn:E.
  - apply Nat.leb_le in E; split.
    + rewrite set_subvec_length; lia.
    + rewrite firstn_set_subvec by lia.
      apply Forall_app; split; auto.
  - apply Nat.leb_gt in E.
    assert (Hl : length (firstn (n - m) acc) = (n - m)%nat)
      by (rewrite length_firstn; lia).
    split.
    + rewrite set_subvec_length; lia.
    + rewrite firstn_all2 by (rewrite set_subvec_length; lia).
      unfold set_subvec.
      rewrite skipn_all2 by lia.
      rewrite app_nil_r; apply Forall_app; split; auto.
      now apply Forall_firstn.
Qed.

(** What the first batch does to the zero-initialised output. *)
Lemma filled_first (acc : vec) :
  Forall P acc ->
  filled P n (0 + length acc)
         (if (0 <? length acc)%nat then
            if (0 + length acc <=? n)%nat then set_subvec 0 acc (zeros n)
            else firstn n acc
          else zeros n).
Proof.
  intros Hacc; unfold zeros.
  destruct (0 <? length acc)%nat eqn:E0.
  - destruct (0 + length acc <=? n)%nat eqn:E.
    + apply Nat.leb_le in E; split.
      * rewrite set_subvec_length; rewrite repeat_length; lia.
      * rewrite firstn_set_subvec by (rewrite repeat_length; lia).
        simpl; exact Hacc.
    + apply Nat.leb_gt in E; split.
      * rewrite length_firstn; lia.
      * apply Forall_firstn; now apply Forall_firstn.
  - apply Nat.ltb_ge in E0.
    assert (length acc = 0)%nat by lia.
    split; [apply repeat_length|].
    replace (0 + length acc)%nat with 0%nat by lia; simpl; constructor.
Qed.

Lemma filled_done (m : nat) (y : vec) :
  filled P n m y -> (n <= m)%nat -> n_elem y = n /\ Forall P y.
Proof.
  intros [Hlen Hy] Hm; split; [exact Hlen|].
  rewrite firstn_all2 in Hy by lia; exact Hy.
Qed.

End Rounds.

Lemma zip_with_length (f : Q -> Q -> Q) (a b : vec) :
  length (zip_with f a b) = Nat.min (length a) (length b).
Proof.
  revert b; induction a as [|x a IH]; intros [|y b]; simpl; auto.
Qed.

Lemma cmp2_length (c : Q -> Q -> bool) (a b : vec) :
  length (cmp2 c a b) = Nat.min (length a) (length b).
Proof.
  revert b; induction a as [|x a IH]; intros [|y b]; simpl; auto.
Qed.

Section WithServices.
Context {libm : Libm} {rs : RandomSource} {rnd : Rounding}.

Variables (n : nat) (lower ratio : Q).

Lemma refill_plain_filled (fuel : nat) :
  forall (m : nat) (y : vec) (w w' : world) (y' : vec),
    filled (above lower) n m y ->
    refill_plain fuel n lower ratio m y w = (Some y', w') ->
    n_elem y' = n /\ Forall (above lower) y'.
Proof.
  induction fuel as [|fuel IH]; intros m y w w' y' Hf H; simpl in H;
    destruct (m <? n)%nat eqn:Em;
    try (unfold ret in H; inversion H; subst;
         apply Nat.ltb_ge in Em; now apply filled_done with m).
  apply Nat.ltb_lt in Em.
  unfold bind, randn in H.
  set (z := map randn_src _) in H.
  set (idx := find _) in H.
  destruct (0 <? length idx)%nat; [|now apply IH in H].
  apply IH in H; auto.
  assert (Hacc : Forall (above lower) (elem z idx)).
  { apply Forall_elem; intros i Hi; apply find_map_spec in Hi.
    destruct Hi as [_ Hi]; now apply Qltb_true in Hi. }
  pose proof (filled_round Hf Em Hacc) as F.
  now rewrite elem_length, <- elem_head_subvec in F.
Qed.

Hypothesis unif_open : forall k, 0 < randu_src k /\ randu_src k < 1.
Hypothesis log_neg : forall u, 0 < u -> u < 1 -> log u < 0.
Hypothesis sqrt_nonneg : forall x, 0 <= x -> 0 <= sqrt x.
Hypothesis fl_mono : forall a b, a <= b -> fl a <= fl b.
Hypothesis fl_zero : fl 0 == 0.
Hypothesis fl_lower : fl lower == lower.

Lemma fl_nonneg (x : Q) : 0 <= x -> 0 <= fl x.
Proof. intros H; rewrite <- fl_zero; now apply fl_mono. Qed.

Lemma fl_nonpos (x : Q) : x <= 0 -> fl x <= 0.
Proof. intros H; rewrite <- fl_zero; now apply fl_mono. Qed.

Lemma tilt_nonneg : 0 < lower -> 0 <= tilt lower.
Proof.
  intros Hl; unfold tilt.
  apply fl_nonneg.
  assert (H1 : 0 <= fl (lower * lower)) by (apply fl_nonneg; nra).
  assert (H2 : 0 <= fl (fl (lower * lower) + 4)) by (apply fl_nonneg; lra).
  apply sqrt_nonneg in H2.
  assert (H3 : 0 <= fl (lower + sqrt (fl (fl (lower * lower) + 4))))
    by (apply fl_nonneg; lra).
  unfold half; lra.
Qed.

(** A proposal is not below [lower]: the rounded increment
    [- log(u)/alpha_star] is not negative, and rounding the sum keeps
    it from falling below the representable [lower]. *)
Lemma proposal_at_least (alpha u : Q) :
  0 <= alpha -> 0 < u -> u < 1 -> lower <= proposal lower alpha u.
Proof.
  intros Ha Hu0 Hu1; unfold proposal.
  pose proof (log_neg Hu0 Hu1) as Hl.
  assert (Hq : log u / alpha <= 0).
  { unfold Qdiv.
    assert (0 <= / alpha) by now apply Qinv_le_0_compat.
    nra. }
  apply fl_nonpos in Hq.
  rewrite <- fl_lower at 1.
  apply fl_mono; lra.
Qed.

Lemma tilted_ok_mono (u0 u1 u2 : nat) (y : vec) :
  (u1 <= u2)%nat -> Forall (tilted_ok lower u0 u1) y -> Forall (tilted_ok lower u0 u2) y.
Proof.
  intros Hu; apply Forall_impl; intros v [Hv (i & j & Hi & Hj & E & A)].
  split; [exact Hv|]; exists i, j; repeat split; auto; lia.
Qed.

Lemma tilted_batch_cursor (alpha_star : Q) (k : nat) (w : world) :
  u_pos (snd (tilted_batch lower alpha_star k w)) = (u_pos w + k + k)%nat.
Proof. reflexivity. Qed.

(** Every accepted proposal of a batch is a proposal made and tested with
    variates of that batch, and is not below [lower]. *)
Lemma tilted_batch_accepted (u0 k : nat) (w : world) :
  0 < lower -> (u0 <= u_pos w)%nat ->
  Forall (tilted_ok lower u0 (u_pos w + k + k))
         (elem (fst (fst (tilted_batch lower (tilt lower) k w)))
               (snd (fst (tilted_batch lower (tilt lower) k w)))).
Proof.
  intros Hl Hu; unfold tilted_batch, bind, randu, ret; simpl.
  apply Forall_elem; intros i Hi.
  apply find_spec in Hi; destruct Hi as [Hi Hacc].
  rewrite cmp2_length, !length_map, !length_seq in Hi.
  assert (Hik : (i < k)%nat) by lia.
  rewrite (nth_indep _ 0 (proposal lower (tilt lower) (randu_src 0)))
    by (rewrite !length_map, length_seq; lia).
  rewrite (map_nth (proposal lower (tilt lower))).
  rewrite (map_nth randu_src), seq_nth by lia.
  split.
  - apply proposal_at_least; [now apply tilt_nonneg | apply unif_open ..].
  - exists (u_pos w + i)%nat, (u_pos w + k + i)%nat.
    split; [lia|]; split; [lia|]; split; [reflexivity|].
    revert Hacc; clear -Hik.
    set (r := map randu_src (seq (u_pos w) k)).
    set (u := map randu_src (seq (u_pos w + k) k)).
    assert (Hr : nth i r 0 = randu_src (u_pos w + i))
      by (unfold r; rewrite (nth_indep _ 0 (randu_src 0)),
            (map_nth randu_src), seq_nth
            by (rewrite ?length_map, ?length_seq; lia); reflexivity).
    assert (Hu : nth i u 0 = randu_src (u_pos w + k + i))
      by (unfold u; rewrite (nth_indep _ 0 (randu_src 0)),
            (map_nth randu_src), seq_nth
            by (rewrite ?length_map, ?length_seq; lia); reflexivity).
    assert (Hlr : length r = k) by (unfold r; now rewrite length_map, length_seq).
    assert (Hlu : length u = k) by (unfold u; now rewrite length_map, length_seq).
    rewrite <- Hr, <- Hu; clear Hr Hu.
    revert Hlr Hlu; generalize r u; clear r u.
    revert k Hik; induction i as [|i IH]; intros k Hik r u Hlr Hlu;
      destruct r as [|a r]; destruct u as [|b u]; simpl in *; try lia;
      [now intros ?|].
    apply (IH (pred k)); simpl; lia.
Qed.

Lemma refill_tilted_filled (u0 : nat) (fuel : nat) :
  0 < lower ->
  forall (m : nat) (y : vec) (w w' : world) (y' : vec),
    (u0 <= u_pos w)%nat ->
    filled (tilted_ok lower u0 (u_pos w)) n m y ->
    refill_tilted fuel n lower ratio (tilt lower) m y w = (Some y', w') ->
    n_elem y' = n /\ Forall (tilted_ok lower u0 (u_pos w')) y'.
Proof.
  intros Hl.
  induction fuel as [|fuel IH]; intros m y w w' y' Hu Hf H; simpl in H;
    destruct (m <? n)%nat eqn:Em;
    try (unfold ret in H; inversion H; subst;
         apply Nat.ltb_ge in Em; now apply filled_done with m).
  apply Nat.ltb_lt in Em.
  unfold bind at 1 in H.
  pose proof (@tilted_batch_accepted u0 (batch ratio (n - m)) w Hl Hu) as Hacc.
  pose proof (tilted_batch_cursor (tilt lower) (batch ratio (n - m)) w) as Hc.
  destruct (tilted_batch lower (tilt lower) (batch ratio (n - m)) w)
    as [[z idx] w1]; simpl in H, Hacc, Hc.
  rewrite <- Hc in Hacc.
  assert (Hf1 : filled (tilted_ok lower u0 (u_pos w1)) n m y).
  { destruct Hf as [Hlen Hy]; split; [exact Hlen|].
    apply tilted_ok_mono with (u_pos w); [lia | exact Hy]. }
  destruct (0 <? length idx)%nat;
    [|apply IH in H; auto; lia].
  apply IH in H; auto; [lia|].
  pose proof (filled_round Hf1 Em Hacc) as F.
  now rewrite elem_length, <- elem_head_subvec in F.
Qed.

(** The [lower > 0] branch as a whole. *)
Lemma rand_left_trucnorm0_tilted (fuel : nat) (w w' : world) (y : vec) :
  0 < lower ->
  rand_left_trucnorm0 fuel n lower ratio w = (Some y, w') ->
  n_elem y = n /\ Forall (tilted_ok lower (u_pos w) (u_pos w')) y.
Proof.
  intros Hl H; unfold rand_left_trucnorm0 in H.
  assert (El : Qleb lower 0 = false) by now apply Qleb_false.
  rewrite El in H.
  unfold bind at 1 in H.
  pose proof (@tilted_batch_accepted (u_pos w) (batch ratio n) w Hl
                (Nat.le_refl (u_pos w))) as Hacc.
  pose proof (tilted_batch_cursor (tilt lower) (batch ratio n) w) as Hc.
  destruct (tilted_batch lower (tilt lower) (batch ratio n) w)
    as [[z idx] w1]; simpl in H, Hacc, Hc.
  rewrite <- Hc in Hacc.
  apply (@refill_tilted_filled (u_pos w) fuel Hl) in H; auto; [lia|].
  pose proof (filled_first n Hacc) as F.
  now rewrite elem_length, <- elem_head_subvec in F.
Qed.

(** The [lower <= 0] branch as a whole. *)
Lemma rand_left_trucnorm0_plain (fuel : nat) (w w' : world) (y : vec) :
  lower <= 0 ->
  rand_left_trucnorm0 fuel n lower ratio w = (Some y, w') ->
  n_elem y = n /\ Forall (above lower) y.
Proof.
  intros Hl H; unfold rand_left_trucnorm0 in H.
  assert (El : Qleb lower 0 = true) by now apply Qleb_true.
  rewrite El in H.
  unfold bind at 1, randn in H.
  set (z := map randn_src _) in H.
  set (idx := find _) in H.
  apply refill_plain_filled in H; auto.
  assert (Hacc : Forall (above lower) (elem z idx)).
  { apply Forall_elem; intros i Hi; apply find_map_spec in Hi.
    destruct Hi as [_ Hi]; now apply Qltb_true in Hi. }
  pose proof (filled_first n Hacc) as F.
  now rewrite elem_length, <- elem_head_subvec in F.
Qed.

End WithServices.

End TruncNormFacts.

(** ** More on the truncated normal generators *)

Module TruncNormShifted.
Import TruncNorm TruncNormFacts.

Section WithServices.
Context {libm : Libm} {rs : RandomSource} {rnd : Rounding}.

Hypothesis unif_open : forall k, 0 < randu_src k /\ randu_src k < 1.
Hypothesis log_neg : forall u, 0 < u -> u < 1 -> log u < 0.
Hypothesis sqrt_nonneg : forall x, 0 <= x -> 0 <= sqrt x.
Hypothesis fl_mono : forall a b, a <= b -> fl a <= fl b.
Hypothesis fl_zero : fl 0 == 0.

(** What the standard generator hands to the two functions built on it:
    values that are not below the bound. *)
Lemma rand_left_trucnorm0_some (fuel n : nat) (lower ratio : Q) (w : world)
    (y : vec) :
  fl lower == lower ->
  fst (rand_left_trucnorm0 fuel n lower ratio w) = Some y ->
  length y = n /\ Forall (at_least lower) y.
Proof.
  intros Hfl H.
  destruct (rand_left_trucnorm0 fuel n lower ratio w) as [o w'] eqn:E.
  simpl in H; subst o.
  destruct (Qlt_le_dec 0 lower) as [Hl|Hl].
  - apply (@rand_left_trucnorm0_tilted libm rs rnd n lower ratio unif_open
             log_neg sqrt_nonneg fl_mono fl_zero Hfl fuel w w' y Hl) in E.
    destruct E as [Hn Hy]; split; [exact Hn|].
    revert Hy; apply Forall_impl; now intros v [Hv _].
  - apply (@rand_left_trucnorm0_plain libm rs rnd n lower ratio fuel w w' y
             Hl) in E.
    destruct E as [Hn Hy]; split; [exact Hn|].
    revert Hy; apply Forall_impl; unfold above, at_least; intros v Hv; lra.
Qed.

Lemma rescale_mono (mu sigma a b : Q) :
  0 < sigma -> a <= b -> rescale mu sigma a <= rescale mu sigma b.
Proof.
  intros Hs H; unfold rescale.
  apply fl_mono.
  assert (fl (a * sigma) <= fl (b * sigma)) by (apply fl_mono; nra).
  lra.
Qed.

Lemma rescale_anti (mu sigma a b : Q) :
  sigma < 0 -> a <= b -> rescale mu sigma b <= rescale mu sigma a.
Proof.
  intros Hs H; unfold rescale.
  apply fl_mono.
  assert (fl (b * sigma) <= fl (a * sigma)) by (apply fl_mono; nra).
  lra.
Qed.

End WithServices.

(** [rand_left_trucnorm] with a positive scale: when it returns, it
    returns [n] values, and none of them is below the number the code
    gets back from the standardised bound by [y *= sigma; y += mu].  The
    rounding is assumed monotone, and to leave zero and its own results
    as they are. *)
Theorem rand_left_trucnorm_above
    {libm : Libm} {rs : RandomSource} {rnd : Rounding}
    (unif_open : forall k, 0 < randu_src k /\ randu_src k < 1)
    (log_neg : forall u, 0 < u -> u < 1 -> log u < 0)
    (sqrt_nonneg : forall x, 0 <= x -> 0 <= sqrt x)
    (fl_mono : forall a b, a <= b -> fl a <= fl b)
    (fl_zero : fl 0 == 0)
    (fl_idem : forall x, fl (fl x) == fl x)
    (fuel n : nat) (mu sigma lower ratio : Q) (w : world) (y : vec) :
  0 < sigma ->
  fst (rand_left_trucnorm fuel n mu sigma lower ratio w) = Some y ->
  n_elem y = n /\
  Forall (fun v => rescale mu sigma (standardise mu sigma lower) <= v) y.
Proof.
  intros Hs H; unfold rand_left_trucnorm in H.
  rewrite bind_ret_eq in H; cbn [fst] in H.
  destruct (fst (rand_left_trucnorm0 fuel n (standardise mu sigma lower)
                                     ratio w))
    as [y0|] eqn:E; [|discriminate].
  apply (rand_left_trucnorm0_some unif_open log_neg sqrt_nonneg fl_mono
           fl_zero) in E; [|apply fl_idem].
  destruct E as [Hlen Hab].
  simpl in H; inversion H; subst y; split.
  - unfold n_elem; now rewrite length_map.
  - apply Forall_forall; intros v Hv.
    apply in_map_iff in Hv; destruct Hv as (a & <- & Ha).
    rewrite Forall_forall in Hab.
    apply (rescale_mono fl_mono); [exact Hs|]; now apply Hab.
Qed.

(** [rand_right_trucnorm] with a positive scale: when it returns, it
    returns [n] values, and none of them is above the number the code
    gets back from the standardised bound, with the sign turned. *)
Theorem rand_right_trucnorm_below
    {libm : Libm} {rs : RandomSource} {rnd : Rounding}
    (unif_open : forall k, 0 < randu_src k /\ randu_src k < 1)
    (log_neg : forall u, 0 < u -> u < 1 -> log u < 0)
    (sqrt_nonneg : forall x, 0 <= x -> 0 <= sqrt x)
    (fl_mono : forall a b, a <= b -> fl a <= fl b)
    (fl_zero : fl 0 == 0)
    (fl_idem : forall x, fl (fl x) == fl x)
    (fuel n : nat) (mu sigma upper ratio : Q) (w : world) (y : vec) :
  0 < sigma ->
  fst (rand_right_trucnorm fuel n mu sigma upper ratio w) = Some y ->
  n_elem y = n /\
  Forall (fun v =>
            v <= - rescale (- mu) sigma (standardise (- mu) sigma (- upper)))
         y.
Proof.
  intros Hs H; unfold rand_right_trucnorm, rand_left_trucnorm in H.
  rewrite !bind_ret_eq in H; cbn [fst] in H.
  destruct (fst (rand_left_trucnorm0 fuel n
                   (standardise (- mu) sigma (- upper)) ratio w))
    as [y0|] eqn:E; [|discriminate].
  apply (rand_left_trucnorm0_some unif_open log_neg sqrt_nonneg fl_mono
           fl_zero) in E; [|apply fl_idem].
  destruct E as [Hlen Hab].
  simpl in H; inversion H; subst y; split.
  - unfold n_elem; now rewrite !length_map.
  - apply Forall_forall; intros v Hv.
    apply in_map_iff in Hv; destruct Hv as (b & <- & Hb).
    apply in_map_iff in Hb; destruct Hb as (a & <- & Ha).
    rewrite Forall_forall in Hab.
    pose proof (@rescale_mono rnd fl_mono (- mu) sigma _ a Hs (Hab a Ha)).
    lra.
Qed.

(** [rand_left_trucnorm] with a negative scale turns the bound around:
    when it returns, none of the [n] values is above the number the code
    gets back from the standardised bound. *)
Theorem rand_left_trucnorm_negative_scale
    {libm : Libm} {rs : RandomSource} {rnd : Rounding}
    (unif_open : forall k, 0 < randu_src k /\ randu_src k < 1)
    (log_neg : forall u, 0 < u -> u < 1 -> log u < 0)
    (sqrt_nonneg : forall x, 0 <= x -> 0 <= sqrt x)
    (fl_mono : forall a b, a <= b -> fl a <= fl b)
    (fl_zero : fl 0 == 0)
    (fl_idem : forall x, fl (fl x) == fl x)
    (fuel n : nat) (mu sigma lower ratio : Q) (w : world) (y : vec) :
  sigma < 0 ->
  fst (rand_left_trucnorm fuel n mu sigma lower ratio w) = Some y ->
  n_elem y = n /\
  Forall (fun v => v <= rescale mu sigma (standardise mu sigma lower)) y.
Proof.
  intros Hs H; unfold rand_left_trucnorm in H.
  rewrite bind_ret_eq in H; cbn [fst] in H.
  destruct (fst (rand_left_trucnorm0 fuel n (standardise mu sigma lower)
                                     ratio w))
    as [y0|] eqn:E; [|discriminate].
  apply (rand_left_trucnorm0_some unif_open log_neg sqrt_nonneg fl_mono
           fl_zero) in E; [|apply fl_idem].
  destruct E as [Hlen Hab].
  simpl in H; inversion H; subst y; split.
  - unfold n_elem; now rewrite length_map.
  - apply Forall_forall; intros v Hv.
    apply in_map_iff in Hv; destruct Hv as (a & <- & Ha).
    rewrite Forall_forall in Hab.
    apply (rescale_anti fl_mono); [exact Hs|]; now apply Hab.
Qed.

Lemma rand_left_trucnorm_negative_scale_witness :
  exists y : vec,
    fst (@rand_left_trucnorm Examples.rational_libm Examples.cycling_source
           Examples.exact_rounding 3 2 10 (-2) 12 1 world0) = Some y /\
    n_elem y = 2%nat /\
    Forall (fun v => v <= @rescale Examples.exact_rounding 10 (-2)
                            (@standardise Examples.exact_rounding 10 (-2) 12))
           y.
Proof.
  eexists; split; [vm_compute; reflexivity|].
  eapply (@rand_left_trucnorm_negative_scale Examples.rational_libm
            Examples.cycling_source Examples.exact_rounding
            ExamplesFacts.cycling_unif_open ExamplesFacts.rational_log_neg
            ExamplesFacts.rational_sqrt_nonneg ExamplesFacts.exact_mono
            ExamplesFacts.exact_zero ExamplesFacts.exact_idem 3 2 10 (-2) 12 1 world0).
  - reflexivity.
  - vm_compute; reflexivity.
Defined.

Lemma rand_left_trucnorm_above_witness :
  exists y : vec,
    fst (@rand_left_trucnorm Examples.rational_libm Examples.cycling_source
           Examples.exact_rounding 3 2 10 2 12 1 world0) = Some y /\
    n_elem y = 2%nat /\
    Forall (fun v => @rescale Examples.exact_rounding 10 2
                       (@standardise Examples.exact_rounding 10 2 12) <= v)
           y.
Proof.
  eexists; split; [vm_compute; reflexivity|].
  eapply (@rand_left_trucnorm_above Examples.rational_libm
            Examples.cycling_source Examples.exact_rounding
            ExamplesFacts.cycling_unif_open ExamplesFacts.rational_log_neg
            ExamplesFacts.rational_sqrt_nonneg ExamplesFacts.exact_mono
            ExamplesFacts.exact_zero ExamplesFacts.exact_idem 3 2 10 2 12 1 world0).
  - reflexivity.
  - vm_compute; reflexivity.
Defined.

Lemma rand_right_trucnorm_below_witness :
  exists y : vec,
    fst (@rand_right_trucnorm Examples.rational_libm Examples.cycling_source
           Examples.exact_rounding 3 2 10 2 8 1 world0) = Some y /\
    n_elem y = 2%nat /\
    Forall (fun v => v <= - @rescale Examples.exact_rounding (- (10)) 2
                              (@standardise Examples.exact_rounding
                                 (- (10)) 2 (- (8))))
           y.
Proof.
  eexists; split; [vm_compute; reflexivity|].
  eapply (@rand_right_trucnorm_below Examples.rational_libm
            Examples.cycling_source Examples.exact_rounding
            ExamplesFacts.cycling_unif_open ExamplesFacts.rational_log_neg
            ExamplesFacts.rational_sqrt_nonneg ExamplesFacts.exact_mono
            ExamplesFacts.exact_zero ExamplesFacts.exact_idem 3 2 10 2 8 1 world0).
  - reflexivity.
  - vm_compute; reflexivity.
Defined.

End TruncNormShifted.

(** ** The loops of the standard truncated normal generator *)

Module TruncNormLoop.
Import TruncNorm TruncNormFacts TruncNormDraws.

Lemma batch_zero (ratio : Q) (k : nat) : ratio == 0 -> batch ratio k = 0%nat.
Proof.
  intros H; unfold batch.
  assert (E : ratio * Qn k == 0) by (rewrite H; ring).
  now rewrite (Qceiling_comp _ _ E).
Qed.

Lemma elem_find_from (f : Q -> bool) (z : vec) (k : nat) :
  map (fun i => nth (i - k) z 0) (find_from (map f z) k) = filter f z.
Proof.
  revert k; induction z as [|a z IH]; intros k;
    cbn [map find_from filter]; [reflexivity|].
  assert (E : map (fun i => nth (i - k) (a :: z) 0)
                  (find_from (map f z) (S k)) = filter f z).
  { rewrite <- (IH (S k)); apply map_ext_in; intros i Hi.
    apply find_from_spec in Hi; destruct Hi as [Hi _].
    replace (i - k)%nat with (S (i - S k)) by lia; reflexivity. }
  destruct (f a); [|exact E].
  cbn [map]; now rewrite Nat.sub_diag, E.
Qed.

Lemma elem_find_filter (f : Q -> bool) (z : vec) :
  elem z (find (map f z)) = filter f z.
Proof.
  unfold elem, find; rewrite <- (elem_find_from f z 0).
  apply map_ext; intros i; now rewrite Nat.sub_0_r.
Qed.

Section WithServices.
Context {libm : Libm} {rs : RandomSource} {rnd : Rounding}.

Variables (n : nat) (lower ratio : Q).

Lemma refill_plain_stuck (m : nat) :
  (m < n)%nat -> ratio == 0 ->
  forall (fuel : nat) (y : vec) (w : world),
    fst (refill_plain fuel n lower ratio m y w) = None.
Proof.
  intros Hm Hr fuel; apply Nat.ltb_lt in Hm.
  induction fuel as [|fuel IH]; intros y w; simpl; rewrite Hm;
    [reflexivity|].
  unfold bind at 1, randn; rewrite (batch_zero _ Hr); simpl.
  apply IH.
Qed.

Lemma refill_tilted_stuck (alpha_star : Q) (m : nat) :
  (m < n)%nat -> ratio == 0 ->
  forall (fuel : nat) (y : vec) (w : world),
    fst (refill_tilted fuel n lower ratio alpha_star m y w) = None.
Proof.
  intros Hm Hr fuel; apply Nat.ltb_lt in Hm.
  induction fuel as [|fuel IH]; intros y w; simpl; rewrite Hm;
    [reflexivity|].
  unfold bind at 1, tilted_batch, bind, randu, ret;
    rewrite (batch_zero _ Hr); simpl.
  apply IH.
Qed.

Lemma accepted_after_randn (n0 k : nat) (w : world) :
  (n0 <= n_pos w)%nat ->
  accepted lower n0 (snd (randn k w)) =
  accepted lower n0 w ++ filter (fun a => Qltb lower a) (fst (randn k w)).
Proof.
  intros H; unfold accepted, drawn, randn; simpl.
  replace (n_pos w + k - n0)%nat with ((n_pos w - n0) + k)%nat by lia.
  rewrite seq_app, map_app, filter_app.
  now replace (n0 + (n_pos w - n0))%nat with (n_pos w) by lia.
Qed.

Lemma refill_plain_order (n0 : nat) (fuel : nat) :
  forall (m : nat) (y : vec) (w w' : world) (y' : vec),
    (n0 <= n_pos w)%nat ->
    length y = n ->
    m = length (accepted lower n0 w) ->
    firstn m y = firstn n (accepted lower n0 w) ->
    refill_plain fuel n lower ratio m y w = (Some y', w') ->
    (n0 <= n_pos w')%nat /\ y' = firstn n (accepted lower n0 w').
Proof.
  induction fuel as [|fuel IH]; intros m y w w' y' Hn0 Hlen Hm Hy H;
    simpl in H; destruct (m <? n)%nat eqn:Em;
    try (unfold ret in H; inversion H; subst; apply Nat.ltb_ge in Em;
         split; [assumption|];
         rewrite <- Hy; symmetry; apply firstn_all2; lia).
  - discriminate.
  - apply Nat.ltb_lt in Em.
    unfold bind at 1 in H.
    pose proof (@accepted_after_randn n0 (batch ratio (n - m)) w Hn0) as HF.
    destruct (randn (batch ratio (n - m)) w) as [z w1] eqn:Ez.
    assert (Hz : z = map randn_src (seq (n_pos w) (batch ratio (n - m))))
      by (unfold randn in Ez; now inversion Ez).
    assert (Hw1 : (n0 <= n_pos w1)%nat)
      by (unfold randn in Ez; inversion Ez; simpl; lia).
    cbn [fst snd] in HF.
    set (idx := find (map (fun a => Qltb lower a) z)) in H.
    assert (Hacc : elem z idx = filter (fun a => Qltb lower a) z)
      by apply elem_find_filter.
    assert (Hli : length idx = length (filter (fun a => Qltb lower a) z))
      by (rewrite <- Hacc; symmetry; apply elem_length).
    assert (HFn : firstn n (accepted lower n0 w) = accepted lower n0 w)
      by (apply firstn_all2; lia).
    destruct (0 <? length idx)%nat eqn:E0.
    + apply IH in H; auto.
      * destruct (m + length idx <=? n)%nat eqn:E;
          rewrite set_subvec_length; auto.
        -- apply Nat.leb_le in E; rewrite elem_length; lia.
        -- apply Nat.leb_gt in E.
           rewrite elem_head_subvec, length_firstn, elem_length; lia.
      * rewrite HF, length_app; lia.
      * rewrite HF.
        destruct (m + length idx <=? n)%nat eqn:E.
        -- apply Nat.leb_le in E.
           rewrite <- (elem_length z idx).
           rewrite firstn_set_subvec by (rewrite elem_length; lia).
           rewrite Hy, HFn, Hacc.
           symmetry; apply firstn_all2; rewrite length_app; lia.
        -- apply Nat.leb_gt in E.
           rewrite firstn_all2
             by (rewrite set_subvec_length;
                 rewrite ?elem_head_subvec, ?length_firstn, ?elem_length;
                 lia).
           unfold set_subvec.
           rewrite skipn_all2
             by (rewrite elem_head_subvec, length_firstn, elem_length; lia).
           rewrite app_nil_r, elem_head_subvec, Hacc.
           rewrite firstn_app, HFn, <- Hm.
           now rewrite Hy, HFn.
    + apply Nat.ltb_ge in E0.
      assert (Hnil : filter (fun a => Qltb lower a) z = [])
        by (apply length_zero_iff_nil; lia).
      rewrite Hnil, app_nil_r in HF.
      apply IH in H; auto; now rewrite HF.
Qed.

End WithServices.

(** With [ratio = 0] every batch of proposals is empty: whatever the
    bound on the number of rounds, [rand_left_trucnorm0] is still in its
    loop when the bound is reached.  The call does not return. *)
Theorem rand_left_trucnorm0_zero_ratio
    {libm : Libm} {rs : RandomSource} {rnd : Rounding}
    (fuel n : nat) (lower ratio : Q) (w : world) :
  (1 <= n)%nat -> ratio == 0 ->
  fst (rand_left_trucnorm0 fuel n lower ratio w) = None.
Proof.
  intros Hn Hr; unfold rand_left_trucnorm0.
  destruct (Qleb lower 0).
  - unfold bind at 1, randn; rewrite (batch_zero _ Hr); simpl.
    apply refill_plain_stuck; [lia | exact Hr].
  - unfold bind at 1, tilted_batch, bind, randu, ret;
      rewrite (batch_zero _ Hr); simpl.
    apply refill_tilted_stuck; [lia | exact Hr].
Qed.

(** Asked for no value, [rand_left_trucnorm0] returns the empty vector
    at once: it draws one empty batch, does not enter its loop, and leaves
    the cursors of the generators where they were. *)
Theorem rand_left_trucnorm0_empty
    {libm : Libm} {rs : RandomSource} {rnd : Rounding}
    (fuel : nat) (lower ratio : Q) (w : world) :
  let r := rand_left_trucnorm0 fuel 0 lower ratio w in
  fst r = Some [] /\
  n_pos (snd r) = n_pos w /\ u_pos (snd r) = u_pos w.
Proof.
  cbv zeta; unfold rand_left_trucnorm0.
  assert (Hb : batch ratio 0 = 0%nat).
  { unfold batch.
    assert (E : ratio * Qn 0 == 0) by (unfold Qn; simpl; ring).
    now rewrite (Qceiling_comp _ _ E). }
  destruct (Qleb lower 0).
  - unfold bind at 1, randn; cbn [Nat.sub]; rewrite Hb; simpl.
    destruct fuel; simpl; repeat split; lia.
  - unfold bind at 1, tilted_batch, bind, randu, ret; rewrite Hb; simpl.
    destruct fuel; simpl; repeat split; lia.
Qed.

Lemma rand_left_trucnorm0_zero_ratio_witness :
  fst (@rand_left_trucnorm0 Examples.rational_libm Examples.cycling_source
         Examples.exact_rounding 5 1 (-1) 0 world0) = None /\
  fst (@rand_left_trucnorm0 Examples.rational_libm Examples.cycling_source
         Examples.exact_rounding 5 1 1 0 world0) = None.
Proof.
  split.
  - apply (@rand_left_trucnorm0_zero_ratio Examples.rational_libm
             Examples.cycling_source Examples.exact_rounding
             5 1 (-1) 0 world0); [lia|reflexivity].
  - apply (@rand_left_trucnorm0_zero_ratio Examples.rational_libm
             Examples.cycling_source Examples.exact_rounding
             5 1 1 0 world0); [lia|reflexivity].
Defined.

(** The [lower <= 0] branch returns the first [n] accepted variates of
    those drawn during the call. *)
Lemma rand_left_trucnorm0_plain_order
    {libm : Libm} {rs : RandomSource} {rnd : Rounding}
    (fuel n : nat) (lower ratio : Q) (w w' : world) (y : vec) :
  lower <= 0 ->
  rand_left_trucnorm0 fuel n lower ratio w = (Some y, w') ->
  (n_pos w <= n_pos w')%nat /\ y = firstn n (accepted lower (n_pos w) w').
Proof.
  intros Hl H; unfold rand_left_trucnorm0 in H.
  apply Qleb_true in Hl; rewrite Hl in H.
  unfold bind at 1 in H.
  assert (Hn0 : (n_pos w <= n_pos w)%nat) by lia.
  pose proof (@accepted_after_randn rs lower (n_pos w) (batch ratio (n - 0)) w
                Hn0) as HF.
  destruct (randn (batch ratio (n - 0)) w) as [z w1] eqn:Ez.
  assert (Hw1 : (n_pos w <= n_pos w1)%nat)
    by (unfold randn in Ez; inversion Ez; simpl; lia).
  cbn [fst snd] in HF.
  assert (H0 : accepted lower (n_pos w) w = []).
  { unfold accepted, drawn; now rewrite Nat.sub_diag. }
  rewrite H0 in HF; simpl in HF.
  set (idx := find (map (fun a => Qltb lower a) z)) in H.
  assert (Hacc : elem z idx = filter (fun a => Qltb lower a) z)
    by apply elem_find_filter.
  assert (Hli : length idx = length (filter (fun a => Qltb lower a) z))
    by (rewrite <- Hacc; symmetry; apply elem_length).
  apply (@refill_plain_order rs n lower ratio (n_pos w)) in H; auto.
  - destruct (0 <? length idx)%nat; [|apply repeat_length].
    simpl; destruct (length idx <=? n)%nat eqn:E.
    + apply Nat.leb_le in E.
      rewrite set_subvec_length; unfold zeros; rewrite repeat_length; auto.
      rewrite elem_length; lia.
    + apply Nat.leb_gt in E.
      rewrite elem_head_subvec, length_firstn, elem_length; lia.
  - rewrite HF; simpl; lia.
  - rewrite HF; simpl.
    destruct (0 <? length idx)%nat eqn:E0.
    + destruct (length idx <=? n)%nat eqn:E.
      * apply Nat.leb_le in E.
        rewrite <- (elem_length z idx).
        change (length (elem z idx)) with (0 + length (elem z idx))%nat.
        rewrite firstn_set_subvec
          by (unfold zeros; rewrite repeat_length, elem_length; lia).
        simpl; rewrite Hacc.
        symmetry; apply firstn_all2; lia.
      * apply Nat.leb_gt in E.
        rewrite elem_head_subvec, Hacc.
        apply firstn_all2; rewrite length_firstn; lia.
    + apply Nat.ltb_ge in E0.
      assert (Hnil : filter (fun a => Qltb lower a) z = [])
        by (apply length_zero_iff_nil; lia).
      rewrite Hnil; simpl.
      replace (length idx) with 0%nat by lia.
      now rewrite firstn_nil.
Qed.


(** The plain-rejection branch ([lower <= 0]) keeps the accepted normal
    variates in the order they were drawn: the vector returned is made of
    the first [n] variates greater than [lower] among those the call
    consumed, with none of them skipped, repeated or moved. *)
Theorem rand_left_trucnorm0_first_accepted
    {libm : Libm} {rs : RandomSource} {rnd : Rounding}
    (fuel n : nat) (lower ratio : Q) (w w' : world) (y : vec) :
  lower <= 0 ->
  rand_left_trucnorm0 fuel n lower ratio w = (Some y, w') ->
  (n_pos w <= n_pos w')%nat /\
  y = firstn n (filter (fun a => Qltb lower a)
                  (map randn_src (seq (n_pos w) (n_pos w' - n_pos w)))).
Proof.
  intros Hl H.
  exact (@rand_left_trucnorm0_plain_order libm rs rnd fuel n lower ratio w w'
           y Hl H).
Qed.

Lemma rand_left_trucnorm0_first_accepted_witness :
  exists (y : vec) (w' : world),
    @rand_left_trucnorm0 Examples.rational_libm Examples.cycling_source
      Examples.exact_rounding 3 2 (-1 # 2) 1 world0 = (Some y, w') /\
    y = firstn 2 (filter (fun a => Qltb (-1 # 2) a)
                    (map (@randn_src Examples.cycling_source)
                         (seq 0 (n_pos w' - 0)))).
Proof.
  eexists; eexists; split; [vm_compute; reflexivity|].
  refine (proj2 (@rand_left_trucnorm0_first_accepted Examples.rational_libm
                   Examples.cycling_source Examples.exact_rounding
                   3 2 (-1 # 2) 1 world0 _ _ _ _)).
  - discriminate.
  - vm_compute; reflexivity.
Defined.

(** C8, as the code has it: when [rand_left_trucnorm0] returns, it
    returns exactly [n] values and every slot holds an accepted draw, in
    both branches.  In the plain-rejection branch ([lower <= 0]) the
    values are the first [n] normal variates greater than [lower] drawn
    during the call, so each is strictly greater than [lower].  In the
    exponentially tilted branch ([lower > 0]) every value is a proposal
    [lower - log(u)/alpha_star] that passed the test, made and tested
    with uniform variates drawn during the call, and is not below
    [lower]; it can equal [lower], since the sum is rounded.  The tilted
    branch relies on the uniform variates lying strictly between 0 and 1,
    on [log] being negative there, on [sqrt] being nonnegative, and on a
    monotone rounding that leaves zero and [lower] as they are. *)
Theorem rand_left_trucnorm0_filled
    {libm : Libm} {rs : RandomSource} {rnd : Rounding}
    (unif_open : forall k, 0 < randu_src k /\ randu_src k < 1)
    (log_neg : forall u, 0 < u -> u < 1 -> log u < 0)
    (sqrt_nonneg : forall x, 0 <= x -> 0 <= sqrt x)
    (fl_mono : forall a b, a <= b -> fl a <= fl b)
    (fl_zero : fl 0 == 0)
    (fuel n : nat) (lower ratio : Q) (w w' : world) (y : vec) :
  (1 <= n)%nat -> 0 < ratio -> fl lower == lower ->
  rand_left_trucnorm0 fuel n lower ratio w = (Some y, w') ->
  n_elem y = n /\
  (lower <= 0 ->
   y = firstn n (accepted lower (n_pos w) w') /\ Forall (above lower) y) /\
  (0 < lower -> Forall (tilted_ok lower (u_pos w) (u_pos w')) y).
Proof.
  intros _ _ Hfl H.
  destruct (Qlt_le_dec 0 lower) as [Hl|Hl].
  - pose proof (@rand_left_trucnorm0_tilted libm rs rnd n lower ratio
                  unif_open log_neg sqrt_nonneg fl_mono fl_zero Hfl
                  fuel w w' y Hl H) as [Hn Hy].
    split; [exact Hn|]; split; [intros Hl'; lra | intros _; exact Hy].
  - pose proof (@rand_left_trucnorm0_plain libm rs rnd n lower ratio
                  fuel w w' y Hl H) as [Hn Hy].
    pose proof (@rand_left_trucnorm0_plain_order libm rs rnd fuel n lower
                  ratio w w' y Hl H) as [_ Ho].
    split; [exact Hn|]; split; [intros _; now split | intros Hl'; lra].
Qed.

Lemma rand_left_trucnorm0_filled_witness :
  (exists (y : vec) (w' : world),
     @rand_left_trucnorm0 Examples.rational_libm Examples.cycling_source
       Examples.exact_rounding 3 2 (-1 # 2) 1 world0 = (Some y, w') /\
     (2 < n_pos w')%nat /\
     n_elem y = 2%nat /\
     y = firstn 2 (@accepted Examples.cycling_source (-1 # 2) 0 w') /\
     Forall (above (-1 # 2)) y) /\
  (exists (y : vec) (w' : world),
     @rand_left_trucnorm0 Examples.rational_libm Examples.cycling_source
       Examples.exact_rounding 3 3 1 1 world0 = (Some y, w') /\
     (6 < u_pos w')%nat /\
     n_elem y = 3%nat /\
     Forall (@tilted_ok Examples.rational_libm Examples.cycling_source
               Examples.exact_rounding 1 0 (u_pos w')) y).
Proof.
  split.
  - eexists; eexists; split; [vm_compute; reflexivity|].
    split; [vm_compute; lia|].
    edestruct (@rand_left_trucnorm0_filled Examples.rational_libm
                Examples.cycling_source Examples.exact_rounding
                ExamplesFacts.cycling_unif_open ExamplesFacts.rational_log_neg
                ExamplesFacts.rational_sqrt_nonneg
                ExamplesFacts.exact_mono ExamplesFacts.exact_zero
                3 2 (-1 # 2) 1 world0)
      as (Hn & Hp & _);
      [lia | reflexivity | reflexivity | vm_compute; reflexivity |].
    split; [exact Hn|]; apply Hp; discriminate.
  - eexists; eexists; split; [vm_compute; reflexivity|].
    split; [vm_compute; lia|].
    edestruct (@rand_left_trucnorm0_filled Examples.rational_libm
                Examples.cycling_source Examples.exact_rounding
                ExamplesFacts.cycling_unif_open ExamplesFacts.rational_log_neg
                ExamplesFacts.rational_sqrt_nonneg
                ExamplesFacts.exact_mono ExamplesFacts.exact_zero
                3 3 1 1 world0)
      as (Hn & _ & Ht);
      [lia | reflexivity | reflexivity | vm_compute; reflexivity |].
    split; [exact Hn|]; apply Ht; reflexivity.
Defined.

(** C8, the claim's strict bound in the tilted branch: in binary64, with
    [lower = 1e8] and [ratio = 1], [alpha_star] is [1e8].  The second
    uniform variate of the source is [0.5], so the second proposal is
    [1e8 - log(0.5)/1e8], which is [1e8 + 6.93e-9] before rounding and
    [1e8] after, the doubles next to [1e8] being [1.49e-8] apart.  Then
    [log_rho_z] is zero, the test [log(u) < log_rho_z] accepts, and the
    value returned equals [lower]. *)
Lemma rand_left_trucnorm0_equals_lower_counterexample :
  exists (y : vec) (w' : world),
    @rand_left_trucnorm0 Examples.binary64_libm Examples.cycling_source
      Examples.binary64_rounding 0 2 100000000 1 world0 = (Some y, w') /\
    @tilt Examples.binary64_libm Examples.binary64_rounding 100000000
    == 100000000 /\
    nth 1 y 0 == 100000000 /\
    ~ Forall (above 100000000) y.
Proof.
  eexists; eexists; split; [vm_compute; reflexivity|].
  split; [vm_compute; reflexivity|].
  split; [vm_compute; reflexivity|].
  intros F; inversion F as [|a l Ha Fl]; subst.
  inversion Fl as [|b l' Hb _]; subst.
  revert Hb; vm_compute; discriminate.
Defined.

End TruncNormLoop.

(** ** Sums and products of vectors, up to equality of rationals *)

Module AccuFacts.

Lemma Qn_S (k : nat) : Qn (S k) == 1 + Qn k.
Proof.
  unfold Qn; rewrite Nat2Z.inj_succ, <- Z.add_1_l, inject_Z_plus.
  reflexivity.
Qed.

Lemma Qn_pos (k : nat) : (1 <= k)%nat -> 0 < Qn k.
Proof. intros H; unfold Qn, Qlt; simpl; lia. Qed.

Lemma dot_nil_r (r : vec) : dot r [] = 0.
Proof. now destruct r. Qed.

Lemma dot_cons (a b : Q) (r l : vec) :
  dot (a :: r) (b :: l) = a * b + dot r l.
Proof. reflexivity. Qed.

Lemma dot_map_ext {A : Type} (f g : A -> Q) (r : vec) (l : list A) :
  (forall j, f j == g j) -> dot r (map f l) == dot r (map g l).
Proof.
  intros H; revert r; induction l as [|j l IH]; intros [|a r];
    try reflexivity.
  cbn [map]; rewrite !dot_cons, IH, (H j); reflexivity.
Qed.

Lemma dot_map_zero {A : Type} (r : vec) (l : list A) :
  dot r (map (fun _ => 0) l) == 0.
Proof.
  revert r; induction l as [|j l IH]; intros [|a r]; try reflexivity.
  cbn [map]; rewrite dot_cons, IH; ring.
Qed.

Lemma dot_map_plus {A : Type} (f g : A -> Q) (r : vec) (l : list A) :
  dot r (map (fun j => f j + g j) l) == dot r (map f l) + dot r (map g l).
Proof.
  revert r; induction l as [|j l IH]; intros [|a r]; try reflexivity.
  cbn [map]; rewrite !dot_cons, IH; ring.
Qed.

Lemma dot_map_div {A : Type} (f : A -> Q) (K : Q) (r : vec) (l : list A) :
  dot r (map (fun j => f j / K) l) == dot r (map f l) / K.
Proof.
  revert r; induction l as [|j l IH]; intros [|a r];
    try (unfold Qdiv; cbn; ring).
  cbn [map]; rewrite !dot_cons, IH; unfold Qdiv; ring.
Qed.

Lemma map_nth_seq (c : vec) : map (fun j => nth j c 0) (seq 0 (length c)) = c.
Proof.
  apply nth_ext with (d := 0) (d' := 0).
  - now rewrite length_map, length_seq.
  - intros k Hk; rewrite length_map, length_seq in Hk.
    rewrite (nth_indep _ 0 (nth 0 c 0)) by now rewrite length_map, length_seq.
    rewrite (map_nth (fun j => nth j c 0)), seq_nth by exact Hk.
    reflexivity.
Qed.

(** The sum over the draws of the products with a row is the product of
    the row with the sums over the draws. *)
Lemma accu_dot_columns (r : vec) (p : nat) (L : draws) :
  Forall (fun c => n_elem c = p) L ->
  accu (map (fun c => dot r c) L)
  == dot r (map (fun j => accu (map (fun c => nth j c 0) L)) (seq 0 p)).
Proof.
  induction 1 as [|c L Hc HL IH]; cbn [map accu fold_right].
  - now rewrite dot_map_zero.
  - fold (accu (map (fun c0 => dot r c0) L)).
    rewrite dot_map_plus, <- IH.
    unfold n_elem in Hc; rewrite <- Hc.
    now rewrite map_nth_seq.
Qed.

Lemma accu_unit_closed (l : vec) :
  Forall unit_closed l -> 0 <= accu l /\ accu l <= Qn (length l).
Proof.
  induction l as [|a l IH]; intros Hl.
  - split; discriminate.
  - inversion Hl as [|? ? [Ha0 Ha1] Hl']; subst.
    cbn [accu fold_right length]; fold (accu l); rewrite Qn_S.
    destruct (IH Hl') as [H0 H1]; split; lra.
Qed.

(** The mean of numbers between 0 and 1 lies between 0 and 1. *)
Lemma mean_unit_closed (l : vec) :
  l <> [] -> Forall unit_closed l -> unit_closed (accu l / Qn (length l)).
Proof.
  intros Hne Hl; destruct (accu_unit_closed Hl) as [H0 H1].
  assert (HK : 0 < Qn (length l))
    by (apply Qn_pos; destruct l; [congruence | simpl; lia]).
  split.
  - now apply PositivityFacts.Qdiv_nonneg.
  - apply Qle_shift_div_r; [exact HK | lra].
Qed.

End AccuFacts.

(** ** Predictions *)

Module PredictMore.
Import Predict AccuFacts.

Section WithServices.
Context {libm : Libm} {la : LinAlg}.

Lemma nth_map_rows {A : Type} (g : list Q -> A) (X : mat) (i : nat) (d : A) :
  (i < n_rows X)%nat -> nth i (map g X) d = g (nth i X []).
Proof.
  intros Hi; rewrite (nth_indep _ d (g [])) by now rewrite length_map.
  apply map_nth.
Qed.

Lemma predict_class_nth (betacoef : draws) (X_test : mat) (alpha cutoff : Q)
    (i : nat) :
  (i < n_rows X_test)%nat ->
  let r := predict_fast_logit betacoef X_test alpha cutoff in
  nth i (r_class r) 0%nat =
  if Qltb cutoff (nth i (r_mean r) 0) then 1%nat else 0%nat.
Proof.
  intros Hi r; unfold r, predict_fast_logit; simpl.
  set (pm := mean_rows _).
  assert (Hpm : length pm = n_rows X_test)
    by (unfold pm, mean_rows, pred_mu; now rewrite !length_map).
  rewrite nth_set_elem_ones.
  - destruct (in_dec Nat.eq_dec i _) as [Hin|Hnin].
    + apply find_map_spec in Hin; destruct Hin as [_ ->]; reflexivity.
    + rewrite nth_repeat_0.
      destruct (Qltb cutoff (nth i pm 0)) eqn:E; [|reflexivity].
      exfalso; apply Hnin, find_map_spec; split; auto.
      rewrite Hpm; exact Hi.
  - intros j Hj; apply find_map_spec in Hj.
    rewrite repeat_length; unfold n_elem; tauto.
Qed.

(** The logistic function lies between 0 and 1 as soon as [exp] is not
    negative; it reaches 1 when [exp] returns zero. *)
Lemma logistic_unit_closed (m : Q) :
  (forall x, 0 <= exp x) -> unit_closed (1 / (1 + exp (- m))).
Proof.
  intros Hexp; pose proof (Hexp (- m)) as He; split.
  - apply PositivityFacts.Qdiv_nonneg; lra.
  - apply Qle_shift_div_r; lra.
Qed.

End WithServices.

(** [predict_fast_lm] predicts at the posterior mean: with at least one
    retained draw, the predictive mean of test row [i] is the product of
    that row with the mean of the retained coefficient draws, which is the
    [betacoef] the fitting functions return in [post_mean]. *)
Theorem predict_fast_lm_mean_at_posterior_mean
    {la : LinAlg} (betacoef : draws) (X_test : mat) (alpha : Q)
    (p i : nat) :
  betacoef <> [] ->
  Forall (fun c => n_elem c = p) betacoef ->
  Forall (fun r => n_elem r = p) X_test ->
  (i < n_rows X_test)%nat ->
  let r := PredictLm.predict_fast_lm betacoef X_test alpha in
  n_elem (PredictLm.p_mean r) = n_rows X_test /\
  nth i (PredictLm.p_mean r) 0
  == dot (nth i X_test []) (mean_cols p betacoef).
Proof.
  intros _ Hc _ Hi r; unfold r, PredictLm.predict_fast_lm; simpl.
  unfold mean_rows, pred_mu, n_elem; rewrite map_map; split.
  - apply length_map.
  - rewrite nth_map_rows by exact Hi.
    rewrite length_map; unfold mean_cols.
    rewrite dot_map_div, <- accu_dot_columns by exact Hc.
    reflexivity.
Qed.

Lemma predict_fast_lm_mean_at_posterior_mean_witness :
  nth 1 (PredictLm.p_mean
           (@PredictLm.predict_fast_lm Examples.column_linalg
              [[1; 2]; [3; 4]] [[1; 0]; [1; 1]] (95 # 100))) 0
  == dot [1; 1] (mean_cols 2 [[1; 2]; [3; 4]]).
Proof.
  refine (proj2 (@predict_fast_lm_mean_at_posterior_mean
                   Examples.column_linalg [[1; 2]; [3; 4]] [[1; 0]; [1; 1]]
                   (95 # 100) 2 1 _ _ _ _)).
  - discriminate.
  - repeat constructor.
  - repeat constructor.
  - simpl; lia.
Defined.

(** With an [exp] that is not negative and at least one retained draw,
    every posterior mean probability [predict_fast_logit] returns lies
    between 0 and 1, the two ends included.  So a cutoff of 1 or more
    gives class 0 to every row, and a negative cutoff gives class 1 to
    every row. *)
Theorem predict_fast_logit_mean_is_probability
    {libm : Libm} {la : LinAlg} (exp_nonneg : forall x, 0 <= exp x)
    (betacoef : draws) (X_test : mat) (alpha cutoff : Q) (i : nat) :
  betacoef <> [] ->
  (i < n_rows X_test)%nat ->
  let r := predict_fast_logit betacoef X_test alpha cutoff in
  (0 <= nth i (r_mean r) 0 /\ nth i (r_mean r) 0 <= 1) /\
  (1 <= cutoff -> nth i (r_class r) 0%nat = 0%nat) /\
  (cutoff < 0 -> nth i (r_class r) 0%nat = 1%nat).
Proof.
  intros Hne Hi r.
  assert (Hm : unit_closed (nth i (r_mean r) 0)).
  { unfold r; rewrite PredictFacts.predict_mean_rows.
    rewrite nth_map_rows by exact Hi.
    rewrite <- (length_map
                  (fun c => 1 / (1 + exp (- dot (nth i X_test []) c)))).
    apply mean_unit_closed.
    - destruct betacoef; [congruence | discriminate].
    - apply Forall_forall; intros v Hv.
      apply in_map_iff in Hv; destruct Hv as (c & <- & _).
      now apply logistic_unit_closed. }
  pose proof (predict_class_nth betacoef X_test alpha cutoff Hi) as Hc.
  fold r in Hc; cbv zeta in Hc; destruct Hm as [H0 H1].
  split; [now split|]; rewrite Hc; split; intros H.
  - assert (E : Qltb cutoff (nth i (r_mean r) 0) = false)
      by (apply Qltb_false; lra).
    now rewrite E.
  - assert (E : Qltb cutoff (nth i (r_mean r) 0) = true)
      by (apply Qltb_true; lra).
    now rewrite E.
Qed.

Lemma rational_exp_pos (x : Q) : 0 < @exp Examples.rational_libm x.
Proof.
  cbv [exp Examples.rational_libm].
  destruct (Qltb x 0) eqn:E.
  - apply Qltb_true in E; apply PositivityFacts.Qdiv_pos; lra.
  - apply Qltb_false in E; lra.
Qed.

Lemma rational_exp_nonneg (x : Q) : 0 <= @exp Examples.rational_libm x.
Proof. apply Qlt_le_weak, rational_exp_pos. Qed.

Lemma predict_fast_logit_mean_is_probability_witness :
  let r := @predict_fast_logit Examples.rational_libm Examples.column_linalg
             [[1]; [3]] [[1]; [0]] (95 # 100) 1 in
  (0 <= nth 0 (r_mean r) 0 /\ nth 0 (r_mean r) 0 <= 1) /\
  nth 0 (r_class r) 0%nat = 0%nat.
Proof.
  cbv zeta.
  destruct (@predict_fast_logit_mean_is_probability Examples.rational_libm
              Examples.column_linalg rational_exp_nonneg
              [[1]; [3]] [[1]; [0]] (95 # 100) 1 0)
    as (Hm & Hc & _); [discriminate | simpl; lia |].
  split; [exact Hm|].
  apply Hc; discriminate.
Defined.

End PredictMore.

(** ** Simulated data *)

Module SimulateFacts.
Import Simulate AccuFacts.

Lemma cols_head (p : nat) (x : mat) (q : Z) :
  cols p x 0 (q - 1) =
  if ((1 <=? q) && (q <=? Z.of_nat p))%Z
  then Some (map (firstn (Z.to_nat q)) x) else None.
Proof.
  unfold cols.
  destruct (1 <=? q)%Z eqn:E1; destruct (q <=? Z.of_nat p)%Z eqn:E2;
    destruct (0 <=? q - 1)%Z eqn:E3; destruct (q - 1 <? Z.of_nat p)%Z eqn:E4;
    simpl; try reflexivity; try lia.
  f_equal; apply map_ext; intros r.
  now replace (q - 1 - 0 + 1)%Z with q by lia.
Qed.

Lemma repmat_pair_length (b : Q) (k : nat) :
  length (repmat [b; - b] k) = (2 * k)%nat.
Proof.
  unfold repmat; induction k as [|k IH]; simpl in *; [reflexivity|].
  rewrite IH; lia.
Qed.

Lemma repmat_pair_nth (b : Q) (k i : nat) :
  (i < 2 * k)%nat ->
  nth i (repmat [b; - b] k) 0 = if Nat.even i then b else - b.
Proof.
  unfold repmat; revert i; induction k as [|k IH]; intros i Hi; [lia|].
  destruct i as [|[|i]]; try reflexivity.
  change (nth (S (S i)) (concat (repeat [b; - b] (S k))) 0)
    with (nth i (concat (repeat [b; - b] k)) 0).
  rewrite IH by lia; reflexivity.
Qed.

(** The coefficient vector both simulators return. *)
Lemma true_coefficients (b : Q) (p : nat) (q : Z) :
  (1 <= q <= Z.of_nat p)%Z ->
  let qh := Z.quot q 2 in
  let beta_nonzero := repmat [b; - b] (Z.to_nat qh) in
  let beta_nonzero :=
    if (2 * qh <? q)%Z then beta_nonzero ++ [b] else beta_nonzero in
  length beta_nonzero = Z.to_nat q /\
  length (beta_nonzero ++ zeros (p - Z.to_nat q)) = p /\
  forall k, (k < p)%nat ->
    nth k (beta_nonzero ++ zeros (p - Z.to_nat q)) 0 =
    if (Z.of_nat k <? q)%Z
    then (if Nat.even k then b else - b) else 0.
Proof.
  intros Hq; cbv zeta.
  pose proof (Z.quot_rem' q 2) as Hqr.
  pose proof (Z.rem_bound_pos q 2) as Hr.
  set (qh := Z.quot q 2) in *.
  assert (Hqh : (0 <= qh)%Z) by (apply Z.quot_pos; lia).
  set (bn := if (2 * qh <? q)%Z then _ else _).
  assert (Hlen : length bn = Z.to_nat q).
  { unfold bn; destruct (2 * qh <? q)%Z eqn:E.
    - apply Z.ltb_lt in E.
      rewrite length_app, repmat_pair_length; simpl; lia.
    - apply Z.ltb_ge in E; rewrite repmat_pair_length; lia. }
  assert (Hnth : forall k, (k < Z.to_nat q)%nat ->
            nth k bn 0 = if Nat.even k then b else - b).
  { intros k Hk; unfold bn; destruct (2 * qh <? q)%Z eqn:E.
    - apply Z.ltb_lt in E.
      destruct (Nat.lt_ge_cases k (2 * Z.to_nat qh)) as [Hlt|Hge].
      + rewrite app_nth1 by now rewrite repmat_pair_length.
        now apply repmat_pair_nth.
      + rewrite app_nth2 by now rewrite repmat_pair_length.
        rewrite repmat_pair_length.
        assert (Ek : k = (2 * Z.to_nat qh)%nat) by lia.
        rewrite Ek, Nat.sub_diag, Nat.even_mul; reflexivity.
    - apply Z.ltb_ge in E; apply repmat_pair_nth; lia. }
  split; [exact Hlen|]; split.
  - rewrite length_app, Hlen; unfold zeros; rewrite repeat_length; lia.
  - intros k Hk.
    destruct (Z.of_nat k <? q)%Z eqn:E.
    + apply Z.ltb_lt in E.
      rewrite app_nth1 by lia; apply Hnth; lia.
    + apply Z.ltb_ge in E.
      rewrite app_nth2 by lia.
      unfold zeros; apply nth_repeat.
Qed.

Lemma dot_zeros (r : vec) (k : nat) : dot r (zeros k) == 0.
Proof.
  unfold zeros; revert r; induction k as [|k IH]; intros [|a r];
    try reflexivity.
  cbn [repeat]; rewrite dot_cons, IH; ring.
Qed.

(** The product of the leading columns with the nonzero coefficients is
    the product of the whole row with the padded coefficient vector. *)
Lemma dot_firstn_pad (b r : vec) (k : nat) :
  dot (firstn (length b) r) b == dot r (b ++ zeros k).
Proof.
  revert r; induction b as [|b0 b IH]; intros r.
  - simpl; now rewrite dot_zeros.
  - destruct r as [|a r]; [reflexivity|].
    cbn [length firstn app]; rewrite !dot_cons, IH; reflexivity.
Qed.

Lemma nth_zip_with (f : Q -> Q -> Q) (a b : vec) (i : nat) :
  (i < length a)%nat -> (i < length b)%nat ->
  nth i (zip_with f a b) 0 = f (nth i a 0) (nth i b 0).
Proof.
  revert b i; induction a as [|x a IH]; intros [|y b] [|i] Ha Hb;
    simpl in *; try lia; try reflexivity.
  apply IH; lia.
Qed.

Lemma nth_cmp2 (c : Q -> Q -> bool) (a b : vec) (i : nat) :
  (i < length a)%nat -> (i < length b)%nat ->
  nth i (cmp2 c a b) false = c (nth i a 0) (nth i b 0).
Proof.
  revert b i; induction a as [|x a IH]; intros [|y b] [|i] Ha Hb;
    simpl in *; try lia; try reflexivity.
  apply IH; lia.
Qed.

Lemma nth_map_seq {A : Type} (g : nat -> A) (s k i : nat) (d : A) :
  (i < k)%nat -> nth i (map g (seq s k)) d = g (s + i)%nat.
Proof.
  intros Hi.
  rewrite (nth_indep _ d (g 0%nat)) by now rewrite length_map, length_seq.
  now rewrite map_nth, seq_nth.
Qed.

Lemma add_to_cols_rows (x : mat) (z : vec) :
  n_rows (add_to_cols x z) = n_rows x.
Proof. unfold add_to_cols, n_rows; now rewrite length_map, length_seq. Qed.

Section WithServices.
Context {libm : Libm} {rs : RandomSource} {stats : Stats}.

Lemma randn_mat_rows (n p : nat) (w : world) :
  n_rows (fst (randn_mat n p w)) = n.
Proof. unfold randn_mat, n_rows; simpl; now rewrite length_map, length_seq. Qed.

(** What [sim_linear_reg] returns on the values of [q] that pass
    [x.cols(0, q - 1)]. *)
Lemma sim_linear_reg_some (n p : nat) (q : Z) (R2 X_cor beta_size : Q)
    (w : world) :
  (1 <= q <= Z.of_nat p)%Z ->
  let x := add_to_cols (mscale (sqrt (1 - X_cor)) (fst (randn_mat n p w)))
             (vscale (sqrt X_cor)
                     (map randn_src (seq (n_pos w + n * p) n))) in
  let qh := Z.quot q 2 in
  let b0 := repmat [beta_size; - beta_size] (Z.to_nat qh) in
  let beta_nonzero :=
    if (2 * qh <? q)%Z then b0 ++ [beta_size] else b0 in
  let y0 := mv (map (firstn (Z.to_nat q)) x) beta_nonzero in
  let sigma2 := var y0 * (1 - R2) / R2 in
  let e := map randn_src (seq (n_pos w + n * p + n) n) in
  fst (sim_linear_reg n p q R2 X_cor beta_size w) =
  Some (mkLinear (vadd y0 (map (fun a => a * sqrt sigma2) e)) x
                 (beta_nonzero ++ zeros (p - Z.to_nat q))
                 R2 sigma2 X_cor).
Proof.
  intros Hq; cbv zeta.
  unfold sim_linear_reg, bind, randn, ret; simpl.
  rewrite cols_head.
  assert (E : ((1 <=? q) && (q <=? Z.of_nat p))%Z = true)
    by (apply andb_true_iff; split; [apply Z.leb_le|apply Z.leb_le]; lia).
  rewrite E; reflexivity.
Qed.

Lemma sim_linear_reg_none (n p : nat) (q : Z) (R2 X_cor beta_size : Q)
    (w : world) :
  ~ (1 <= q <= Z.of_nat p)%Z ->
  fst (sim_linear_reg n p q R2 X_cor beta_size w) = None.
Proof.
  intros Hq.
  unfold sim_linear_reg, bind, randn, ret; simpl.
  rewrite cols_head.
  assert (E : ((1 <=? q) && (q <=? Z.of_nat p))%Z = false).
  { apply andb_false_iff.
    destruct (Z.le_gt_cases 1 q); [right|left]; apply Z.leb_gt; lia. }
  rewrite E; reflexivity.
Qed.

End WithServices.

(** [sim_linear_reg] returns its list exactly when the number [q] of
    nonzero coefficients is at least 1 and at most [p]: with [q = 0], with
    a negative [q] and with [q > p] the selection of the first [q] columns
    of [X] is refused. *)
Theorem sim_linear_reg_returns
    {libm : Libm} {rs : RandomSource} {stats : Stats}
    (n p : nat) (q : Z) (R2 X_cor beta_size : Q) (w : world) :
  (1 <= n)%nat ->
  ((exists d, fst (sim_linear_reg n p q R2 X_cor beta_size w) = Some d)
   <-> (1 <= q <= Z.of_nat p)%Z).
Proof.
  intros _; split.
  - intros [d Hd].
    destruct (Z_le_dec 1 q) as [H1|H1];
      [destruct (Z_le_dec q (Z.of_nat p)) as [H2|H2]; [lia|]|];
      rewrite sim_linear_reg_none in Hd by lia; discriminate.
  - intros Hq; eexists; now apply sim_linear_reg_some.
Qed.

(** The coefficient vector [sim_linear_reg] returns has [p] entries: the
    first [q] are [beta_size] and [- beta_size] in alternation, starting
    with [beta_size], and the other [p - q] are zero. *)
Theorem sim_linear_reg_coefficients
    {libm : Libm} {rs : RandomSource} {stats : Stats}
    (n p : nat) (q : Z) (R2 X_cor beta_size : Q) (w : world)
    (d : linear_data) :
  fst (sim_linear_reg n p q R2 X_cor beta_size w) = Some d ->
  n_elem (ld_betacoef d) = p /\
  forall k, (k < p)%nat ->
    nth k (ld_betacoef d) 0 =
    if (Z.of_nat k <? q)%Z
    then (if Nat.even k then beta_size else - beta_size) else 0.
Proof.
  intros Hd.
  assert (Hq : (1 <= q <= Z.of_nat p)%Z).
  { destruct (Z_le_dec 1 q) as [H1|H1];
      [destruct (Z_le_dec q (Z.of_nat p)) as [H2|H2]; [lia|]|];
      rewrite sim_linear_reg_none in Hd by lia; discriminate. }
  rewrite (@sim_linear_reg_some _ _ _ n p q R2 X_cor beta_size w Hq) in Hd.
  inversion Hd; subst d; cbn [ld_betacoef].
  destruct (true_coefficients beta_size p Hq) as (_ & Hlen & Hnth).
  split; [exact Hlen | exact Hnth].
Qed.

(** The data [sim_linear_reg] returns obey the linear model with the
    coefficients it returns: [X] has [n] rows, [y] has [n] entries, and
    [y_i] is the product of row [i] of [X] with [betacoef], plus
    [sqrt(sigma2)] times a standard normal variate drawn after those that
    made [X]. *)
Theorem sim_linear_reg_model
    {libm : Libm} {rs : RandomSource} {stats : Stats}
    (n p : nat) (q : Z) (R2 X_cor beta_size : Q) (w : world)
    (d : linear_data) :
  ~ R2 == 0 ->
  fst (sim_linear_reg n p q R2 X_cor beta_size w) = Some d ->
  n_rows (ld_X d) = n /\ n_elem (ld_y d) = n /\
  forall i, (i < n)%nat ->
    nth i (ld_y d) 0
    == dot (nth i (ld_X d) []) (ld_betacoef d)
       + randn_src (n_pos w + n * p + n + i) * sqrt (ld_sigma2 d).
Proof.
  intros _ Hd.
  assert (Hq : (1 <= q <= Z.of_nat p)%Z).
  { destruct (Z_le_dec 1 q) as [H1|H1];
      [destruct (Z_le_dec q (Z.of_nat p)) as [H2|H2]; [lia|]|];
      rewrite sim_linear_reg_none in Hd by lia; discriminate. }
  rewrite (@sim_linear_reg_some _ _ _ n p q R2 X_cor beta_size w Hq) in Hd.
  destruct (true_coefficients beta_size p Hq) as (Hlb & _ & _).
  cbv zeta in Hlb.
  set (x := add_to_cols _ _) in Hd.
  set (bn := if (2 * Z.quot q 2 <? q)%Z then _ else _) in *.
  inversion Hd; subst d; cbn [ld_X ld_y ld_betacoef ld_sigma2].
  assert (Hx : n_rows x = n).
  { unfold x; rewrite add_to_cols_rows.
    unfold mscale, n_rows; rewrite length_map; apply randn_mat_rows. }
  assert (Hy0 : length (mv (map (firstn (Z.to_nat q)) x) bn) = n)
    by (unfold mv; now rewrite !length_map).
  split; [exact Hx|]; split.
  - unfold n_elem, vadd.
    rewrite TruncNormFacts.zip_with_length, Hy0, length_map, length_map, length_seq.
    apply Nat.min_id.
  - intros i Hi; unfold vadd.
    rewrite nth_zip_with
      by (rewrite ?Hy0, ?length_map, ?length_seq; exact Hi).
    apply Qplus_comp.
    + unfold mv; rewrite map_map.
      rewrite (nth_indep _ 0 (dot (firstn (Z.to_nat q) []) bn))
        by (rewrite length_map; fold (n_rows x); now rewrite Hx).
      rewrite (map_nth (fun r => dot (firstn (Z.to_nat q) r) bn)).
      rewrite <- Hlb; apply dot_firstn_pad.
    + rewrite (nth_indep _ 0 (0 * sqrt (var (mv (map (firstn (Z.to_nat q)) x) bn)
                                          * (1 - R2) / R2)))
        by (rewrite !length_map, length_seq; exact Hi).
      rewrite (map_nth (fun a => a * sqrt _)).
      rewrite nth_map_seq by exact Hi; reflexivity.
Qed.

Section Logit.
Context {libm : Libm} {rs : RandomSource} {stats : Stats}.

Lemma sim_logit_reg_some (n p : nat) (q : Z) (X_cor X_var beta_size : Q)
    (w : world) :
  (1 <= q <= Z.of_nat p)%Z ->
  let x := map (map (fun a => a * sqrt X_var))
             (add_to_cols
                (mscale (sqrt (1 - X_cor)) (fst (randn_mat n p w)))
                (vscale (sqrt X_cor)
                        (map randn_src (seq (n_pos w + n * p) n)))) in
  let qh := Z.quot q 2 in
  let b0 := repmat [beta_size; - beta_size] (Z.to_nat qh) in
  let beta_nonzero :=
    if (2 * qh <? q)%Z then b0 ++ [beta_size] else b0 in
  let mu := mv (map (firstn (Z.to_nat q)) x) beta_nonzero in
  let prob := map (fun m => 1 / (1 + exp (- m))) mu in
  let u := map randu_src (seq (u_pos w) n) in
  let y := set_elem_ones (repeat 0%nat n) (find (cmp2 Qltb u prob)) in
  let var_y := var (map Qn y) in
  fst (sim_logit_reg n p q X_cor X_var beta_size w) =
  Some (mkLogit y x (beta_nonzero ++ zeros (p - Z.to_nat q))
                (if Qltb 0 var_y then var prob / var_y else 0)
                prob X_cor X_var).
Proof.
  intros Hq; cbv zeta.
  unfold sim_logit_reg, bind, randn, randu, ret; simpl.
  rewrite cols_head.
  assert (E : ((1 <=? q) && (q <=? Z.of_nat p))%Z = true)
    by (apply andb_true_iff; split; [apply Z.leb_le|apply Z.leb_le]; lia).
  rewrite E; reflexivity.
Qed.

Lemma sim_logit_reg_none (n p : nat) (q : Z) (X_cor X_var beta_size : Q)
    (w : world) :
  ~ (1 <= q <= Z.of_nat p)%Z ->
  fst (sim_logit_reg n p q X_cor X_var beta_size w) = None.
Proof.
  intros Hq.
  unfold sim_logit_reg, bind, randn, ret; simpl.
  rewrite cols_head.
  assert (E : ((1 <=? q) && (q <=? Z.of_nat p))%Z = false).
  { apply andb_false_iff.
    destruct (Z.le_gt_cases 1 q); [right|left]; apply Z.leb_gt; lia. }
  rewrite E; reflexivity.
Qed.

End Logit.

(** [sim_logit_reg] returns its list exactly when [1 <= q <= p], and the
    coefficient vector it returns then has [p] entries, the first [q] of
    which are [beta_size] and [- beta_size] in alternation and the others
    zero. *)
Theorem sim_logit_reg_returns
    {libm : Libm} {rs : RandomSource} {stats : Stats}
    (n p : nat) (q : Z) (X_cor X_var beta_size : Q) (w : world) :
  (1 <= n)%nat ->
  ((exists d, fst (sim_logit_reg n p q X_cor X_var beta_size w) = Some d)
   <-> (1 <= q <= Z.of_nat p)%Z) /\
  forall d, fst (sim_logit_reg n p q X_cor X_var beta_size w) = Some d ->
    n_elem (gd_betacoef d) = p /\
    forall k, (k < p)%nat ->
      nth k (gd_betacoef d) 0 =
      if (Z.of_nat k <? q)%Z
      then (if Nat.even k then beta_size else - beta_size) else 0.
Proof.
  intros _.
  assert (Hdom : forall d,
            fst (sim_logit_reg n p q X_cor X_var beta_size w) = Some d ->
            (1 <= q <= Z.of_nat p)%Z).
  { intros d Hd.
    destruct (Z_le_dec 1 q) as [H1|H1];
      [destruct (Z_le_dec q (Z.of_nat p)) as [H2|H2]; [lia|]|];
      rewrite sim_logit_reg_none in Hd by lia; discriminate. }
  split; [split|].
  - intros [d Hd]; exact (Hdom d Hd).
  - intros Hq; eexists; now apply sim_logit_reg_some.
  - intros d Hd; pose proof (Hdom d Hd) as Hq.
    rewrite (@sim_logit_reg_some _ _ _ n p q X_cor X_var beta_size w Hq)
      in Hd.
    inversion Hd; subst d; cbn [gd_betacoef].
    destruct (true_coefficients beta_size p Hq) as (_ & Hlen & Hnth).
    split; [exact Hlen | exact Hnth].
Qed.

Lemma sim_logit_reg_returns_witness :
  exists d,
    fst (@sim_logit_reg Examples.rational_libm Examples.cycling_source
           MoreExamples.exact_stats 2 3 3 (1 # 2) 10 1 world0)
    = Some d.
Proof.
  refine (proj2 (proj1 (@sim_logit_reg_returns Examples.rational_libm
                          Examples.cycling_source MoreExamples.exact_stats
                          2 3 3 (1 # 2) 10 1 world0 _)) _); lia.
Defined.

(** The outcomes of [sim_logit_reg]: with an [exp] that is not negative,
    every success probability it returns lies between 0 and 1, the two
    ends included, and outcome [i] is 1 exactly when the [i]-th uniform
    variate of the call is below the success probability of observation
    [i], and 0 otherwise. *)
Theorem sim_logit_reg_outcomes
    {libm : Libm} {rs : RandomSource} {stats : Stats}
    (exp_nonneg : forall x, 0 <= exp x)
    (n p : nat) (q : Z) (X_cor X_var beta_size : Q) (w : world)
    (d : logit_data) :
  fst (sim_logit_reg n p q X_cor X_var beta_size w) = Some d ->
  length (gd_y d) = n /\ n_elem (gd_prob d) = n /\ n_rows (gd_X d) = n /\
  forall i, (i < n)%nat ->
    let prob_i := nth i (gd_prob d) 0 in
    (0 <= prob_i /\ prob_i <= 1) /\
    nth i (gd_y d) 0%nat =
    (if Qltb (randu_src (u_pos w + i)) prob_i then 1 else 0)%nat.
Proof.
  intros Hd.
  assert (Hq : (1 <= q <= Z.of_nat p)%Z).
  { destruct (Z_le_dec 1 q) as [H1|H1];
      [destruct (Z_le_dec q (Z.of_nat p)) as [H2|H2]; [lia|]|];
      rewrite sim_logit_reg_none in Hd by lia; discriminate. }
  rewrite (@sim_logit_reg_some _ _ _ n p q X_cor X_var beta_size w Hq) in Hd.
  set (x := map (map _) (add_to_cols _ _)) in Hd.
  set (bn := if (2 * Z.quot q 2 <? q)%Z then _ else _) in *.
  set (prob := map _ (mv _ bn)) in Hd.
  set (u := map randu_src _) in Hd.
  inversion Hd; subst d; cbn [gd_y gd_prob gd_X].
  assert (Hx : n_rows x = n).
  { unfold x, n_rows; rewrite length_map.
    fold (n_rows (add_to_cols (mscale (sqrt (1 - X_cor))
                                      (fst (randn_mat n p w)))
                              (vscale (sqrt X_cor)
                                 (map randn_src
                                      (seq (n_pos w + n * p) n))))).
    rewrite add_to_cols_rows.
    unfold mscale, n_rows; rewrite length_map; apply randn_mat_rows. }
  assert (Hp : length prob = n)
    by (unfold prob, mv; now rewrite !length_map).
  assert (Hu : length u = n)
    by (unfold u; now rewrite length_map, length_seq).
  split; [now rewrite set_elem_ones_length, repeat_length|].
  split; [exact Hp|]; split; [exact Hx|].
  intros i Hi; cbv zeta; split.
  - unfold prob.
    rewrite (nth_indep _ 0 (1 / (1 + exp (- 0))))
      by (unfold mv; rewrite !length_map; fold (n_rows x); now rewrite Hx).
    rewrite (map_nth (fun m => 1 / (1 + exp (- m)))).
    now apply PredictMore.logistic_unit_closed.
  - assert (Hmask : forall j, In j (find (cmp2 Qltb u prob)) <->
              (j < n)%nat /\
              Qltb (randu_src (u_pos w + j)) (nth j prob 0) = true).
    { intros j; rewrite find_spec, TruncNormFacts.cmp2_length, Hu, Hp,
        Nat.min_id.
      split; intros [Hj Hc]; split; auto.
      - rewrite nth_cmp2 in Hc by lia.
        unfold u in Hc; now rewrite nth_map_seq in Hc.
      - rewrite nth_cmp2 by lia.
        unfold u; now rewrite nth_map_seq. }
    rewrite nth_set_elem_ones
      by (intros j Hj; apply Hmask in Hj; rewrite repeat_length; tauto).
    destruct (in_dec Nat.eq_dec i _) as [Hin|Hnin].
    + apply Hmask in Hin; destruct Hin as [_ ->]; reflexivity.
    + rewrite nth_repeat_0.
      destruct (Qltb (randu_src (u_pos w + i)) (nth i prob 0)) eqn:E;
        [|reflexivity].
      exfalso; apply Hnin, Hmask; now split.
Qed.

Lemma sim_linear_reg_returns_witness :
  exists d,
    fst (@sim_linear_reg Examples.rational_libm Examples.cycling_source
           MoreExamples.exact_stats 2 3 3 (1 # 2) (1 # 2) 1 world0)
    = Some d.
Proof.
  refine (proj2 (@sim_linear_reg_returns Examples.rational_libm
                   Examples.cycling_source MoreExamples.exact_stats
                   2 3 3 (1 # 2) (1 # 2) 1 world0 _) _); lia.
Defined.

Lemma sim_linear_reg_coefficients_witness :
  exists d,
    fst (@sim_linear_reg Examples.rational_libm Examples.cycling_source
           MoreExamples.exact_stats 2 4 3 (1 # 2) (1 # 2) 1 world0)
    = Some d /\
    nth 1 (ld_betacoef d) 0 = - (1) /\ nth 3 (ld_betacoef d) 0 = 0.
Proof.
  eexists; split; [vm_compute; reflexivity|].
  split.
  - refine (proj2 (@sim_linear_reg_coefficients Examples.rational_libm
                     Examples.cycling_source MoreExamples.exact_stats
                     2 4 3 (1 # 2) (1 # 2) 1 world0 _ _) 1%nat _);
      [vm_compute; reflexivity | lia].
  - refine (proj2 (@sim_linear_reg_coefficients Examples.rational_libm
                     Examples.cycling_source MoreExamples.exact_stats
                     2 4 3 (1 # 2) (1 # 2) 1 world0 _ _) 3%nat _);
      [vm_compute; reflexivity | lia].
Defined.

Lemma sim_linear_reg_model_witness :
  exists d,
    fst (@sim_linear_reg Examples.rational_libm Examples.cycling_source
           MoreExamples.exact_stats 2 4 3 (1 # 2) (1 # 2) 1 world0)
    = Some d /\
    nth 0 (ld_y d) 0
    == dot (nth 0 (ld_X d) []) (ld_betacoef d)
       + @randn_src Examples.cycling_source (0 + 2 * 4 + 2 + 0)
         * @sqrt Examples.rational_libm (ld_sigma2 d).
Proof.
  eexists; split; [vm_compute; reflexivity|].
  refine (proj2 (proj2 (@sim_linear_reg_model Examples.rational_libm
                          Examples.cycling_source MoreExamples.exact_stats
                          2 4 3 (1 # 2) (1 # 2) 1 world0 _ _ _)) 0%nat _);
    [discriminate | vm_compute; reflexivity | lia].
Defined.

Lemma sim_logit_reg_outcomes_witness :
  exists d,
    fst (@sim_logit_reg Examples.rational_libm Examples.cycling_source
           MoreExamples.exact_stats 2 4 3 (1 # 2) 10 1 world0)
    = Some d /\
    0 <= nth 1 (gd_prob d) 0 /\ length (gd_y d) = 2%nat.
Proof.
  eexists; split; [vm_compute; reflexivity|].
  destruct (@sim_logit_reg_outcomes Examples.rational_libm
              Examples.cycling_source MoreExamples.exact_stats
              PredictMore.rational_exp_nonneg 2 4 3 (1 # 2) 10 1 world0 _
              ltac:(vm_compute; reflexivity)) as (Hy & _ & _ & Hi).
  split; [|exact Hy].
  apply (Hi 1%nat); lia.
Defined.

End SimulateFacts.

(** ** The noise precision of the horseshoe linear models *)

Module HorseshoeNoise.
Import HorseshoeLm.

Lemma Qn_double (k : nat) : Qn (2 * k) == 2 * Qn k.
Proof.
  unfold Qn; rewrite Nat2Z.inj_mul, inject_Z_mult; reflexivity.
Qed.

Lemma half_shape (a_sigma : Q) (p n : nat) :
  a_sigma + Qn ((p + n) / 2) == noise_shape_spec a_sigma n p
  <-> Nat.even (p + n) = true.
Proof.
  unfold noise_shape_spec.
  replace (n + p)%nat with (p + n)%nat by lia.
  destruct (Nat.even (p + n)) eqn:E.
  - apply Nat.even_spec in E; destruct E as [k Hk]; rewrite Hk.
    replace (2 * k / 2)%nat with k
      by (rewrite (Nat.mul_comm 2 k), Nat.div_mul; lia).
    rewrite Qn_double; split; [reflexivity|intros _; field].
  - assert (Ho : Nat.odd (p + n) = true)
      by (rewrite <- Nat.negb_even, E; reflexivity).
    apply Nat.odd_spec in Ho; destruct Ho as [k Hk]; rewrite Hk.
    replace ((2 * k + 1) / 2)%nat with k
      by (apply (Nat.div_unique _ 2 k 1); lia).
    replace (2 * k + 1)%nat with (S (2 * k)) by lia.
    rewrite AccuFacts.Qn_S, Qn_double.
    split; [|discriminate].
    intros H; exfalso.
    assert (H' : a_sigma + Qn k == a_sigma + Qn k + (1 # 2))
      by (rewrite H at 1; field).
    lra.
Qed.

Ltac gamma_vectors :=
  repeat match goal with
  | |- context [randg_vec ?k ?a ?b ?w] =>
      destruct (randg_vec k a b w) as [? ?]
  end.

(** The four update functions of the horseshoe linear models ask for the
    gamma variate of [1 / sigma2_eps] with shape
    [a_sigma + (p + n) / 2], the quotient being taken on integers: the
    shape is [a_sigma + (n + p) / 2] exactly when [p + n] is even, and half
    a unit below it when [p + n] is odd. *)
Theorem horseshoe_noise_shape
    {libm : Libm} {rs : RandomSource} {la : LinAlg} {rstats : RStats}
    (ys dys d d2 y : vec) (V X VD : mat)
    (A2_tau A2_lambda a_sigma b_sigma : Q) (p n : nat) (st : state)
    (w : world) :
  let shape := a_sigma + Qn ((p + n) / 2) in
  fst (noise_request hs_one_step_update_big_p_id
         (snd (hs_one_step_update_big_p ys V d d2 y X VD A2_tau A2_lambda
                 a_sigma b_sigma p n st w))) = shape /\
  fst (noise_request hs_one_step_update_big_n_id
         (snd (hs_one_step_update_big_n dys V d2 y X A2_tau A2_lambda
                 a_sigma b_sigma p n st w))) = shape /\
  fst (noise_request hs_one_step_update_id
         (snd (hs_one_step_update y X A2_tau A2_lambda
                 a_sigma b_sigma p n st w))) = shape /\
  fst (noise_request hs_one_step_update_slice_sampler_id
         (snd (hs_one_step_update_slice_sampler y X A2_tau A2_lambda
                 a_sigma b_sigma p n st w))) = shape /\
  (shape == noise_shape_spec a_sigma n p <-> Nat.even (p + n) = true) /\
  (Nat.even (p + n) = false ->
   shape == noise_shape_spec a_sigma n p - (1 # 2)).
Proof.
  cbv zeta; split; [|split; [|split; [|split; [|split]]]].
  - unfold hs_one_step_update_big_p, bind, enter, randn, randg, ret.
    gamma_vectors; reflexivity.
  - unfold hs_one_step_update_big_n, bind, enter, randn, randg, ret.
    gamma_vectors; reflexivity.
  - unfold hs_one_step_update, bind, enter, randn, randg, ret.
    gamma_vectors; reflexivity.
  - unfold hs_one_step_update_slice_sampler, bind, enter, randn, randu,
      randu1, randg, ret.
    reflexivity.
  - apply half_shape.
  - intros E; unfold noise_shape_spec.
    replace (n + p)%nat with (p + n)%nat by lia.
    assert (Ho : Nat.odd (p + n) = true)
      by (rewrite <- Nat.negb_even, E; reflexivity).
    apply Nat.odd_spec in Ho; destruct Ho as [k Hk]; rewrite Hk.
    replace ((2 * k + 1) / 2)%nat with k
      by (apply (Nat.div_unique _ 2 k 1); lia).
    replace (2 * k + 1)%nat with (S (2 * k)) by lia.
    rewrite AccuFacts.Qn_S, Qn_double; field.
Qed.

Lemma horseshoe_noise_shape_witness :
  (1 # 100) + Qn ((1 + 2) / 2) == noise_shape_spec (1 # 100) 2 1 - (1 # 2).
Proof.
  refine (proj2 (proj2 (proj2 (proj2 (proj2
    (@horseshoe_noise_shape Examples.rational_libm Examples.cycling_source
       Examples.column_linalg Examples.rational_rstats
       [1] [1] [1] [1] [1; 2] [[1]] [[1]; [0]] [[1]]
       1 1 (1 # 100) (1 # 100) 1 2 Examples.hs_state1 world0))))) _).
  reflexivity.
Defined.

End HorseshoeNoise.

(** ** Bookkeeping of the other fitting functions *)

Module RunFacts.
Import Runs.






Section WithServices.
Context {libm : Libm} {rs : RandomSource} {la : LinAlg} {rstats : RStats}.

(** *** [fast_normal_logit] *)

Lemma fast_normal_logit_as_chain y X mcmc_sample burnin thinning A_tau w :
  let o := pgdraw 1 (zeros (n_rows X)) w in
  let c := chain (fast_normal_logit_step y X A_tau) NormalLogit.store
                 mcmc_sample burnin thinning
                 (fast_normal_logit_init X A_tau (fst o))
                 (NormalLogit.init_buffers (n_cols X) mcmc_sample)
                 (snd o) in
  NormalLogit.fast_normal_logit y X mcmc_sample burnin thinning A_tau w =
  (NormalLogit.finish X (n_cols X) (snd (fst c)), snd c).
Proof.
  cbv zeta.
  unfold NormalLogit.fast_normal_logit, fast_normal_logit_step,
    fast_normal_logit_init; cbv zeta.
  unfold bind at 1.
  destruct (pgdraw 1 (zeros (n_rows X)) w) as [omega w1]; cbn [fst snd].
  rewrite bind_ret_eq.
  destruct (n_cols X <? n_rows X)%nat; reflexivity.
Qed.


(** *** [fast_horseshoe_logit] *)

Lemma fast_horseshoe_logit_as_chain y X mcmc_sample burnin thinning A_tau
    A_lambda w :
  let o := pgdraw 1 (zeros (n_rows X)) w in
  let c := chain (fast_horseshoe_logit_step y X A_tau A_lambda)
                 HorseshoeLogit.store mcmc_sample burnin thinning
                 (fast_horseshoe_logit_init X A_tau (fst o))
                 (HorseshoeLogit.init_buffers (n_cols X) mcmc_sample)
                 (snd o) in
  HorseshoeLogit.fast_horseshoe_logit y X mcmc_sample burnin thinning A_tau
                                      A_lambda w =
  (HorseshoeLogit.finish X (n_cols X) (fst (fst c)) (snd (fst c)), snd c).
Proof.
  cbv zeta.
  unfold HorseshoeLogit.fast_horseshoe_logit, fast_horseshoe_logit_step,
    fast_horseshoe_logit_init; cbv zeta.
  unfold bind at 1.
  destruct (pgdraw 1 (zeros (n_rows X)) w) as [omega w1]; cbn [fst snd].
  rewrite bind_ret_eq.
  destruct (n_cols X <? n_rows X)%nat; reflexivity.
Qed.


(** *** The horseshoe linear models *)



Lemma fast_horseshoe_ss_lm_chain y X mcmc_sample burnin thinning a_sigma
    b_sigma A_tau A_lambda w :
  let c := chain (fast_horseshoe_ss_lm_step y X a_sigma b_sigma
                    A_tau A_lambda)
                 HorseshoeLm.store mcmc_sample burnin thinning
                 (HorseshoeLm.fast_horseshoe_ss_lm_init a_sigma b_sigma
                    (n_cols X))
                 (HorseshoeLm.init_buffers (n_cols X) mcmc_sample) w in
  HorseshoeLm.fast_horseshoe_ss_lm y X mcmc_sample burnin thinning
                                   a_sigma b_sigma A_tau A_lambda w =
  (HorseshoeLm.finish X (n_cols X) (snd (fst c)), snd c).
Proof.
  cbv zeta.
  unfold HorseshoeLm.fast_horseshoe_ss_lm, fast_horseshoe_ss_lm_step.
  destruct (svd_econ X) as [[U d] V]; cbv zeta.
  rewrite bind_ret_eq.
  destruct (n_cols X <? n_rows X)%nat; reflexivity.
Qed.


Lemma fast_horseshoe_hd_lm_chain y X mcmc_sample burnin thinning a_sigma
    b_sigma A_tau A_lambda w :
  let c := chain (fast_horseshoe_hd_lm_step y X a_sigma b_sigma
                    A_tau A_lambda)
                 HorseshoeLm.store mcmc_sample burnin thinning
                 (HorseshoeLm.fast_horseshoe_hd_lm_init a_sigma b_sigma
                    (n_cols X))
                 (HorseshoeLm.init_buffers (n_cols X) mcmc_sample) w in
  HorseshoeLm.fast_horseshoe_hd_lm y X mcmc_sample burnin thinning
                                   a_sigma b_sigma A_tau A_lambda w =
  (HorseshoeLm.finish X (n_cols X) (snd (fst c)), snd c).
Proof.
  cbv zeta.
  unfold HorseshoeLm.fast_horseshoe_hd_lm, fast_horseshoe_hd_lm_step.
  destruct (svd_econ X) as [[U d] V]; cbv zeta.
  rewrite bind_ret_eq.
  destruct (n_cols X <? n_rows X)%nat; reflexivity.
Qed.


End WithServices.












End RunFacts.

(** ** What the fitting functions return *)

Module ReturnedFacts.
Import AccuFacts RunFacts Runs.

Lemma accu_pos (v : vec) : v <> [] -> Forall pos v -> 0 < accu v.
Proof.
  induction v as [|a v IH]; intros Hne Hv; [congruence|].
  inversion Hv as [|? ? Ha Hv']; subst; unfold pos in Ha.
  cbn [accu fold_right]; fold (accu v).
  destruct v as [|b v]; [change (0 < a + 0); lra|].
  assert (0 < accu (b :: v)) by (apply IH; [discriminate|exact Hv']).
  lra.
Qed.

(** The mean of positive values is positive. *)
Lemma mean_pos (v : vec) (m : Q) : mean v = Some m -> Forall pos v -> pos m.
Proof.
  intros Hm Hv; destruct v as [|a v]; [discriminate|].
  unfold mean in Hm; inversion Hm; subst m; unfold pos.
  apply PositivityFacts.Qdiv_pos.
  - apply (@accu_pos (a :: v)); [discriminate|exact Hv].
  - apply Qn_pos; simpl; lia.
Qed.

Lemma normal_lm_finish (X : mat) (p : nat) (b : NormalLm.buffers)
    (f : NormalLm.fit) :
  NormalLm.finish X p b = Some f ->
  NormalLm.mcmc f = b /\
  mean (NormalLm.sigma2_eps_list b)
    = Some (NormalLm.pm_sigma2_eps (NormalLm.post_mean f)) /\
  mean (NormalLm.tau2_list b)
    = Some (NormalLm.pm_tau2 (NormalLm.post_mean f)) /\
  NormalLm.pm_betacoef (NormalLm.post_mean f)
    = mean_cols p (NormalLm.betacoef_list b) /\
  NormalLm.pm_mu (NormalLm.post_mean f)
    = mv X (mean_cols p (NormalLm.betacoef_list b)).
Proof.
  unfold NormalLm.finish, and_then; intros H.
  destruct (mean (NormalLm.sigma2_eps_list b)) as [s|]; [|discriminate].
  destruct (mean (NormalLm.tau2_list b)) as [t|]; [|discriminate].
  inversion H; subst f; repeat split.
Qed.

Lemma horseshoe_lm_finish (X : mat) (p : nat) (b : HorseshoeLm.buffers)
    (f : HorseshoeLm.fit) :
  HorseshoeLm.finish X p b = Some f ->
  HorseshoeLm.mcmc f = b /\
  mean (HorseshoeLm.sigma2_eps_list b)
    = Some (HorseshoeLm.pm_sigma2_eps (HorseshoeLm.post_mean f)) /\
  mean (HorseshoeLm.tau2_list b)
    = Some (HorseshoeLm.pm_tau2 (HorseshoeLm.post_mean f)).
Proof.
  unfold HorseshoeLm.finish, and_then; intros H.
  destruct (mean (HorseshoeLm.sigma2_eps_list b)) as [s|]; [|discriminate].
  destruct (mean (HorseshoeLm.tau2_list b)) as [t|]; [|discriminate].
  inversion H; subst f; repeat split.
Qed.

Lemma normal_logit_finish {libm : Libm} (X : mat) (p : nat)
    (b : NormalLogit.buffers) (f : NormalLogit.fit) :
  NormalLogit.finish X p b = Some f ->
  NormalLogit.mcmc f = b /\
  mean (NormalLogit.tau2_list b)
    = Some (NormalLogit.pm_tau2 (NormalLogit.post_mean f)) /\
  NormalLogit.pm_prob (NormalLogit.post_mean f)
    = map (fun m => 1 / (1 + exp (- m)))
          (NormalLogit.pm_mu (NormalLogit.post_mean f)).
Proof.
  unfold NormalLogit.finish, and_then; intros H.
  destruct (mean (NormalLogit.tau2_list b)) as [t|]; [|discriminate].
  inversion H; subst f; repeat split.
Qed.

Section WithServices.
Context {libm : Libm} {rs : RandomSource} {la : LinAlg}.

Hypothesis variates : positive_variates rs.

Lemma run_step_positive y X a_sigma b_sigma A_tau st :
  always (NormalLm.run_step y X a_sigma b_sigma A_tau st)
         positive_normal_lm.
Proof.
  unfold NormalLm.run_step.
  destruct (svd_econ X) as [[U d] V]; cbv zeta.
  destruct (n_cols X <? n_rows X)%nat.
  - now apply PositivityFacts.one_step_update_big_n_positive.
  - now apply PositivityFacts.one_step_update_big_p_positive.
Qed.

Lemma fast_normal_logit_step_positive y X A_tau st :
  always (fast_normal_logit_step y X A_tau st) positive_normal_logit.
Proof.
  unfold fast_normal_logit_step; cbv zeta.
  destruct (n_cols X <? n_rows X)%nat.
  - now apply PositivityFacts.one_step_logit_normal_big_n_positive.
  - now apply PositivityFacts.one_step_logit_normal_big_p_positive.
Qed.

End WithServices.

(** With positive gamma variates and [thinning >= 1], every noise
    variance and every prior variance ratio [fast_normal_lm] retains is
    strictly positive, and so are the two posterior means it
    returns, whatever the hyperparameters and the data. *)
Theorem fast_normal_lm_variances_positive
    {libm : Libm} {rs : RandomSource} {la : LinAlg}
    (variates : positive_variates rs)
    (y : vec) (X : mat) (mcmc_sample burnin thinning : Z)
    (a_sigma b_sigma A_tau : Q) (w : world) (f : NormalLm.fit) :
  (1 <= thinning)%Z ->
  fst (NormalLm.fast_normal_lm y X mcmc_sample burnin thinning
         a_sigma b_sigma A_tau w) = Some f ->
  Forall pos (NormalLm.sigma2_eps_list (NormalLm.mcmc f)) /\
  Forall pos (NormalLm.tau2_list (NormalLm.mcmc f)) /\
  pos (NormalLm.pm_sigma2_eps (NormalLm.post_mean f)) /\
  pos (NormalLm.pm_tau2 (NormalLm.post_mean f)).
Proof.
  intros Ht Hf.
  destruct (NormalLmFacts.fast_normal_lm_as_chain y X mcmc_sample burnin
              thinning a_sigma b_sigma A_tau w) as [Hfit _].
  rewrite Hfit in Hf.
  apply normal_lm_finish in Hf; destruct Hf as (Hb & Hs & Htau & _).
  assert (Hgood : forall k, (1 <= k)%nat ->
            positive_normal_lm
              (fst (iterate (NormalLm.run_step y X a_sigma b_sigma A_tau) k
                            (NormalLm.init_state a_sigma b_sigma A_tau) w))).
  { intros k Hk.
    apply (PositivityFacts.iterate_establishes
             (Good := positive_normal_lm)); auto.
    intros s; now apply run_step_positive. }
  assert (Hsl : Forall pos (NormalLm.sigma2_eps_list (NormalLm.mcmc f))).
  { rewrite Hb.
    apply (chain_stored_all _ NormalLm.store NormalLm.sigma2_eps_list
             NormalLm.sigma2_eps); auto; [apply repeat_length|].
    intros k Hk _; apply Hgood; exact Hk. }
  assert (Htl : Forall pos (NormalLm.tau2_list (NormalLm.mcmc f))).
  { rewrite Hb.
    apply (chain_stored_all _ NormalLm.store NormalLm.tau2_list
             NormalLm.tau2); auto; [apply repeat_length|].
    intros k Hk _; apply Hgood; exact Hk. }
  split; [exact Hsl|]; split; [exact Htl|]; split.
  - apply (mean_pos Hs); now rewrite <- Hb.
  - apply (mean_pos Htau); now rewrite <- Hb.
Qed.

Lemma fast_normal_lm_variances_positive_witness :
  exists f,
    fst (@NormalLm.fast_normal_lm Examples.rational_libm
           Examples.cycling_source Examples.column_linalg
           [1; 2; 3] [[1]; [0]; [0]] 2 1 2 (1 # 100) (1 # 100) 10 world0)
    = Some f /\
    pos (NormalLm.pm_sigma2_eps (NormalLm.post_mean f)).
Proof.
  eexists; split; [vm_compute; reflexivity|].
  refine (proj1 (proj2 (proj2
    (@fast_normal_lm_variances_positive Examples.rational_libm
       Examples.cycling_source Examples.column_linalg
       ExamplesFacts.cycling_positive_variates
       [1; 2; 3] [[1]; [0]; [0]] 2 1 2 (1 # 100) (1 # 100) 10 world0 _
       _ _)))); [lia | vm_compute; reflexivity].
Defined.

(** With positive gamma and Polya-Gamma variates, an [exp] that is not
    negative and [thinning >= 1], every [tau2] that [fast_normal_logit]
    retains is strictly positive, and so is their posterior mean; and
    every posterior probability it returns lies between 0 and 1, the two
    ends included. *)
Theorem fast_normal_logit_returns_valid
    {libm : Libm} {rs : RandomSource} {la : LinAlg}
    (variates : positive_variates rs)
    (exp_nonneg : forall x, 0 <= exp x)
    (y : vec) (X : mat) (mcmc_sample burnin thinning : Z) (A_tau : Q)
    (w : world) (f : NormalLogit.fit) :
  (1 <= thinning)%Z ->
  fst (NormalLogit.fast_normal_logit y X mcmc_sample burnin thinning
         A_tau w) = Some f ->
  Forall pos (NormalLogit.tau2_list (NormalLogit.mcmc f)) /\
  pos (NormalLogit.pm_tau2 (NormalLogit.post_mean f)) /\
  Forall unit_closed (NormalLogit.pm_prob (NormalLogit.post_mean f)).
Proof.
  intros Ht Hf.
  rewrite fast_normal_logit_as_chain in Hf; cbn [fst] in Hf.
  apply normal_logit_finish in Hf; destruct Hf as (Hb & Htau & Hp).
  set (o := pgdraw 1 (zeros (n_rows X)) w) in *.
  assert (Htl : Forall pos (NormalLogit.tau2_list (NormalLogit.mcmc f))).
  { rewrite Hb.
    apply (chain_stored_all _ NormalLogit.store NormalLogit.tau2_list
             NormalLogit.tau2); auto; [apply repeat_length|].
    intros k Hk _.
    apply (PositivityFacts.iterate_establishes
             (Good := positive_normal_logit)); auto.
    intros s; now apply fast_normal_logit_step_positive. }
  split; [exact Htl|]; split.
  - apply (mean_pos Htau); now rewrite <- Hb.
  - rewrite Hp; apply Forall_forall; intros v Hv.
    apply in_map_iff in Hv; destruct Hv as (m & <- & _).
    now apply PredictMore.logistic_unit_closed.
Qed.

Lemma fast_normal_logit_returns_valid_witness :
  exists f,
    fst (@NormalLogit.fast_normal_logit Examples.rational_libm
           Examples.cycling_source Examples.column_linalg
           [1; 0; 1] [[1]; [0]; [0]] 2 1 1 10 world0) = Some f /\
    pos (NormalLogit.pm_tau2 (NormalLogit.post_mean f)).
Proof.
  eexists; split; [vm_compute; reflexivity|].
  refine (proj1 (proj2
    (@fast_normal_logit_returns_valid Examples.rational_libm
       Examples.cycling_source Examples.column_linalg
       ExamplesFacts.cycling_positive_variates
       PredictMore.rational_exp_nonneg
       [1; 0; 1] [[1]; [0]; [0]] 2 1 1 10 world0 _ _ _)));
    [lia | vm_compute; reflexivity].
Defined.

(** With positive gamma variates, a positive square root, a nonzero
    [A_lambda], at least one predictor, an initial noise variance that is
    positive and [thinning >= 1], every noise variance, global scale and
    local scale [fast_horseshoe_lm] retains is strictly positive, and so
    are the posterior means of the noise variance and of the global
    scale. *)
Theorem fast_horseshoe_lm_scales_positive
    {libm : Libm} {rs : RandomSource} {la : LinAlg}
    (variates : positive_variates rs)
    (sqrt_pos : forall x, 0 < x -> 0 < sqrt x)
    (y : vec) (X : mat) (mcmc_sample burnin thinning : Z)
    (a_sigma b_sigma A_tau A_lambda : Q) (w : world)
    (f : HorseshoeLm.fit) :
  ~ A_lambda == 0 ->
  (1 <= n_cols X)%nat ->
  a_sigma == 0 \/ 0 < b_sigma / a_sigma ->
  (1 <= thinning)%Z ->
  fst (HorseshoeLm.fast_horseshoe_lm y X mcmc_sample burnin thinning
         a_sigma b_sigma A_tau A_lambda w) = Some f ->
  Forall pos (HorseshoeLm.sigma2_eps_list (HorseshoeLm.mcmc f)) /\
  Forall pos (HorseshoeLm.tau2_list (HorseshoeLm.mcmc f)) /\
  Forall (Forall pos) (HorseshoeLm.lambda_list (HorseshoeLm.mcmc f)) /\
  pos (HorseshoeLm.pm_sigma2_eps (HorseshoeLm.post_mean f)) /\
  pos (HorseshoeLm.pm_tau2 (HorseshoeLm.post_mean f)).
Proof.
  intros HA Hp Hs Ht Hf.
  destruct (@PositivityFacts.fast_horseshoe_lm_draws_positive
              libm rs la variates sqrt_pos y X mcmc_sample burnin thinning
              a_sigma b_sigma A_tau A_lambda w f HA Hp Hs Ht Hf)
    as (Hsl & Htl & Hll).
  rewrite PositivityFacts.fast_horseshoe_lm_as_chain in Hf.
  apply horseshoe_lm_finish in Hf; destruct Hf as (Hb & Hms & Hmt).
  split; [exact Hsl|]; split; [exact Htl|]; split; [exact Hll|]; split.
  - apply (mean_pos Hms); now rewrite <- Hb.
  - apply (mean_pos Hmt); now rewrite <- Hb.
Qed.

Lemma fast_horseshoe_lm_scales_positive_witness :
  exists f,
    fst (@HorseshoeLm.fast_horseshoe_lm Examples.rational_libm
           Examples.cycling_source Examples.column_linalg
           [1; 2; 3] [[1]; [0]; [0]] 1 0 1 0 0 1 1 world0) = Some f /\
    pos (HorseshoeLm.pm_tau2 (HorseshoeLm.post_mean f)).
Proof.
  eexists; split; [vm_compute; reflexivity|].
  refine (proj2 (proj2 (proj2 (proj2
    (@fast_horseshoe_lm_scales_positive Examples.rational_libm
       Examples.cycling_source Examples.column_linalg
       ExamplesFacts.cycling_positive_variates
       ExamplesFacts.rational_sqrt_pos
       [1; 2; 3] [[1]; [0]; [0]] 1 0 1 0 0 1 1 world0 _ _ _ _ _ _)))));
    [discriminate | simpl; lia | left; reflexivity | lia
    | vm_compute; reflexivity].
Defined.

(** Predicting on the design matrix of the fit gives back the fitted
    means: when [fast_normal_lm] returns its list and every retained
    coefficient draw has [p] entries, the [mean] that [predict_fast_lm]
    computes from the retained draws for row [i] of [X] is entry [i] of the
    [mu] of [post_mean]. *)
Theorem predict_fast_lm_reproduces_mu
    {libm : Libm} {rs : RandomSource} {la : LinAlg}
    (y : vec) (X : mat) (mcmc_sample burnin thinning : Z)
    (a_sigma b_sigma A_tau alpha : Q) (w : world) (f : NormalLm.fit)
    (i : nat) :
  fst (NormalLm.fast_normal_lm y X mcmc_sample burnin thinning
         a_sigma b_sigma A_tau w) = Some f ->
  Forall (fun c => n_elem c = n_cols X)
         (NormalLm.betacoef_list (NormalLm.mcmc f)) ->
  (i < n_rows X)%nat ->
  nth i (PredictLm.p_mean
           (PredictLm.predict_fast_lm
              (NormalLm.betacoef_list (NormalLm.mcmc f)) X alpha)) 0
  == nth i (NormalLm.pm_mu (NormalLm.post_mean f)) 0.
Proof.
  intros Hf Hc Hi.
  destruct (NormalLmFacts.fast_normal_lm_as_chain y X mcmc_sample burnin
              thinning a_sigma b_sigma A_tau w) as [Hfit _].
  rewrite Hfit in Hf.
  apply normal_lm_finish in Hf; destruct Hf as (Hb & _ & _ & _ & Hmu).
  rewrite Hmu, <- Hb.
  unfold PredictLm.predict_fast_lm; cbn [PredictLm.p_mean].
  unfold mean_rows, Predict.pred_mu, mv; rewrite map_map.
  rewrite !PredictMore.nth_map_rows by exact Hi.
  rewrite length_map; unfold mean_cols.
  rewrite dot_map_div, <- accu_dot_columns by exact Hc.
  reflexivity.
Qed.

Lemma predict_fast_lm_reproduces_mu_witness :
  exists f,
    fst (@NormalLm.fast_normal_lm Examples.rational_libm
           Examples.cycling_source Examples.column_linalg
           [1; 2; 3] [[1]; [0]; [0]] 2 1 2 (1 # 100) (1 # 100) 10 world0)
    = Some f /\
    nth 0 (PredictLm.p_mean
             (@PredictLm.predict_fast_lm Examples.column_linalg
                (NormalLm.betacoef_list (NormalLm.mcmc f))
                [[1]; [0]; [0]] (95 # 100))) 0
    == nth 0 (NormalLm.pm_mu (NormalLm.post_mean f)) 0.
Proof.
  eexists; split; [vm_compute; reflexivity|].
  refine (@predict_fast_lm_reproduces_mu Examples.rational_libm
            Examples.cycling_source Examples.column_linalg
            [1; 2; 3] [[1]; [0]; [0]] 2 1 2 (1 # 100) (1 # 100) 10
            (95 # 100) world0 _ 0 _ _ _);
    [vm_compute; reflexivity | repeat constructor | simpl; lia].
Defined.

End ReturnedFacts.

(** ** The update function of the scalar-on-image regression *)

Module ScalarImgFacts.
Import ScalarImg.

Lemma loop_from_step {S : Type} (body : nat -> S -> M S) (k i : nat) (s : S)
    (w : world) :
  loop_from (Datatypes.S k) i body s w =
  loop_from k (Datatypes.S i) body (fst (body i s w)) (snd (body i s w)).
Proof.
  cbn [loop_from]; unfold bind; now destruct (body i s w).
Qed.

Section Loop.
Context {libm : Libm} {rs : RandomSource}.

Variables (X : mat) (bc : vec) (s2 : Q).

Lemma update_delta_sets (j : nat) (dl : uvec) (ep : vec) (w : world) :
  exists b, binary b /\
    fst (fst (update_delta X bc s2 j (dl, ep) w)) = set_nth j b dl.
Proof.
  unfold update_delta, bind, randu1, ret; cbn [fst snd].
  match goal with
  | |- context [if ?c then _ else _] => destruct c
  end.
  - exists 1%nat; split; [now right | reflexivity].
  - exists 0%nat; split; [now left | reflexivity].
Qed.

Lemma update_delta_loop (k : nat) :
  forall (i : nat) (dl : uvec) (ep : vec) (w : world),
    let dl' := fst (fst (loop_from k i (update_delta X bc s2) (dl, ep) w)) in
    length dl' = length dl /\
    (forall j, (i <= j < i + k)%nat -> (j < length dl)%nat ->
               binary (nth j dl' 0%nat)) /\
    (forall j, (j < i \/ i + k <= j)%nat ->
               nth j dl' 0%nat = nth j dl 0%nat).
Proof.
  induction k as [|k IH]; intros i dl ep w; cbv zeta.
  - cbn [loop_from ret fst]; split; [reflexivity|].
    split; intros j Hj; [lia | reflexivity].
  - rewrite !loop_from_step.
    destruct (update_delta_sets i dl ep w) as (b & Hb & Hset).
    destruct (update_delta X bc s2 i (dl, ep) w) as [[dl1 ep1] w1].
    cbn [fst snd] in *; subst dl1.
    destruct (IH (S i) (set_nth i b dl) ep1 w1) as (Hlen & Hbin & Hsame).
    cbv zeta in Hlen, Hbin, Hsame.
    rewrite set_nth_length in Hlen, Hbin.
    split; [exact Hlen|]; split.
    + intros j Hj Hjl.
      destruct (Nat.eq_dec j i) as [->|Hne].
      * rewrite Hsame by lia.
        now rewrite nth_set_nth_same.
      * apply Hbin; [lia | exact Hjl].
    + intros j Hj; rewrite Hsame by lia.
      apply nth_set_nth_other; lia.
Qed.

End Loop.

Ltac gamma_vectors :=
  repeat match goal with
  | |- context [randg_vec ?k ?a ?b ?w] =>
      destruct (randg_vec k a b w) as [? ?]
  end.

(** The indicators of the active predictors stay indicators: one update
    leaves [delta] with its length, sets each of its first [p] entries to
    0 or to 1, whatever they held, and leaves the others as they were. *)
Theorem scalar_img_delta_binary
    {libm : Libm} {rs : RandomSource} {la : LinAlg}
    (y : vec) (X Phi : mat) (A2 A2_lambda a_sigma b_sigma : Q)
    (p n L : nat) (st : state) (w : world) :
  let st' := fst (scalar_img_one_step_update y X Phi A2 A2_lambda
                    a_sigma b_sigma p n L st w) in
  length (delta st') = length (delta st) /\
  (forall j, (j < p)%nat -> (j < length (delta st))%nat ->
             binary (nth j (delta st') 0%nat)) /\
  (forall j, (p <= j)%nat ->
             nth j (delta st') 0%nat = nth j (delta st) 0%nat).
Proof.
  cbv zeta.
  destruct (update_delta_loop X (betacoef st) (sigma2_eps st) p 0
              (delta st) (eps st) w) as (Hlen & Hbin & Hsame).
  cbv zeta in Hlen, Hbin, Hsame.
  assert (E : delta (fst (scalar_img_one_step_update y X Phi A2 A2_lambda
                            a_sigma b_sigma p n L st w)) =
              fst (fst (loop_from p 0
                          (update_delta X (betacoef st) (sigma2_eps st))
                          (delta st, eps st) w))).
  { unfold scalar_img_one_step_update.
    unfold bind at 1.
    destruct (loop_from p 0 _ _ w) as [[dl ep] w1]; cbn [fst snd].
    unfold bind, randn, randg, ret.
    gamma_vectors; reflexivity. }
  rewrite E; split; [exact Hlen|]; split.
  - intros j Hj Hjl; apply Hbin; [lia | exact Hjl].
  - intros j Hj; apply Hsame; lia.
Qed.

(** One update keeps the scale parameters positive: with positive gamma
    variates, a positive square root and a positive [A2_lambda], from a
    state whose noise variance, global scale, local scales and rate
    auxiliaries are positive, the same holds of the state the update
    leaves. *)
Theorem scalar_img_scales_positive
    {libm : Libm} {rs : RandomSource} {la : LinAlg}
    (variates : positive_variates rs)
    (sqrt_pos : forall x, 0 < x -> 0 < sqrt x)
    (y : vec) (X Phi : mat) (A2 A2_lambda a_sigma b_sigma : Q)
    (p n L : nat) (st : state) :
  0 < A2_lambda ->
  positive st ->
  always (scalar_img_one_step_update y X Phi A2 A2_lambda a_sigma b_sigma
                                     p n L st)
         positive.
Proof.
  intros HA (Hs & Ht & Hl & Hb).
  unfold scalar_img_one_step_update.
  apply PositivityFacts.always_bind with (R := fun _ => True);
    [apply PositivityFacts.always_any|intros de _]; cbv beta zeta.
  apply PositivityFacts.always_bind with (R := fun _ => True);
    [apply PositivityFacts.always_any|intros z1 _]; cbv beta zeta.
  apply PositivityFacts.always_bind with (R := fun _ => True);
    [apply PositivityFacts.always_any|intros z2 _]; cbv beta zeta.
  apply PositivityFacts.always_bind with (R := Forall pos);
    [apply (PositivityFacts.always_randg_vec variates)|intros g1 Hg1];
    cbv beta zeta.
  apply PositivityFacts.always_bind with (R := Forall pos);
    [apply (PositivityFacts.always_randg_vec variates)|intros g2 Hg2];
    cbv beta zeta.
  apply PositivityFacts.always_bind with (R := pos);
    [apply (PositivityFacts.always_randg variates)|intros it Hit];
    cbv beta zeta.
  apply PositivityFacts.always_bind with (R := pos);
    [apply (PositivityFacts.always_randg variates)|intros bt Hbt];
    cbv beta zeta.
  apply PositivityFacts.always_bind with (R := pos);
    [apply (PositivityFacts.always_randg variates)|intros ise Hise];
    cbv beta zeta.
  apply PositivityFacts.always_ret.
  unfold positive; cbn [sigma2_eps tau2 lambda b_lambda].
  split; [now apply PositivityFacts.Qinv1_pos|].
  split; [now apply PositivityFacts.Qinv1_pos|]; split.
  - apply (PositivityFacts.new_lambda_pos sqrt_pos); auto.
    apply PositivityFacts.extra_nonneg2; auto.
    apply PositivityFacts.squares_nonneg.
  - apply PositivityFacts.new_b_lambda_pos; auto.
    apply PositivityFacts.extra_nonneg2; auto.
    apply PositivityFacts.squares_nonneg.
Qed.

(** The probability with which a predictor is switched on is a
    probability, on the side of the larger log-probability: with an
    [exp] that is not negative and at most 1 on arguments that are not
    positive, it lies between one half and 1 when switching on has the
    larger log-probability, and between 0 and one half otherwise. *)
Theorem inclusion_prob_logistic
    {libm : Libm}
    (exp_nonneg : forall x, 0 <= exp x)
    (exp_le_1 : forall x, x <= 0 -> exp x <= 1)
    (log_prob_1 log_prob_0 : Q) :
  let prob := inclusion_prob log_prob_1 log_prob_0 in
  (log_prob_0 < log_prob_1 -> half <= prob /\ prob <= 1) /\
  (log_prob_1 <= log_prob_0 -> 0 <= prob /\ prob <= half).
Proof.
  cbv zeta; unfold inclusion_prob, half; cbv zeta.
  pose proof (exp_nonneg (log_prob_0 - log_prob_1)) as He0.
  pose proof (exp_nonneg (log_prob_1 - log_prob_0)) as He1.
  split; intros H.
  - assert (E : Qltb log_prob_0 log_prob_1 = true) by now apply Qltb_true.
    rewrite E.
    assert (Hle : exp (log_prob_0 - log_prob_1) <= 1)
      by (apply exp_le_1; lra).
    split.
    + apply Qle_shift_div_l; lra.
    + apply Qle_shift_div_r; lra.
  - assert (E : Qltb log_prob_0 log_prob_1 = false) by now apply Qltb_false.
    rewrite E.
    assert (Hle : exp (log_prob_1 - log_prob_0) <= 1)
      by (apply exp_le_1; lra).
    split.
    + apply PositivityFacts.Qdiv_nonneg; lra.
    + apply Qle_shift_div_r; lra.
Qed.

Lemma rational_exp_le_1 (x : Q) :
  x <= 0 -> @exp Examples.rational_libm x <= 1.
Proof.
  intros H; cbv [exp Examples.rational_libm].
  destruct (Qltb x 0) eqn:E.
  - apply Qltb_true in E; apply Qle_shift_div_r; lra.
  - apply Qltb_false in E; lra.
Qed.

Lemma inclusion_prob_logistic_witness :
  half <= @inclusion_prob Examples.rational_libm (-1) (-3) /\
  @inclusion_prob Examples.rational_libm (-3) (-1) <= half.
Proof.
  split.
  - refine (proj1 (proj1 (@inclusion_prob_logistic Examples.rational_libm
                            PredictMore.rational_exp_nonneg rational_exp_le_1
                            (-1) (-3)) _)).
    reflexivity.
  - refine (proj2 (proj2 (@inclusion_prob_logistic Examples.rational_libm
                            PredictMore.rational_exp_nonneg rational_exp_le_1
                            (-3) (-1)) _)).
    discriminate.
Defined.

Lemma scalar_img_st1_positive :
  positive (mkState [0] [1%nat] [1] 1 1 1 [1] [0] [[0]; [0]] [1; 2]).
Proof.
  unfold positive; cbn [sigma2_eps tau2 lambda b_lambda].
  repeat split; repeat constructor.
Qed.

Lemma scalar_img_scales_positive_witness :
  positive
    (fst (@scalar_img_one_step_update Examples.rational_libm
            Examples.cycling_source Examples.column_linalg
            [1; 2] [[1]; [0]] [[1]] 1 1 0 0 1 2 1
            (mkState [0] [1%nat] [1] 1 1 1 [1] [0] [[0]; [0]] [1; 2])
            world0)).
Proof.
  refine (@scalar_img_scales_positive Examples.rational_libm
            Examples.cycling_source Examples.column_linalg
            ExamplesFacts.cycling_positive_variates
            ExamplesFacts.rational_sqrt_pos
            [1; 2] [[1]; [0]] [[1]] 1 1 0 0 1 2 1 _ _
            scalar_img_st1_positive world0).
  reflexivity.
Defined.

Lemma scalar_img_delta_binary_witness :
  binary
    (nth 0 (delta
              (fst (@scalar_img_one_step_update Examples.rational_libm
                      Examples.cycling_source Examples.column_linalg
                      [1; 2] [[1]; [0]] [[1]] 1 1 0 0 1 2 1
                      (mkState [0] [7%nat] [1] 1 1 1 [1] [0] [[0]; [0]]
                               [1; 2])
                      world0))) 0%nat).
Proof.
  refine (proj1 (proj2
    (@scalar_img_delta_binary Examples.rational_libm
       Examples.cycling_source Examples.column_linalg
       [1; 2] [[1]; [0]] [[1]] 1 1 0 0 1 2 1
       (mkState [0] [7%nat] [1] 1 1 1 [1] [0] [[0]; [0]] [1; 2])
       world0)) 0%nat _ _); simpl; lia.
Defined.

End ScalarImgFacts.

(** ** The scale parameters of every collected draw *)

Module CollectedDraws.
Import Runs RunFacts ReturnedFacts.

Lemma horseshoe_logit_finish {libm : Libm} (X : mat) (p : nat)
    (st : HorseshoeLogit.state) (b : HorseshoeLogit.buffers)
    (f : HorseshoeLogit.fit) :
  HorseshoeLogit.finish X p st b = Some f -> HorseshoeLogit.mcmc f = b.
Proof.
  unfold HorseshoeLogit.finish, and_then; intros H.
  destruct (mean (HorseshoeLogit.tau2_list b)) as [t|]; [|discriminate].
  now inversion H.
Qed.

Lemma horseshoe_init_positive (a_sigma b_sigma : Q) (p : nat) :
  (1 <= p)%nat ->
  a_sigma == 0 \/ 0 < b_sigma / a_sigma ->
  positive_horseshoe_lm (HorseshoeLm.fast_horseshoe_ss_lm_init a_sigma b_sigma p)
  /\
  positive_horseshoe_lm (HorseshoeLm.fast_horseshoe_hd_lm_init a_sigma b_sigma p).
Proof.
  intros Hp Hs; split;
    exact (PositivityFacts.fast_horseshoe_lm_init_positive Hp Hs).
Qed.

Section WithServices.
Context {libm : Libm} {rs : RandomSource} {la : LinAlg} {rstats : RStats}.

Hypothesis variates : positive_variates rs.
Hypothesis sqrt_pos : forall x, 0 < x -> 0 < sqrt x.

(** A run of a horseshoe linear model whose update keeps the state
    positive stores positive scales only. *)
Lemma horseshoe_lm_chain_positive
    (step : HorseshoeLm.state -> M HorseshoeLm.state)
    (st0 : HorseshoeLm.state) (p : nat) (mcmc_sample burnin thinning : Z)
    (w : world) :
  (forall s, positive_horseshoe_lm s ->
             always (step s) positive_horseshoe_lm) ->
  positive_horseshoe_lm st0 ->
  (1 <= thinning)%Z ->
  let b := snd (fst (chain step HorseshoeLm.store mcmc_sample burnin
                           thinning st0
                           (HorseshoeLm.init_buffers p mcmc_sample) w)) in
  Forall pos (HorseshoeLm.sigma2_eps_list b) /\
  Forall pos (HorseshoeLm.tau2_list b) /\
  Forall (Forall pos) (HorseshoeLm.lambda_list b).
Proof.
  intros Hstep H0 Ht; cbv zeta.
  assert (Hinv : forall k,
            positive_horseshoe_lm (fst (iterate step k st0 w)))
    by (intros k; now apply PositivityFacts.iterate_always).
  repeat split.
  - apply (chain_stored_all _ HorseshoeLm.store HorseshoeLm.sigma2_eps_list
             HorseshoeLm.sigma2_eps); auto; [apply repeat_length|].
    intros k _ _; apply Hinv.
  - apply (chain_stored_all _ HorseshoeLm.store HorseshoeLm.tau2_list
             HorseshoeLm.tau2); auto; [apply repeat_length|].
    intros k _ _; apply Hinv.
  - apply (chain_stored_all _ HorseshoeLm.store HorseshoeLm.lambda_list
             HorseshoeLm.lambda); auto; [apply repeat_length|].
    intros k _ _; apply Hinv.
Qed.

Lemma fast_horseshoe_hd_lm_step_positive y X a_sigma b_sigma A_tau A_lambda
    st :
  ~ A_lambda == 0 ->
  positive_horseshoe_lm st ->
  always (fast_horseshoe_hd_lm_step y X a_sigma b_sigma A_tau A_lambda st)
         positive_horseshoe_lm.
Proof.
  intros HA Hst; unfold fast_horseshoe_hd_lm_step.
  assert (HA2 : 0 < A_lambda * A_lambda)
    by now apply PositivityFacts.square_pos.
  cbv zeta.
  destruct (n_cols X <? n_rows X)%nat.
  - destruct (svd_econ X) as [[U d] V].
    now apply PositivityFacts.hs_one_step_update_big_n_positive.
  - now apply PositivityFacts.hs_one_step_update_positive.
Qed.

Lemma fast_horseshoe_ss_lm_step_positive y X a_sigma b_sigma A_tau A_lambda
    st :
  (n_cols X < n_rows X)%nat ->
  ~ A_lambda == 0 ->
  positive_horseshoe_lm st ->
  always (fast_horseshoe_ss_lm_step y X a_sigma b_sigma A_tau A_lambda st)
         positive_horseshoe_lm.
Proof.
  intros Hpn HA Hst; unfold fast_horseshoe_ss_lm_step.
  assert (HA2 : 0 < A_lambda * A_lambda)
    by now apply PositivityFacts.square_pos.
  cbv zeta.
  apply Nat.ltb_lt in Hpn; rewrite Hpn.
  destruct (svd_econ X) as [[U d] V].
  now apply PositivityFacts.hs_one_step_update_big_n_positive.
Qed.

Lemma fast_horseshoe_logit_step_positive y X A_tau A_lambda st :
  ~ A_lambda == 0 ->
  positive_horseshoe_logit st ->
  always (fast_horseshoe_logit_step y X A_tau A_lambda st)
         positive_horseshoe_logit.
Proof.
  intros HA Hst; unfold fast_horseshoe_logit_step.
  assert (HA2 : 0 < A_lambda * A_lambda)
    by now apply PositivityFacts.square_pos.
  cbv zeta.
  destruct (n_cols X <? n_rows X)%nat.
  - now apply PositivityFacts.one_step_logit_horseshoe_big_n_positive.
  - now apply PositivityFacts.one_step_logit_horseshoe_big_p_positive.
Qed.

Lemma fast_horseshoe_logit_init_positive X A_tau w :
  ~ A_tau == 0 ->
  (1 <= n_cols X)%nat ->
  positive_horseshoe_logit
    (fast_horseshoe_logit_init X A_tau
       (fst (pgdraw 1 (zeros (n_rows X)) w))).
Proof.
  intros HA Hp; unfold fast_horseshoe_logit_init, positive_horseshoe_logit.
  cbv zeta; cbn [HorseshoeLogit.tau2 HorseshoeLogit.lambda
                 HorseshoeLogit.omega HorseshoeLogit.b_lambda].
  repeat split; try apply PositivityFacts.ones_pos.
  - destruct (n_cols X <? n_rows X)%nat.
    + now apply PositivityFacts.square_pos.
    + apply PositivityFacts.Qinv1_pos; unfold Qn, Qlt; simpl; lia.
  - apply (PositivityFacts.always_pgdraw variates).
Qed.

(** *** The draws each fitting function returns *)

Lemma fast_normal_lm_draws_positive
    y X mcmc_sample burnin thinning a_sigma b_sigma A_tau w f :
  (1 <= thinning)%Z ->
  fst (NormalLm.fast_normal_lm y X mcmc_sample burnin thinning
         a_sigma b_sigma A_tau w) = Some f ->
  Forall pos (NormalLm.sigma2_eps_list (NormalLm.mcmc f)) /\
  Forall pos (NormalLm.tau2_list (NormalLm.mcmc f)).
Proof.
  intros Ht Hf.
  destruct (NormalLmFacts.fast_normal_lm_as_chain y X mcmc_sample burnin
              thinning a_sigma b_sigma A_tau w) as [Hfit _].
  rewrite Hfit in Hf.
  apply normal_lm_finish in Hf; destruct Hf as (Hb & _).
  assert (Hgood : forall k, (1 <= k)%nat ->
            positive_normal_lm
              (fst (iterate (NormalLm.run_step y X a_sigma b_sigma A_tau) k
                            (NormalLm.init_state a_sigma b_sigma A_tau) w))).
  { intros k Hk.
    apply (PositivityFacts.iterate_establishes
             (Good := positive_normal_lm)); auto.
    intros s; now apply run_step_positive. }
  rewrite Hb; split.
  - apply (chain_stored_all _ NormalLm.store NormalLm.sigma2_eps_list
             NormalLm.sigma2_eps); auto; [apply repeat_length|].
    intros k Hk _; apply Hgood; exact Hk.
  - apply (chain_stored_all _ NormalLm.store NormalLm.tau2_list
             NormalLm.tau2); auto; [apply repeat_length|].
    intros k Hk _; apply Hgood; exact Hk.
Qed.

Lemma fast_normal_logit_draws_positive
    y X mcmc_sample burnin thinning A_tau w f :
  (1 <= thinning)%Z ->
  fst (NormalLogit.fast_normal_logit y X mcmc_sample burnin thinning
         A_tau w) = Some f ->
  Forall pos (NormalLogit.tau2_list (NormalLogit.mcmc f)).
Proof.
  intros Ht Hf.
  rewrite fast_normal_logit_as_chain in Hf; cbn [fst] in Hf.
  apply normal_logit_finish in Hf; destruct Hf as (Hb & _).
  rewrite Hb.
  apply (chain_stored_all _ NormalLogit.store NormalLogit.tau2_list
           NormalLogit.tau2); auto; [apply repeat_length|].
  intros k Hk _.
  apply (PositivityFacts.iterate_establishes
           (Good := positive_normal_logit)); auto.
  intros s; now apply fast_normal_logit_step_positive.
Qed.

Lemma fast_horseshoe_logit_draws_positive
    y X mcmc_sample burnin thinning A_tau A_lambda w f :
  ~ A_lambda == 0 -> ~ A_tau == 0 -> (1 <= n_cols X)%nat ->
  (1 <= thinning)%Z ->
  fst (HorseshoeLogit.fast_horseshoe_logit y X mcmc_sample burnin thinning
         A_tau A_lambda w) = Some f ->
  Forall pos (HorseshoeLogit.tau2_list (HorseshoeLogit.mcmc f)) /\
  Forall (Forall pos) (HorseshoeLogit.lambda_list (HorseshoeLogit.mcmc f)).
Proof.
  intros HAl HAt Hp Ht Hf.
  rewrite fast_horseshoe_logit_as_chain in Hf; cbn [fst] in Hf.
  apply horseshoe_logit_finish in Hf; rewrite Hf.
  assert (Hinv : forall k,
            positive_horseshoe_logit
              (fst (iterate (fast_horseshoe_logit_step y X A_tau A_lambda) k
                      (fast_horseshoe_logit_init X A_tau
                         (fst (pgdraw 1 (zeros (n_rows X)) w)))
                      (snd (pgdraw 1 (zeros (n_rows X)) w))))).
  { intros k; apply PositivityFacts.iterate_always.
    - intros s Hs; now apply fast_horseshoe_logit_step_positive.
    - now apply fast_horseshoe_logit_init_positive. }
  split.
  - apply (chain_stored_all _ HorseshoeLogit.store HorseshoeLogit.tau2_list
             HorseshoeLogit.tau2); auto; [apply repeat_length|].
    intros k _ _; apply Hinv.
  - apply (chain_stored_all _ HorseshoeLogit.store
             HorseshoeLogit.lambda_list HorseshoeLogit.lambda);
      auto; [apply repeat_length|].
    intros k _ _; apply Hinv.
Qed.

Lemma fast_horseshoe_hd_lm_draws_positive
    y X mcmc_sample burnin thinning a_sigma b_sigma A_tau A_lambda w f :
  ~ A_lambda == 0 -> (1 <= n_cols X)%nat ->
  a_sigma == 0 \/ 0 < b_sigma / a_sigma ->
  (1 <= thinning)%Z ->
  fst (HorseshoeLm.fast_horseshoe_hd_lm y X mcmc_sample burnin thinning
         a_sigma b_sigma A_tau A_lambda w) = Some f ->
  Forall pos (HorseshoeLm.sigma2_eps_list (HorseshoeLm.mcmc f)) /\
  Forall pos (HorseshoeLm.tau2_list (HorseshoeLm.mcmc f)) /\
  Forall (Forall pos) (HorseshoeLm.lambda_list (HorseshoeLm.mcmc f)).
Proof.
  intros HA Hp Hs Ht Hf.
  rewrite fast_horseshoe_hd_lm_chain in Hf; cbn [fst] in Hf.
  apply horseshoe_lm_finish in Hf; destruct Hf as (Hb & _); rewrite Hb.
  apply horseshoe_lm_chain_positive; auto.
  - intros s Hs'; now apply fast_horseshoe_hd_lm_step_positive.
  - now apply horseshoe_init_positive.
Qed.

Lemma fast_horseshoe_ss_lm_draws_positive
    y X mcmc_sample burnin thinning a_sigma b_sigma A_tau A_lambda w f :
  (n_cols X < n_rows X)%nat ->
  ~ A_lambda == 0 -> (1 <= n_cols X)%nat ->
  a_sigma == 0 \/ 0 < b_sigma / a_sigma ->
  (1 <= thinning)%Z ->
  fst (HorseshoeLm.fast_horseshoe_ss_lm y X mcmc_sample burnin thinning
         a_sigma b_sigma A_tau A_lambda w) = Some f ->
  Forall pos (HorseshoeLm.sigma2_eps_list (HorseshoeLm.mcmc f)) /\
  Forall pos (HorseshoeLm.tau2_list (HorseshoeLm.mcmc f)) /\
  Forall (Forall pos) (HorseshoeLm.lambda_list (HorseshoeLm.mcmc f)).
Proof.
  intros Hpn HA Hp Hs Ht Hf.
  rewrite fast_horseshoe_ss_lm_chain in Hf; cbn [fst] in Hf.
  apply horseshoe_lm_finish in Hf; destruct Hf as (Hb & _); rewrite Hb.
  apply horseshoe_lm_chain_positive; auto.
  - intros s Hs'; now apply fast_horseshoe_ss_lm_step_positive.
  - now apply horseshoe_init_positive.
Qed.

End WithServices.

(** C4, as the code has it.  Assume every gamma and every Polya-Gamma
    variate strictly positive, and a square root that is positive on
    positive numbers.

    Each update function that draws its scales from gamma variates
    returns a state whose [sigma2_eps] and [tau2] are positive, and every
    [lambda_j], every [omega_i]: the four of the normal prior from any
    state, the five of the horseshoe prior from a positive state, given a
    nonzero [A_lambda] (the rates [b_lambda], by which the next update
    divides, are part of the invariant).

    With [thinning >= 1] every draw of [sigma2_eps], [tau2] and [lambda]
    that a run collects is positive, in [fast_normal_lm] and
    [fast_normal_logit] with no further condition, and in
    [fast_horseshoe_logit], [fast_horseshoe_lm], [fast_horseshoe_hd_lm]
    and the branch [p < n] of [fast_horseshoe_ss_lm] when the state the
    run starts from is positive: [A_lambda] nonzero, at least one
    predictor, [a_sigma = 0] or [b_sigma / a_sigma > 0], and for the
    logistic model [A_tau] nonzero.  In the two logistic models every
    state after the first update has a positive [omega].

    The branch [p >= n] of [fast_horseshoe_ss_lm], the slice sampler, is
    left out: it does not draw [lambda] from gamma variates, and the
    claim fails for it. *)
Theorem scale_parameters_stay_positive
    {libm : Libm} {rs : RandomSource} {la : LinAlg} {rstats : RStats}
    (variates : positive_variates rs)
    (sqrt_pos : forall x, 0 < x -> 0 < sqrt x) :
  (* each one-step update *)
  ((forall ys V d d2 y X A2 a_sigma b_sigma p n st,
      always (NormalLm.one_step_update_big_p
                ys V d d2 y X A2 a_sigma b_sigma p n st)
             positive_normal_lm) /\
   (forall ys V d d2 y X A2 a_sigma b_sigma p n st,
      always (NormalLm.one_step_update_big_n
                ys V d d2 y X A2 a_sigma b_sigma p n st)
             positive_normal_lm) /\
   (forall y_s Xty_s X A2_tau p n st,
      always (NormalLogit.one_step_logit_normal_big_n
                y_s Xty_s X A2_tau p n st)
             positive_normal_logit) /\
   (forall y_s XXt X A2_tau p n st,
      always (NormalLogit.one_step_logit_normal_big_p
                y_s XXt X A2_tau p n st)
             positive_normal_logit) /\
   (forall y_s Xty_s X A2_tau A2_lambda p n st,
      0 < A2_lambda -> positive_horseshoe_logit st ->
      always (HorseshoeLogit.one_step_logit_horseshoe_big_n
                y_s Xty_s X A2_tau A2_lambda p n st)
             positive_horseshoe_logit) /\
   (forall y_s X A2_tau A2_lambda p n st,
      0 < A2_lambda -> positive_horseshoe_logit st ->
      always (HorseshoeLogit.one_step_logit_horseshoe_big_p
                y_s X A2_tau A2_lambda p n st)
             positive_horseshoe_logit) /\
   (forall ys V d d2 y X VD A2_tau A2_lambda a_sigma b_sigma p n st,
      0 < A2_lambda -> positive_horseshoe_lm st ->
      always (HorseshoeLm.hs_one_step_update_big_p
                ys V d d2 y X VD A2_tau A2_lambda a_sigma b_sigma p n st)
             positive_horseshoe_lm) /\
   (forall dys V d2 y X A2 A2_lambda a_sigma b_sigma p n st,
      0 < A2_lambda -> positive_horseshoe_lm st ->
      always (HorseshoeLm.hs_one_step_update_big_n
                dys V d2 y X A2 A2_lambda a_sigma b_sigma p n st)
             positive_horseshoe_lm) /\
   (forall y X A2 A2_lambda a_sigma b_sigma p n st,
      0 < A2_lambda -> positive_horseshoe_lm st ->
      always (HorseshoeLm.hs_one_step_update
                y X A2 A2_lambda a_sigma b_sigma p n st)
             positive_horseshoe_lm)) /\
  (* the draws a run collects *)
  ((forall y X mcmc_sample burnin thinning a_sigma b_sigma A_tau w f,
      (1 <= thinning)%Z ->
      fst (NormalLm.fast_normal_lm y X mcmc_sample burnin thinning
             a_sigma b_sigma A_tau w) = Some f ->
      Forall pos (NormalLm.sigma2_eps_list (NormalLm.mcmc f)) /\
      Forall pos (NormalLm.tau2_list (NormalLm.mcmc f))) /\
   (forall y X mcmc_sample burnin thinning A_tau w f,
      (1 <= thinning)%Z ->
      fst (NormalLogit.fast_normal_logit y X mcmc_sample burnin thinning
             A_tau w) = Some f ->
      Forall pos (NormalLogit.tau2_list (NormalLogit.mcmc f))) /\
   (forall y X mcmc_sample burnin thinning A_tau A_lambda w f,
      ~ A_lambda == 0 -> ~ A_tau == 0 -> (1 <= n_cols X)%nat ->
      (1 <= thinning)%Z ->
      fst (HorseshoeLogit.fast_horseshoe_logit y X mcmc_sample burnin
             thinning A_tau A_lambda w) = Some f ->
      Forall pos (HorseshoeLogit.tau2_list (HorseshoeLogit.mcmc f)) /\
      Forall (Forall pos)
             (HorseshoeLogit.lambda_list (HorseshoeLogit.mcmc f))) /\
   (forall y X mcmc_sample burnin thinning a_sigma b_sigma A_tau A_lambda
           w f,
      ~ A_lambda == 0 -> (1 <= n_cols X)%nat ->
      a_sigma == 0 \/ 0 < b_sigma / a_sigma ->
      (1 <= thinning)%Z ->
      fst (HorseshoeLm.fast_horseshoe_lm y X mcmc_sample burnin thinning
             a_sigma b_sigma A_tau A_lambda w) = Some f ->
      Forall pos (HorseshoeLm.sigma2_eps_list (HorseshoeLm.mcmc f)) /\
      Forall pos (HorseshoeLm.tau2_list (HorseshoeLm.mcmc f)) /\
      Forall (Forall pos) (HorseshoeLm.lambda_list (HorseshoeLm.mcmc f))) /\
   (forall y X mcmc_sample burnin thinning a_sigma b_sigma A_tau A_lambda
           w f,
      ~ A_lambda == 0 -> (1 <= n_cols X)%nat ->
      a_sigma == 0 \/ 0 < b_sigma / a_sigma ->
      (1 <= thinning)%Z ->
      fst (HorseshoeLm.fast_horseshoe_hd_lm y X mcmc_sample burnin thinning
             a_sigma b_sigma A_tau A_lambda w) = Some f ->
      Forall pos (HorseshoeLm.sigma2_eps_list (HorseshoeLm.mcmc f)) /\
      Forall pos (HorseshoeLm.tau2_list (HorseshoeLm.mcmc f)) /\
      Forall (Forall pos) (HorseshoeLm.lambda_list (HorseshoeLm.mcmc f))) /\
   (forall y X mcmc_sample burnin thinning a_sigma b_sigma A_tau A_lambda
           w f,
      (n_cols X < n_rows X)%nat ->
      ~ A_lambda == 0 -> (1 <= n_cols X)%nat ->
      a_sigma == 0 \/ 0 < b_sigma / a_sigma ->
      (1 <= thinning)%Z ->
      fst (HorseshoeLm.fast_horseshoe_ss_lm y X mcmc_sample burnin thinning
             a_sigma b_sigma A_tau A_lambda w) = Some f ->
      Forall pos (HorseshoeLm.sigma2_eps_list (HorseshoeLm.mcmc f)) /\
      Forall pos (HorseshoeLm.tau2_list (HorseshoeLm.mcmc f)) /\
      Forall (Forall pos) (HorseshoeLm.lambda_list (HorseshoeLm.mcmc f)))) /\
  (* the states of the logistic models *)
  ((forall y X A_tau w k, (1 <= k)%nat ->
      let o := pgdraw 1 (zeros (n_rows X)) w in
      positive_normal_logit
        (fst (iterate (fast_normal_logit_step y X A_tau) k
                      (fast_normal_logit_init X A_tau (fst o)) (snd o)))) /\
   (forall y X A_tau A_lambda w k,
      ~ A_lambda == 0 -> ~ A_tau == 0 -> (1 <= n_cols X)%nat ->
      let o := pgdraw 1 (zeros (n_rows X)) w in
      positive_horseshoe_logit
        (fst (iterate (fast_horseshoe_logit_step y X A_tau A_lambda) k
                      (fast_horseshoe_logit_init X A_tau (fst o))
                      (snd o))))).
Proof.
  split; [|split].
  - repeat match goal with |- _ /\ _ => split end; intros.
    + now apply PositivityFacts.one_step_update_big_p_positive.
    + now apply PositivityFacts.one_step_update_big_n_positive.
    + now apply PositivityFacts.one_step_logit_normal_big_n_positive.
    + now apply PositivityFacts.one_step_logit_normal_big_p_positive.
    + now apply PositivityFacts.one_step_logit_horseshoe_big_n_positive.
    + now apply PositivityFacts.one_step_logit_horseshoe_big_p_positive.
    + now apply PositivityFacts.hs_one_step_update_big_p_positive.
    + now apply PositivityFacts.hs_one_step_update_big_n_positive.
    + now apply PositivityFacts.hs_one_step_update_positive.
  - split; [|split; [|split; [|split; [|split]]]]; intros.
    + eapply fast_normal_lm_draws_positive; eauto.
    + eapply fast_normal_logit_draws_positive; eauto.
    + apply (@fast_horseshoe_logit_draws_positive libm rs la variates sqrt_pos
               y X mcmc_sample burnin thinning A_tau A_lambda w f);
        assumption.
    + eapply (@PositivityFacts.fast_horseshoe_lm_draws_positive libm rs la);
        eassumption.
    + eapply fast_horseshoe_hd_lm_draws_positive; eauto.
    + eapply (@fast_horseshoe_ss_lm_draws_positive libm rs la rstats);
        eauto.
  - split; intros; cbv zeta.
    + apply (PositivityFacts.iterate_establishes
               (Good := positive_normal_logit)); auto.
      intros s; now apply fast_normal_logit_step_positive.
    + apply PositivityFacts.iterate_always.
      * intros s Hs; now apply fast_horseshoe_logit_step_positive.
      * now apply fast_horseshoe_logit_init_positive.
Qed.

Lemma scale_parameters_stay_positive_witness :
  exists f,
    fst (@HorseshoeLm.fast_horseshoe_hd_lm Examples.rational_libm
           Examples.cycling_source Examples.column_linalg
           [1; 2; 3] [[1]; [0]; [0]] 1 0 1 0 0 1 1 world0) = Some f /\
    Forall pos (HorseshoeLm.sigma2_eps_list (HorseshoeLm.mcmc f)) /\
    Forall pos (HorseshoeLm.tau2_list (HorseshoeLm.mcmc f)) /\
    Forall (Forall pos) (HorseshoeLm.lambda_list (HorseshoeLm.mcmc f)).
Proof.
  eexists; split; [vm_compute; reflexivity|].
  refine (proj1 (proj2 (proj2 (proj2 (proj2 (proj1 (proj2
    (@scale_parameters_stay_positive Examples.rational_libm
       Examples.cycling_source Examples.column_linalg
       Examples.rational_rstats
       ExamplesFacts.cycling_positive_variates
       ExamplesFacts.rational_sqrt_pos)))))))
    [1; 2; 3] [[1]; [0]; [0]] 1%Z 0%Z 1%Z 0 0 1 1 world0 _ _ _ _ _ _);
    [discriminate | simpl; lia | left; reflexivity | lia
    | vm_compute; reflexivity].
Defined.

(** C4, the slice sampler: [fast_horseshoe_ss_lm] on one observation
    [y = (1)] of one predictor [X = (1)] takes the branch [p >= n].  The
    gamma variates of the source are positive.  Its first two normal
    variates are [-1] and [0]: [alpha_1 = -1], [alpha_2 = 0], [Z = 2],
    [beta_s = (1 + 1 - 0) / 2 = 1] and [betacoef = -1 + 1 = 0].  Then
    [B = 0] and [inv_lambda2 = -log1p(-upsilon (1 - exp(-0))) / B] is the
    quotient of zero by zero, which is NaN for the code and [0] here, and
    so is [lambda = sqrt(1 / inv_lambda2)]: the [lambda] of the first
    collected draw is not positive. *)
Lemma fast_horseshoe_ss_lm_lambda_counterexample :
  positive_variates Examples.cycling_source /\
  exists f,
    fst (@HorseshoeLm.fast_horseshoe_ss_lm Examples.rational_libm
           Examples.cycling_source Examples.column_linalg
           Examples.rational_rstats [1] [[1]] 1 0 1 0 0 1 1 world0)
    = Some f /\
    nth 0 (nth 0 (HorseshoeLm.betacoef_list (HorseshoeLm.mcmc f)) []) 1
    == 0 /\
    HorseshoeLm.lambda_list (HorseshoeLm.mcmc f) = [[0]] /\
    ~ Forall (Forall pos) (HorseshoeLm.lambda_list (HorseshoeLm.mcmc f)).
Proof.
  split; [exact ExamplesFacts.cycling_positive_variates|].
  eexists; split; [vm_compute; reflexivity|].
  split; [vm_compute; reflexivity|].
  split; [reflexivity|].
  cbn [HorseshoeLm.lambda_list HorseshoeLm.mcmc].
  intros F; inversion F as [|a l Ha _]; subst.
  inversion Ha as [|b l' Hb _]; subst.
  revert Hb; vm_compute; discriminate.
Defined.

End CollectedDraws.
